(** * Verification of [or-tools/jssp_solver.py] and [rhyme-helper/main.py]

    The job-shop program builds a CP-SAT model (integer variables, interval
    variables, no-overlap, precedence and max-equality constraints, a
    minimisation objective), hands it to the solver of OR-Tools and reads the
    schedule back.  The model-building code is embedded statement by
    statement, with the dictionaries as finite maps and the exceptions of
    the look-ups as an error result.  The solver is an external library: it
    appears through the meaning of a model ([cp_model.feasible]) and the
    documented contract of [Solve] only.  The integers of the program are
    unbounded, as in Python; those of the library are 64-bit integers, and
    the objective value that the solver gives back is a float.  What the
    program prints is left out, what it computes to print is kept
    ([jssp.Report]).

    The rhyme generator is embedded over the look-up function of the
    [pronouncing] library, which it takes as a parameter. *)

From Stdlib Require Import ZArith Ascii DecimalString Sorted.
From stdpp Require Import base gmap strings list fin_maps.

Local Open Scope Z_scope.

(** ** Python preliminaries *)

Module Py.

(** The exceptions the embedded code can raise.  [TypeError] is what the
    library raises for a bound of a variable that is not a 64-bit
    integer; [SizeError] stands for the exception that it raises for the
    size of an interval that is not one (its class depends on the version
    of the library). *)
Inductive exn : Type :=
| KeyError (job_id : nat) (task_index : Z)
| IndexError (i : nat)
| TypeError
| SizeError.

Inductive result (A : Type) : Type :=
| Ok (a : A)
| Raise (e : exn).
Global Arguments Ok {A} a.
Global Arguments Raise {A} e.

Global Instance result_ret : MRet result := λ A a, Ok a.
Global Instance result_bind : MBind result := λ A B f r,
  match r with
  | Ok a => f a
  | Raise e => Raise e
  end.

(** [for x in xs: s = body(x, s)] with exceptions propagated. *)
Fixpoint for_each {A S : Type} (xs : list A) (body : A → S → result S) (s : S)
  : result S :=
  match xs with
  | [] => Ok s
  | x :: rest =>
      match body x s with
      | Ok s' => for_each rest body s'
      | Raise e => Raise e
      end
  end.

(** [float(n)] for an integer, as the integer that the float stands for:
    the double nearest to [n], ties going to the even significand of 53
    bits.  Integers up to 2^53 in absolute value are kept as they are.
    (The integers converted here are values that the solver holds, which
    are 64-bit integers, far from the largest double.) *)
Definition round_even (a ulp : Z) : Z :=
  let q := a / ulp in
  let r := a mod ulp in
  (if (ulp <? 2 * r) || ((2 * r =? ulp) && Z.odd q) then q + 1 else q) * ulp.

Definition float (n : Z) : Z :=
  let a := Z.abs n in
  let e := Z.log2 a - 52 in
  if e <=? 0 then n else Z.sgn n * round_even a (2 ^ e).

(** [str(n)] for an integer. *)
Definition str (n : Z) : string := NilZero.string_of_int (Z.to_int n).

(** [range(n)]: empty when [n <= 0]. *)
Definition range (n : Z) : list Z := Z.of_nat <$> seq 0 (Z.to_nat n).

(** [enumerate(xs, start)]. *)
Fixpoint enumerate {A : Type} (start : Z) (xs : list A) : list (Z * A) :=
  match xs with
  | [] => []
  | x :: rest => (start, x) :: enumerate (start + 1) rest
  end.

(** [len(xs)]. *)
Definition len {A : Type} (xs : list A) : Z := Z.of_nat (length xs).

(** [xs[i]] for an index taken from [range(len(xs))]. *)
Definition index {A : Type} (xs : list A) (i : nat) : result A :=
  match xs !! i with
  | Some x => Ok x
  | None => Raise (IndexError i)
  end.

(** [xs[:n]]: a negative [n] counts from the end. *)
Definition slice_to {A : Type} (xs : list A) (n : Z) : list A :=
  if 0 <=? n then take (Z.to_nat n) xs
  else take (Z.to_nat (len xs + n)) xs.

End Py.

(** ** The part of [ortools.sat.python.cp_model] the program uses *)

Module cp_model.

(** A variable handle is the index of the variable in the model. *)
Definition IntVar := nat.

Record IntVarProto : Type := MkIntVar
  { var_lb : Z; var_ub : Z; var_name : string }.

(** [NewIntervalVar(start, size, end, name)]: the size is a constant here. *)
Record IntervalVar : Type := MkInterval
  { iv_start : IntVar; iv_size : Z; iv_end : IntVar; iv_name : string }.

Inductive Constraint : Type :=
| CtInterval (iv : IntervalVar)
| CtNoOverlap (ivs : list IntervalVar)
| CtGe (a b : IntVar)                       (* [a >= b] *)
| CtMaxEquality (target : IntVar) (xs : list IntVar).

Record CpModel : Type := MkModel
  { variables : list IntVarProto;
    constraints : list Constraint;
    objective : option IntVar }.

Definition CpModel_new : CpModel := MkModel [] [] None.

(** The integers that the library takes are 64-bit integers. *)
Definition int64 (x : Z) : bool := (- 2 ^ 63 <=? x) && (x <? 2 ^ 63).

(** [model.NewIntVar(lb, ub, name)]: the bounds make a domain of the
    library, which raises [TypeError] for a bound that is not a 64-bit
    integer. *)
Definition NewIntVar (lb ub : Z) (name : string) (m : CpModel)
  : Py.result (CpModel * IntVar) :=
  if int64 lb && int64 ub then
    Py.Ok (MkModel (variables m ++ [MkIntVar lb ub name]) (constraints m)
             (objective m),
           length (variables m))
  else Py.Raise Py.TypeError.

(** [model.NewIntervalVar(start, size, end, name)]: the size is stored
    as a 64-bit integer, and refused when it is not one. *)
Definition NewIntervalVar (start : IntVar) (size : Z) (end_ : IntVar)
    (name : string) (m : CpModel) : Py.result (CpModel * IntervalVar) :=
  if int64 size then
    let iv := MkInterval start size end_ name in
    Py.Ok (MkModel (variables m) (constraints m ++ [CtInterval iv])
             (objective m), iv)
  else Py.Raise Py.SizeError.

Definition add_constraint (c : Constraint) (m : CpModel) : CpModel :=
  MkModel (variables m) (constraints m ++ [c]) (objective m).

Definition AddNoOverlap (ivs : list IntervalVar) : CpModel → CpModel :=
  add_constraint (CtNoOverlap ivs).

(** [model.Add(a >= b)]. *)
Definition Add_ge (a b : IntVar) : CpModel → CpModel :=
  add_constraint (CtGe a b).

Definition AddMaxEquality (target : IntVar) (xs : list IntVar)
  : CpModel → CpModel :=
  add_constraint (CtMaxEquality target xs).

Definition Minimize (v : IntVar) (m : CpModel) : CpModel :=
  MkModel (variables m) (constraints m) (Some v).

(** *** Meaning of a model

    An interval variable ties its end to its start plus its size;
    [AddNoOverlap] asks that of any two of its intervals one ends before
    the other starts; [AddMaxEquality] that the target equals the greatest
    of the listed variables; a variable stays within its bounds. *)

(** [solver.Value(var)]. *)
Definition Assignment := IntVar → Z.

Definition before (v : Assignment) (a b : IntervalVar) : bool :=
  v (iv_end a) <=? v (iv_start b).

Definition disjoint (v : Assignment) (a b : IntervalVar) : bool :=
  before v a b || before v b a.

Fixpoint pairwise {A : Type} (f : A → A → bool) (l : list A) : bool :=
  match l with
  | [] => true
  | x :: rest => forallb (f x) rest && pairwise f rest
  end.

Definition holds (v : Assignment) (c : Constraint) : bool :=
  match c with
  | CtInterval iv => v (iv_start iv) + iv_size iv =? v (iv_end iv)
  | CtNoOverlap ivs => pairwise (disjoint v) ivs
  | CtGe a b => v b <=? v a
  | CtMaxEquality t xs =>
      forallb (λ x, v x <=? v t) xs && existsb (λ x, v x =? v t) xs
  end.

Fixpoint in_domains (v : Assignment) (i : IntVar) (ds : list IntVarProto)
  : bool :=
  match ds with
  | [] => true
  | d :: rest =>
      (var_lb d <=? v i) && (v i <=? var_ub d) && in_domains v (S i) rest
  end.

Definition feasible (m : CpModel) (v : Assignment) : bool :=
  in_domains v 0%nat (variables m) && forallb (holds v) (constraints m).

(** The value that the solver minimises ([0] for a model without
    objective). *)
Definition objective_of (m : CpModel) (v : Assignment) : Z :=
  match objective m with
  | Some o => v o
  | None => 0
  end.

(** [solver.ObjectiveValue()]: the library gives the value of the
    objective as a float. *)
Definition objective_value (m : CpModel) (v : Assignment) : Z :=
  Py.float (objective_of m v).

(** Validation done by the solver before it searches: a performed
    interval has a size that is not negative, a domain is not empty. *)
Definition valid_constraint (c : Constraint) : bool :=
  match c with
  | CtInterval iv => 0 <=? iv_size iv
  | _ => true
  end.

Definition valid (m : CpModel) : bool :=
  forallb (λ d, var_lb d <=? var_ub d) (variables m)
  && forallb valid_constraint (constraints m).

(** The solver also refuses a model in which a sum that it may form
    could overflow its 64-bit arithmetic.  That test belongs to the
    solver; all that is used of it here is that a model passes when every
    bound of a variable and every size of an interval is at most 2^60 in
    absolute value.  For any other model the answer [MODEL_INVALID] is
    left possible. *)
Definition small (x : Z) : bool := (- 2 ^ 60 <=? x) && (x <=? 2 ^ 60).

Definition small_constraint (c : Constraint) : bool :=
  match c with
  | CtInterval iv => small (iv_size iv)
  | _ => true
  end.

Definition in_range (m : CpModel) : bool :=
  forallb (λ d, small (var_lb d) && small (var_ub d)) (variables m)
  && forallb small_constraint (constraints m).

Inductive CpSolverStatus : Type :=
| UNKNOWN | MODEL_INVALID | FEASIBLE | INFEASIBLE | OPTIMAL.

Global Instance CpSolverStatus_eq_dec : EqDecision CpSolverStatus.
Proof. solve_decision. Defined.

(** [CpSolver.Solve]: what the library documents about the status it
    returns and the values it then holds.  [limited] says whether a search
    limit ([max_time_in_seconds] and the like) was set: only then may the
    search stop before it has proved optimality or infeasibility. *)
Inductive Solve (limited : bool) (m : CpModel)
  : CpSolverStatus → Assignment → Prop :=
| Solve_optimal v :
    feasible m v = true →
    (∀ w, feasible m w = true → objective_of m v ≤ objective_of m w) →
    Solve limited m OPTIMAL v
| Solve_feasible v :
    limited = true → feasible m v = true → Solve limited m FEASIBLE v
| Solve_infeasible v :
    (∀ w, feasible m w = false) → Solve limited m INFEASIBLE v
| Solve_invalid v :
    valid m = false ∨ in_range m = false → Solve limited m MODEL_INVALID v
| Solve_unknown v :
    limited = true → Solve limited m UNKNOWN v.

End cp_model.

(** ** [solve_simple_jssp]: data, variables, constraints, objective *)

Module jssp.
Import Py cp_model.

(** A task is the tuple [(machine_id, processing_time)]. *)
Definition Task : Type := Z * Z.
Definition Job : Type := list Task.

Definition jobs_data : list Job :=
  [ [(0, 3); (1, 2); (2, 2)];
    [(0, 2); (2, 1); (1, 4)];
    [(1, 4); (2, 3)] ].

(** The three handles stored for a task. *)
Definition TaskVars : Type := IntVar * IntVar * IntervalVar.

Record State : Type := MkState
  { model : CpModel;
    all_tasks : gmap (nat * Z) TaskVars;
    machine_to_intervals : gmap Z (list IntervalVar) }.

Definition init : State := MkState CpModel_new ∅ ∅.

(** [all_tasks[(job_id, task_index)]]. *)
Definition get_task (all_tasks : gmap (nat * Z) TaskVars)
    (job_id : nat) (task_index : Z) : result TaskVars :=
  match all_tasks !! (job_id, task_index) with
  | Some t => Ok t
  | None => Raise (KeyError job_id task_index)
  end.

Record Built : Type := MkBuilt
  { built_model : CpModel;
    built_tasks : gmap (nat * Z) TaskVars;
    built_makespan : IntVar }.

(** One entry of [assigned_jobs[machine_id]]. *)
Record Assigned : Type := MkAssigned
  { a_job : nat; a_task : Z; a_start : Z; a_end : Z; a_duration : Z }.

(** [list.sort(key=lambda x: x['start'])]: stable. *)
Fixpoint insert_by_start (x : Assigned) (l : list Assigned) : list Assigned :=
  match l with
  | [] => [x]
  | y :: rest =>
      if a_start x <? a_start y then x :: l else y :: insert_by_start x rest
  end.

Definition sort_by_start (l : list Assigned) : list Assigned :=
  fold_left (λ sorted x, insert_by_start x sorted) l [].

(** What step 7 shows: the status, the objective value and the schedule by
    machine, or that there is none. *)
Inductive Report : Type :=
| SolutionFound (status : CpSolverStatus) (makespan : Z)
    (assigned_jobs : gmap Z (list Assigned))
| NoSolution
| Stopped (status : CpSolverStatus).

(** The body of the function does not depend on the literal: every
    definition below takes [jobs_data] as its argument. *)
Section Model.
Variable jobs_data : list Job.

Definition num_jobs : nat := length jobs_data.
Definition all_jobs : list nat := seq 0 num_jobs.

Definition max_machine_id : Z :=
  fold_left
    (λ max_machine_id job,
       fold_left
         (λ max_machine_id (task : Task),
            if bool_decide (task.1 > max_machine_id) then task.1
            else max_machine_id)
         job max_machine_id)
    jobs_data 0.

Definition num_machines : Z := max_machine_id + 1.
Definition all_machines : list Z := range num_machines.

(** [sum(task[1] for job in jobs_data for task in job)]. *)
Definition horizon : Z :=
  fold_left Z.add (jobs_data ≫= (λ job, (λ task : Task, task.2) <$> job)) 0.

(** Body of the inner loop of step 3. *)
Definition create_task (job_id : nat) (it : Z * Task) (s : State)
  : result State :=
  let '(task_index, (machine_id, duration)) := it in
  let suffix := "_" +:+ str (Z.of_nat job_id) +:+ "_" +:+ str task_index in
  '(m1, start_var) ← NewIntVar 0 horizon ("start" +:+ suffix) (model s);
  '(m2, end_var) ← NewIntVar 0 horizon ("end" +:+ suffix) m1;
  '(m3, interval_var) ←
    NewIntervalVar start_var duration end_var ("interval" +:+ suffix) m2;
  Ok (MkState m3
        (<[(job_id, task_index) := (start_var, end_var, interval_var)]>
           (all_tasks s))
        (<[machine_id :=
             (machine_to_intervals s !!! machine_id) ++ [interval_var]]>
           (machine_to_intervals s))).

Definition create_variables (s : State) : result State :=
  for_each all_jobs
    (λ job_id s,
       job ← index jobs_data job_id;
       for_each (enumerate 0 job) (create_task job_id) s)
    s.

(** Step 4a.  Reading a [defaultdict] at a missing key stores the
    default there. *)
Definition add_no_overlap_on (machine_id : Z) (s : State) : State :=
  let intervals := machine_to_intervals s !!! machine_id in
  MkState (AddNoOverlap intervals (model s)) (all_tasks s)
    (<[machine_id := intervals]> (machine_to_intervals s)).

Definition add_no_overlap (s : State) : result State :=
  for_each all_machines (λ machine_id s, Ok (add_no_overlap_on machine_id s)) s.

(** Step 4b. *)
Definition add_precedence (job_id : nat) (task_index : Z) (s : State)
  : result State :=
  prev ← get_task (all_tasks s) job_id task_index;
  let prev_task_end := prev.1.2 in
  next ← get_task (all_tasks s) job_id (task_index + 1);
  let next_task_start := next.1.1 in
  Ok (MkState (Add_ge next_task_start prev_task_end (model s))
        (all_tasks s) (machine_to_intervals s)).

Definition add_precedences (s : State) : result State :=
  for_each all_jobs
    (λ job_id s,
       job ← index jobs_data job_id;
       for_each (range (len job - 1)) (add_precedence job_id) s)
    s.

(** Step 5. *)
Definition collect_last_task_end_times (all_tasks : gmap (nat * Z) TaskVars)
  : result (list IntVar) :=
  for_each all_jobs
    (λ job_id last_task_end_times,
       job ← index jobs_data job_id;
       let last_task_index := len job - 1 in
       t ← get_task all_tasks job_id last_task_index;
       Ok (last_task_end_times ++ [t.1.2]))
    [].

(** Steps 2 to 5: everything up to [solver.Solve(model)]. *)
Definition build_model : result Built :=
  s ← create_variables init;
  s ← add_no_overlap s;
  s ← add_precedences s;
  '(m, makespan) ← NewIntVar 0 horizon "makespan" (model s);
  last_task_end_times ← collect_last_task_end_times (all_tasks s);
  let m := AddMaxEquality makespan last_task_end_times m in
  let m := Minimize makespan m in
  Ok (MkBuilt m (all_tasks s) makespan).

(** Step 7, the solved times of every task, by machine. *)
Definition assign_task (all_tasks : gmap (nat * Z) TaskVars) (v : Assignment)
    (job_id : nat) (it : Z * Task) (assigned_jobs : gmap Z (list Assigned))
  : result (gmap Z (list Assigned)) :=
  let '(task_index, (machine_id, duration)) := it in
  t ← get_task all_tasks job_id task_index;
  let start_time := v t.1.1 in
  let end_time := v t.1.2 in
  Ok (<[machine_id :=
          (assigned_jobs !!! machine_id)
            ++ [MkAssigned job_id task_index start_time end_time duration]]>
        assigned_jobs).

Definition collect_assigned (all_tasks : gmap (nat * Z) TaskVars)
    (v : Assignment) : result (gmap Z (list Assigned)) :=
  for_each all_jobs
    (λ job_id assigned_jobs,
       job ← index jobs_data job_id;
       for_each (enumerate 0 job) (assign_task all_tasks v job_id)
         assigned_jobs)
    ∅.

Definition sort_machines (assigned_jobs : gmap Z (list Assigned))
  : gmap Z (list Assigned) :=
  fold_left
    (λ assigned_jobs machine_id,
       <[machine_id := sort_by_start (assigned_jobs !!! machine_id)]>
         assigned_jobs)
    all_machines assigned_jobs.

Definition display (b : Built) (status : CpSolverStatus) (v : Assignment)
  : result Report :=
  if bool_decide (status = OPTIMAL ∨ status = FEASIBLE) then
    assigned_jobs ← collect_assigned (built_tasks b) v;
    Ok (SolutionFound status (objective_value (built_model b) v)
          (sort_machines assigned_jobs))
  else if bool_decide (status = INFEASIBLE) then Ok NoSolution
  else Ok (Stopped status).

(** The whole function: the solver is the only source of
    nondeterminism, so a run is a relation. *)
Definition run (limited : bool) (r : result Report) : Prop :=
  match build_model with
  | Raise e => r = Raise e
  | Ok b =>
      ∃ status v, Solve limited (built_model b) status v
                  ∧ r = display b status v
  end.

End Model.

(** The program as it is: the literal data, no search limit. *)
Definition solve_simple_jssp : result Report → Prop := run jobs_data false.

End jssp.

(** ** Layout of the model: the tasks in creation order *)

Module layout.
Import Py cp_model jssp.

(** A task with its job and its place in the job. *)
Record Op : Type := MkOp
  { op_job : nat; op_task : Z; op_machine : Z; op_duration : Z }.

Definition op_key (op : Op) : nat * Z := (op_job op, op_task op).

Definition op_suffix (op : Op) : string :=
  "_" +:+ str (Z.of_nat (op_job op)) +:+ "_" +:+ str (op_task op).

(** The [p]-th task created owns the variables [2p] and [2p+1]. *)
Definition start_of (p : nat) : IntVar := (2 * p)%nat.
Definition end_of (p : nat) : IntVar := (2 * p + 1)%nat.

Definition op_interval (p : nat) (op : Op) : IntervalVar :=
  MkInterval (start_of p) (op_duration op) (end_of p)
    ("interval" +:+ op_suffix op).

Definition op_vars (p : nat) (op : Op) : TaskVars :=
  (start_of p, end_of p, op_interval p op).

Fixpoint job_ops (job_id : nat) (k : Z) (job : Job) : list Op :=
  match job with
  | [] => []
  | (m, d) :: rest => MkOp job_id k m d :: job_ops job_id (k + 1) rest
  end.

Fixpoint jobs_ops (j : nat) (jobs : list Job) : list Op :=
  match jobs with
  | [] => []
  | job :: rest => job_ops j 0 job ++ jobs_ops (S j) rest
  end.

Definition ops (jobs : list Job) : list Op := jobs_ops 0 jobs.

(** Number of tasks in the jobs before job [j]. *)
Definition offset (jobs : list Job) (j : nat) : nat :=
  length (concat (take j jobs)).

Definition task_at (jobs : list Job) (j k : nat) : option Task :=
  jobs !! j ≫= (λ job : Job, job !! k).

(** [for job_id in all_jobs] with [jobs_data[job_id]] already read. *)
Fixpoint for_jobs {St : Type} (j : nat) (jobs : list Job)
    (body : nat → Job → St → result St) (s : St) : result St :=
  match jobs with
  | [] => Ok s
  | job :: rest =>
      match body j job s with
      | Ok s' => for_jobs (S j) rest body s'
      | Raise e => Raise e
      end
  end.

Definition create_op (H : Z) (s : State) (op : Op) : State :=
  let suffix := op_suffix op in
  let p := length (variables (model s)) in
  MkState
    (MkModel
       (variables (model s)
          ++ [MkIntVar 0 H ("start" +:+ suffix); MkIntVar 0 H ("end" +:+ suffix)])
       (constraints (model s)
          ++ [CtInterval (MkInterval p (op_duration op) (S p)
                            ("interval" +:+ suffix))])
       (objective (model s)))
    (<[op_key op := (p, S p, MkInterval p (op_duration op) (S p)
                               ("interval" +:+ suffix))]> (all_tasks s))
    (<[op_machine op :=
         (machine_to_intervals s !!! op_machine op)
           ++ [MkInterval p (op_duration op) (S p) ("interval" +:+ suffix)]]>
       (machine_to_intervals s)).

Fixpoint ops_protos (H : Z) (P : list Op) : list IntVarProto :=
  match P with
  | [] => []
  | op :: rest =>
      MkIntVar 0 H ("start" +:+ op_suffix op)
        :: MkIntVar 0 H ("end" +:+ op_suffix op) :: ops_protos H rest
  end.

Fixpoint ops_intervals (p : nat) (P : list Op) : list Constraint :=
  match P with
  | [] => []
  | op :: rest => CtInterval (op_interval p op) :: ops_intervals (S p) rest
  end.

Fixpoint ops_tasks (p : nat) (P : list Op) (acc : gmap (nat * Z) TaskVars)
  : gmap (nat * Z) TaskVars :=
  match P with
  | [] => acc
  | op :: rest => ops_tasks (S p) rest (<[op_key op := op_vars p op]> acc)
  end.

(** The intervals of the tasks of [P] that run on [machine], [p] being
    the place of the first task of [P]. *)
Fixpoint ops_on (machine : Z) (p : nat) (P : list Op) : list IntervalVar :=
  match P with
  | [] => []
  | op :: rest =>
      if bool_decide (op_machine op = machine)
      then op_interval p op :: ops_on machine (S p) rest
      else ops_on machine (S p) rest
  end.

(** The numbers of a problem that reach the library are 64-bit integers:
    the horizon, which bounds every variable, and the durations, which are
    the sizes of the intervals. *)
Definition fits_int64 (jobs : list Job) : Prop :=
  int64 (horizon jobs) = true
  ∧ Forall (Forall (λ task : Task, int64 task.2 = true)) jobs.

(** Closed forms of what steps 3 to 5 put into the model. *)
Definition tasks_of (jobs : list Job) : gmap (nat * Z) TaskVars :=
  ops_tasks 0 (ops jobs) ∅.

Definition prec_job (o n : nat) : list Constraint :=
  (λ k, CtGe (start_of (o + k + 1)) (end_of (o + k))) <$> seq 0 (n - 1).

Fixpoint prec_from (o : nat) (suf : list Job) : list Constraint :=
  match suf with
  | [] => []
  | job :: rest => prec_job o (length job) ++ prec_from (o + length job) rest
  end.

Fixpoint lasts_from (o : nat) (suf : list Job) : list IntVar :=
  match suf with
  | [] => []
  | job :: rest =>
      end_of (o + length job - 1) :: lasts_from (o + length job) rest
  end.

Definition makespan_of (jobs : list Job) : IntVar :=
  (2 * length (ops jobs))%nat.

Definition model_of (jobs : list Job) : CpModel :=
  MkModel
    (ops_protos (horizon jobs) (ops jobs)
       ++ [MkIntVar 0 (horizon jobs) "makespan"])
    (ops_intervals 0 (ops jobs)
       ++ ((λ machine, CtNoOverlap (ops_on machine 0 (ops jobs)))
             <$> all_machines jobs)
       ++ prec_from 0 jobs
       ++ [CtMaxEquality (makespan_of jobs) (lasts_from 0 jobs)])
    (Some (makespan_of jobs)).

(** What a value assignment must satisfy to be a schedule of [jobs]:
    the meaning of [model_of jobs], task by task. *)
Record scheduled (jobs : list Job) (v : Assignment) : Prop := MkScheduled
  { sch_bounds : ∀ p op, ops jobs !! p = Some op →
      0 ≤ v (start_of p) ≤ horizon jobs ∧ 0 ≤ v (end_of p) ≤ horizon jobs;
    sch_duration : ∀ p op, ops jobs !! p = Some op →
      v (start_of p) + op_duration op = v (end_of p);
    sch_machine : ∀ p q op op',
      (p < q)%nat → ops jobs !! p = Some op → ops jobs !! q = Some op' →
      op_machine op = op_machine op' → op_machine op ∈ all_machines jobs →
      v (end_of p) ≤ v (start_of q) ∨ v (end_of q) ≤ v (start_of p);
    sch_precedence : ∀ j job k,
      jobs !! j = Some job → (S k < length job)%nat →
      v (end_of (offset jobs j + k)) ≤ v (start_of (offset jobs j + k + 1));
    sch_makespan_bounds : 0 ≤ v (makespan_of jobs) ≤ horizon jobs;
    sch_makespan_ub : ∀ j job, jobs !! j = Some job →
      v (end_of (offset jobs j + length job - 1)) ≤ v (makespan_of jobs);
    sch_makespan_attained : ∃ j job, jobs !! j = Some job ∧
      v (end_of (offset jobs j + length job - 1)) = v (makespan_of jobs) }.

(** Step 7 in closed form. *)
Definition op_record (v : Assignment) (p : nat) (op : Op) : Assigned :=
  MkAssigned (op_job op) (op_task op) (v (start_of p)) (v (end_of p))
    (op_duration op).

Fixpoint records_on (v : Assignment) (machine : Z) (p : nat) (P : list Op)
  : list Assigned :=
  match P with
  | [] => []
  | op :: rest =>
      if bool_decide (op_machine op = machine)
      then op_record v p op :: records_on v machine (S p) rest
      else records_on v machine (S p) rest
  end.

Definition assign_op (v : Assignment)
    (st : gmap Z (list Assigned) * nat) (op : Op)
  : gmap Z (list Assigned) * nat :=
  (<[op_machine op := (st.1 !!! op_machine op) ++ [op_record v st.2 op]]> st.1,
   S st.2).

(** The schedule shown when the solver holds the values [v]. *)
Definition shown (jobs : list Job) (v : Assignment) : gmap Z (list Assigned) :=
  sort_machines jobs (fold_left (assign_op v) (ops jobs) (∅, 0%nat)).1.

(** The inner loop of the machine count. *)
Definition scan_job (max_machine_id : Z) (job : Job) : Z :=
  fold_left
    (λ max_machine_id (task : Task),
       if bool_decide (task.1 > max_machine_id) then task.1 else max_machine_id)
    job max_machine_id.

(** The schedule that runs the tasks one after the other in creation
    order: variable [x] holds the time spent on the tasks before it. *)
Definition elapsed (P : list Op) (n : nat) : Z :=
  foldr Z.add 0 (op_duration <$> take n P).

Definition serial (jobs : list Job) : Assignment :=
  λ x, elapsed (ops jobs) ((x + 1) / 2).

(** A schedule of the literal data that ends at time 11; the variables
    are the start and the end of each task in creation order, then the
    makespan. *)
Definition schedule_11 : Assignment :=
  λ x, nth x [0; 3; 4; 6; 6; 8;  3; 5; 5; 6; 6; 10;  0; 4; 8; 11;  11] 0.

End layout.

(** ** Recomputing the makespan from the schedule that is shown *)

Module recheck.
Import jssp.

Global Instance Assigned_eq_dec : EqDecision Assigned.
Proof. solve_decision. Defined.

(** Every entry of [assigned_jobs], whatever its machine. *)
Definition entries (assigned_jobs : gmap Z (list Assigned)) : list Assigned :=
  map_to_list assigned_jobs ≫= snd.

(** [r'] is a later task of the job of [r]. *)
Definition later_in_job (r r' : Assigned) : bool :=
  bool_decide (a_job r' = a_job r ∧ a_task r < a_task r').

(** [r] is the last task of its job among [es]. *)
Definition is_last (es : list Assigned) (r : Assigned) : bool :=
  negb (existsb (later_in_job r) es).

Fixpoint maximum (l : list Z) : option Z :=
  match l with
  | [] => None
  | x :: rest =>
      Some match maximum rest with
           | Some y => Z.max x y
           | None => x
           end
  end.

(** The greatest end time among the last tasks of the jobs. *)
Definition recomputed_makespan (assigned_jobs : gmap Z (list Assigned))
  : option Z :=
  let es := entries assigned_jobs in
  maximum (a_end <$> filter (λ r, is_last es r) es).

End recheck.

(** ** What the specification says, in its own words *)

Module spec.
Import jssp layout.



(** The sum of the durations, job by job. *)
Definition total_duration (jobs : list Job) : Z :=
  foldr Z.add 0 ((λ job, foldr Z.add 0 ((λ task : Task, task.2) <$> job)) <$> jobs).

(** Malformed input: an empty job, a duration that is not positive, or a
    negative machine id. *)
Definition malformed (jobs : list Job) : Prop :=
  Exists (λ job : Job,
            job = [] ∨ Exists (λ task : Task, task.2 ≤ 0 ∨ task.1 < 0) job)
    jobs.

(** A valid problem: at least one job, no empty job, positive durations,
    machine ids that are not negative. *)
Definition valid_problem (jobs : list Job) : Prop :=
  jobs ≠ []
  ∧ Forall (λ job : Job,
              job ≠ [] ∧ Forall (λ task : Task, 0 < task.2 ∧ 0 ≤ task.1) job)
      jobs.

(** A schedule gives every task a start time that is not negative, keeps
    the order of the tasks of a job, and never runs two tasks of a machine
    at once. *)
Definition is_schedule (jobs : list Job) (start : nat → nat → Z) : Prop :=
  (∀ j k t, task_at jobs j k = Some t → 0 ≤ start j k)
  ∧ (∀ j k t t',
       task_at jobs j k = Some t → task_at jobs j (S k) = Some t' →
       start j k + t.2 ≤ start j (S k))
  ∧ (∀ j k j' k' t t',
       (j, k) ≠ (j', k') →
       task_at jobs j k = Some t → task_at jobs j' k' = Some t' →
       t.1 = t'.1 →
       start j k + t.2 ≤ start j' k' ∨ start j' k' + t'.2 ≤ start j k).

(** [M] is the time at which the last task ends. *)
Definition has_makespan (jobs : list Job) (start : nat → nat → Z) (M : Z)
  : Prop :=
  (∀ j k t, task_at jobs j k = Some t → start j k + t.2 ≤ M)
  ∧ (∃ j k t, task_at jobs j k = Some t ∧ start j k + t.2 = M).

(** The start times that the solver holds for the tasks. *)
Definition starts (jobs : list Job) (v : cp_model.Assignment) (j k : nat) : Z :=
  v (start_of (offset jobs j + k)).

(** The problem with the duration of task [k] of job [j] made longer by
    [delta]. *)
Definition lengthen (jobs : list Job) (j k : nat) (delta : Z) : list Job :=
  alter (alter (λ task : Task, (task.1, task.2 + delta)) k) j jobs.

End spec.

(** ** Longer tasks: comparing two problems of the same shape *)

Module stretch.
Import cp_model jssp layout.

(** [t'] is the task [t] with a duration that is not shorter. *)
Definition task_le (t t' : Task) : Prop := t.1 = t'.1 ∧ t.2 ≤ t'.2.

Definition stretched (jobs jobs' : list Job) : Prop :=
  Forall2 (Forall2 task_le) jobs jobs'.

Definition op_le (op op' : Op) : Prop :=
  op_job op = op_job op' ∧ op_task op = op_task op'
  ∧ op_machine op = op_machine op' ∧ op_duration op ≤ op_duration op'.

Definition duration_at (P : list Op) (p : nat) : Z :=
  default 0 (op_duration <$> P !! p).

(** A schedule of the longer tasks, cut down to the durations of [jobs]:
    every task starts when it did and ends as soon as it is done; the
    makespan is computed again. *)
Definition shrunk_value (jobs : list Job) (v : Assignment) (x : IntVar) : Z :=
  if Nat.odd x then v (x - 1)%nat + duration_at (ops jobs) (x / 2) else v x.

Definition shrunk (jobs : list Job) (v : Assignment) : Assignment :=
  λ x, if decide (x = makespan_of jobs)
       then default 0 (recheck.maximum (shrunk_value jobs v <$> lasts_from 0 jobs))
       else shrunk_value jobs v x.

(** [M] is a makespan that a run without search limit reports as
    optimal. *)
Definition optimal_makespan (jobs : list Job) (M : Z) : Prop :=
  ∃ b v, build_model jobs = Py.Ok b
         ∧ Solve false (built_model b) OPTIMAL v
         ∧ objective_value (built_model b) v = M.

End stretch.

(** ** Further notions about problems and schedules *)

Module beyond.
Import cp_model jssp layout.

(** The values that hold the schedule [start] when it ends at [M]. *)
Definition of_starts (jobs : list Job) (start : nat → nat → Z) (M : Z)
  : Assignment :=
  λ x, if decide (x = makespan_of jobs) then M
       else match ops jobs !! (x / 2)%nat with
            | Some op =>
                start (op_job op) (Z.to_nat (op_task op))
                + (if Nat.odd x then op_duration op else 0)
            | None => 0
            end.

(** The time the tasks of a job take, one after the other. *)
Definition job_length (job : Job) : Z :=
  foldr Z.add 0 ((λ task : Task, task.2) <$> job).

(** The tasks that run on a machine, and the time they take. *)
Definition tasks_on (jobs : list Job) (machine : Z) : list Task :=
  filter (λ task : Task, task.1 = machine) (concat jobs).

Definition machine_load (jobs : list Job) (machine : Z) : Z :=
  foldr Z.add 0 ((λ task : Task, task.2) <$> tasks_on jobs machine).

(** No two of the intervals, given by start and end, share a moment. *)
Fixpoint apart (l : list (Z * Z)) : Prop :=
  match l with
  | [] => True
  | x :: rest => Forall (λ y, x.2 ≤ y.1 ∨ y.2 ≤ x.1) rest ∧ apart rest
  end.

(** The times that the solver holds for a list of intervals. *)
Definition times (v : Assignment) (ivs : list IntervalVar) : list (Z * Z) :=
  (λ iv, (v (iv_start iv), v (iv_end iv))) <$> ivs.

(** The time between the start and the end of an interval. *)
Definition span (x : Z * Z) : Z := x.2 - x.1.

(** The schedule that starts every job at time 0 and runs its tasks one
    right after the other, whatever the machines. *)
Definition eager_start (jobs : list Job) (j k : nat) : Z :=
  match jobs !! j with
  | Some job => job_length (take k job)
  | None => 0
  end.

Definition eager (jobs : list Job) (M : Z) : Assignment :=
  of_starts jobs (eager_start jobs) M.

(** The variables a constraint mentions. *)
Definition constraint_vars (c : Constraint) : list IntVar :=
  match c with
  | CtInterval iv => [iv_start iv; iv_end iv]
  | CtNoOverlap ivs => ivs ≫= (λ iv, [iv_start iv; iv_end iv])
  | CtGe a b => [a; b]
  | CtMaxEquality t xs => t :: xs
  end.

(** Every variable that the model mentions has been declared. *)
Definition well_formed (m : CpModel) : Prop :=
  (∀ c x, c ∈ constraints m → x ∈ constraint_vars c →
          (x < length (variables m))%nat)
  ∧ (∀ o, objective m = Some o → (o < length (variables m))%nat).

(** The kinds of constraints, and how many constraints of a kind a list
    holds. *)
Definition is_interval (c : Constraint) : bool :=
  match c with CtInterval _ => true | _ => false end.

Definition is_no_overlap (c : Constraint) : bool :=
  match c with CtNoOverlap _ => true | _ => false end.

Definition is_precedence (c : Constraint) : bool :=
  match c with CtGe _ _ => true | _ => false end.

Definition is_max_equality (c : Constraint) : bool :=
  match c with CtMaxEquality _ _ => true | _ => false end.

Fixpoint count (kind : Constraint → bool) (cs : list Constraint) : nat :=
  match cs with
  | [] => 0
  | c :: rest => (if kind c then 1 else 0) + count kind rest
  end.

End beyond.

(** ** [rhyme-helper/main.py]: [generate_rhyming_scheme] *)

Module rhyme_helper.

Definition newline : string := String "010"%char EmptyString.

Section generate.

(** [pronouncing.rhymes]: the look-up in the pronouncing dictionary, a
    library outside the repository. *)
Variable rhymes : string → list string.

Definition generate_rhyming_scheme (word : string) (num_rhymes : Z) : string :=
  let found := rhymes word in
  match found with
  | [] => "No rhymes found for the word '" +:+ word +:+ "'."
  | _ =>
      let found := Py.slice_to found num_rhymes in
      fold_left
        (λ scheme (it : Z * string),
           scheme +:+ (Py.str it.1 +:+ ": " +:+ it.2 +:+ newline))
        (Py.enumerate 1 found) ""
  end.

(** The default of the second parameter. *)
Definition generate_rhyming_scheme_default (word : string) : string :=
  generate_rhyming_scheme word 10.

End generate.

(** The scheme in the words of its description: one line for each rhyme
    that is kept, numbered from 1, in the order of the look-up. *)
Definition scheme_line (i : nat) (rhyme : string) : string :=
  Py.str (Z.of_nat i + 1) +:+ ": " +:+ rhyme +:+ newline.

Definition scheme_lines (found : list string) (num_rhymes : Z) : list string :=
  imap scheme_line (take (Nat.min (Z.to_nat num_rhymes) (length found)) found).

Definition join (lines : list string) : string := foldr String.append "" lines.

End rhyme_helper.

(** ** [rhyme-helper/main.py]: the main program loop *)

Module rhyme_main.
Import rhyme_helper.

(** What the program writes to the standard output, call by call:
    [print(s)] writes [s] and a newline, [input(prompt)] writes the
    prompt. *)
Definition print (s : string) : string := s +:+ newline.

Definition prompt : string := "Enter a word or command: ".

Definition banner : list string :=
  [ print "Rhyming Scheme Generator";
    print "Type 'exit' or 'quit' to stop the program.";
    print ("Type 'set num_rhymes [number]' to adjust the number of rhymes displayed."
           +:+ newline) ].

Definition invalid_command : string :=
  print ("Invalid command. Usage: set num_rhymes [number]" +:+ newline).

(** How one turn of the loop ends: with [break], or with the value of
    [num_rhymes] for the next turn. *)
Inductive Turn : Type :=
| Break (written : list string)
| Next (num_rhymes : Z) (written : list string).

(** How the program ends: after [break], or with the [EOFError] that
    [input] raises once the input is used up. *)
Inductive Ending : Type := Exited | EOFError.

Section main.

(** The library functions: [pronouncing.rhymes], [str.strip] followed by
    [str.lower], [str.split] without argument, and [int] on a string,
    with [None] for its [ValueError]. *)
Variable rhymes : string → list string.
Variable strip_lower : string → string.
Variable split : string → list string.
Variable int : string → option Z.

(** The [try] block of the command [set num_rhymes]: unpacking into three
    names raises [ValueError] unless there are three words; the new value
    is assigned before it is compared with 1. *)
Definition set_num_rhymes (user_input : string) (num_rhymes : Z) : Turn :=
  match split user_input with
  | [_; _; new_value] =>
      match int new_value with
      | Some n =>
          let num_rhymes := n in
          if num_rhymes <? 1
          then Next num_rhymes
                 [print ("Please enter a positive number for num_rhymes."
                         +:+ newline)]
          else Next num_rhymes
                 [print ("Number of rhymes set to " +:+ Py.str num_rhymes
                         +:+ "." +:+ newline)]
      | None => Next num_rhymes [invalid_command]
      end
  | _ => Next num_rhymes [invalid_command]
  end.

(** The body of [while True], once [input] has returned [line]. *)
Definition loop_body (num_rhymes : Z) (line : string) : Turn :=
  let user_input := strip_lower line in
  if bool_decide (user_input ∈ ["exit"; "quit"]) then Break [print "Goodbye!"]
  else if String.prefix "set num_rhymes" user_input
  then set_num_rhymes user_input num_rhymes
  else Next num_rhymes
         [ print (newline +:+ "Rhyming Scheme:");
           print (generate_rhyming_scheme rhymes user_input num_rhymes);
           print "" ].

(** The loop on the lines that the standard input holds. *)
Fixpoint loop (num_rhymes : Z) (lines : list string)
  : list string * Ending :=
  match lines with
  | [] => ([prompt], EOFError)
  | line :: rest =>
      match loop_body num_rhymes line with
      | Break written => (prompt :: written, Exited)
      | Next num_rhymes written =>
          let '(later, ending) := loop num_rhymes rest in
          (prompt :: written ++ later, ending)
      end
  end.

(** The program: the banner, then the loop with the default of 10. *)
Definition main (lines : list string) : list string * Ending :=
  let '(written, ending) := loop 10 lines in (banner ++ written, ending).

End main.

End rhyme_main.

(** ** The float of an integer *)

Section float_facts.
Import Py.

(** Integers up to 2^53 are floats. *)
Lemma float_small (n : Z) : Z.abs n ≤ 2 ^ 53 → float n = n.
Proof.
  intros Hn. unfold float.
  destruct (Z.eq_dec (Z.abs n) (2 ^ 53)) as [Heq|Hne].
  - rewrite Heq.
    replace (Z.log2 (2 ^ 53) - 52 <=? 0) with false by reflexivity.
    replace (round_even (2 ^ 53) (2 ^ (Z.log2 (2 ^ 53) - 52))) with (2 ^ 53)
      by reflexivity.
    rewrite <- Heq. by destruct n.
  - destruct (Z.eq_dec (Z.abs n) 0) as [H0|H0].
    + by rewrite H0.
    + assert (Z.log2 (Z.abs n) < 53) as Hlog.
      { apply Z.log2_lt_pow2; lia. }
      by rewrite (proj2 (Z.leb_le _ _)) by lia.
Qed.

Lemma round_even_bounds (a u : Z) :
  0 < u → a / u * u ≤ round_even a u ≤ (a / u + 1) * u.
Proof.
  intros Hu. unfold round_even.
  destruct ((u <? 2 * (a mod u)) || ((2 * (a mod u) =? u) && Z.odd (a / u)));
    nia.
Qed.

(** Rounding to a multiple of [u] keeps the order. *)
Lemma round_even_mono (a b u : Z) :
  0 < u → a ≤ b → round_even a u ≤ round_even b u.
Proof.
  intros Hu Hab. unfold round_even.
  pose proof (Z.div_mod a u ltac:(lia)) as Ha.
  pose proof (Z.div_mod b u ltac:(lia)) as Hb.
  pose proof (Z.mod_pos_bound a u Hu) as Hra.
  pose proof (Z.mod_pos_bound b u Hu) as Hrb.
  set (qa := a / u) in *. set (ra := a mod u) in *.
  set (qb := b / u) in *. set (rb := b mod u) in *.
  assert (qa < qb ∨ qa = qb) as [Hq|Hq] by nia.
  - destruct ((u <? 2 * ra) || ((2 * ra =? u) && Z.odd qa));
      destruct ((u <? 2 * rb) || ((2 * rb =? u) && Z.odd qb)); nia.
  - rewrite <- Hq in *. assert (ra ≤ rb) as Hr by nia.
    destruct (Z.ltb_spec u (2 * ra)); destruct (Z.ltb_spec u (2 * rb));
      destruct (Z.eqb_spec (2 * ra) u); destruct (Z.eqb_spec (2 * rb) u);
      destruct (Z.odd qa); cbn [orb andb]; nia.
Qed.

(** The float of a positive integer with more than 53 bits: the place of
    its last bit, and the bounds that follow. *)
Lemma float_large (n : Z) :
  0 < n → 0 < Z.log2 n - 52 →
  float n = round_even n (2 ^ (Z.log2 n - 52))
  ∧ 2 ^ 52 * 2 ^ (Z.log2 n - 52) ≤ float n ≤ 2 ^ 53 * 2 ^ (Z.log2 n - 52).
Proof.
  intros Hn He. unfold float. rewrite Z.abs_eq by lia.
  rewrite (proj2 (Z.leb_gt _ _)) by lia.
  rewrite Z.sgn_pos by done. rewrite Z.mul_1_l. split; [done|].
  set (e := Z.log2 n - 52) in *.
  assert (0 < 2 ^ e) as Hu by (apply Z.pow_pos_nonneg; lia).
  destruct (Z.log2_spec n Hn) as [Hlo Hhi].
  replace (Z.log2 n) with (52 + e) in Hlo by lia.
  replace (Z.succ (Z.log2 n)) with (53 + e) in Hhi by lia.
  rewrite Z.pow_add_r in Hlo, Hhi by lia.
  pose proof (round_even_bounds n (2 ^ e) Hu) as [Hr1 Hr2].
  assert (2 ^ 52 ≤ n / 2 ^ e) as Hq1.
  { apply Z.div_le_lower_bound; lia. }
  assert (n / 2 ^ e < 2 ^ 53) as Hq2.
  { apply Z.div_lt_upper_bound; lia. }
  nia.
Qed.

(** The float of an integer keeps the order. *)
Lemma float_mono (x y : Z) : 0 ≤ x ≤ y → float x ≤ float y.
Proof.
  intros [Hx Hxy].
  destruct (Z.eq_dec x 0) as [->|Hx0].
  { replace (float 0) with 0 by reflexivity.
    destruct (Z.eq_dec y 0) as [->|Hy0]; [done|].
    destruct (Z_le_gt_dec (Z.log2 y - 52) 0) as [Hey|Hey].
    - unfold float. rewrite (proj2 (Z.leb_le _ _)); [lia|].
      by rewrite Z.abs_eq by lia.
    - destruct (float_large y ltac:(lia) ltac:(lia)) as [_ [Hlo _]].
      assert (0 < 2 ^ (Z.log2 y - 52)) by (apply Z.pow_pos_nonneg; lia).
      nia. }
  assert (Z.log2 x ≤ Z.log2 y) as Hlog by (apply Z.log2_le_mono; lia).
  destruct (Z_le_gt_dec (Z.log2 y - 52) 0) as [Hey|Hey].
  - unfold float. rewrite !Z.abs_eq by lia.
    by rewrite !(proj2 (Z.leb_le _ _)) by lia.
  - destruct (float_large y ltac:(lia) ltac:(lia)) as [Hfy [Hylo Hyhi]].
    assert (0 < 2 ^ (Z.log2 y - 52)) as Huy by (apply Z.pow_pos_nonneg; lia).
    destruct (Z_le_gt_dec (Z.log2 x - 52) 0) as [Hex|Hex].
    + assert (float x = x) as ->.
      { unfold float. rewrite Z.abs_eq by lia.
        by rewrite (proj2 (Z.leb_le _ _)) by lia. }
      assert (x < 2 ^ 53) as Hx53.
      { apply Z.log2_lt_pow2; lia. }
      assert (2 ≤ 2 ^ (Z.log2 y - 52)).
      { replace 2 with (2 ^ 1) at 1 by reflexivity.
        apply Z.pow_le_mono_r; lia. }
      nia.
    + destruct (float_large x ltac:(lia) ltac:(lia)) as [Hfx [Hxlo Hxhi]].
      destruct (Z.eq_dec (Z.log2 x) (Z.log2 y)) as [Heq|Hneq].
      * rewrite Hfx, Hfy, Heq. by apply round_even_mono.
      * assert (2 * 2 ^ (Z.log2 x - 52) ≤ 2 ^ (Z.log2 y - 52)) as Hpow.
        { replace (2 * 2 ^ (Z.log2 x - 52)) with (2 ^ (1 + (Z.log2 x - 52)))
            by (rewrite Z.pow_add_r by lia; reflexivity).
          apply Z.pow_le_mono_r; lia. }
        replace (2 ^ 53) with (2 ^ 52 * 2) in Hxhi by reflexivity. nia.
Qed.

Lemma float_nonneg (x : Z) : 0 ≤ x → 0 ≤ float x.
Proof. intros Hx. apply (float_mono 0 x). lia. Qed.

End float_facts.

Section for_each_facts.
Import Py.
Context {A S : Type}.
Implicit Types (xs : list A) (s : S).

Lemma for_each_pure xs (f : A → S → S) s :
  for_each xs (λ x s, Ok (f x s)) s = Ok (fold_left (λ s x, f x s) xs s).
Proof. revert s. induction xs as [|x xs IH]; intros s; simpl; [done | apply IH]. Qed.

End for_each_facts.

Section jobs_loop.
Import Py jssp layout.
Context {St : Type}.

Lemma for_each_jobs_from (pre suf : list Job) (body : nat → Job → St → result St) s :
  for_each (seq (length pre) (length suf))
    (λ job_id s, job ← index (pre ++ suf) job_id; body job_id job s) s
  = for_jobs (length pre) suf body s.
Proof.
  revert pre s. induction suf as [|job suf IH]; intros pre s; simpl; [done|].
  unfold index at 1. rewrite list_lookup_middle by done. simpl.
  destruct (body (length pre) job s) as [s'|e]; [|done].
  specialize (IH (pre ++ [job]) s').
  rewrite length_app, Nat.add_1_r, <- app_assoc in IH. apply IH.
Qed.

Lemma for_each_all_jobs (jobs : list Job) (body : nat → Job → St → result St) s :
  for_each (all_jobs jobs)
    (λ job_id s, job ← index jobs job_id; body job_id job s) s
  = for_jobs 0 jobs body s.
Proof. apply (for_each_jobs_from [] jobs). Qed.
End jobs_loop.

Section creation.
Import Py cp_model jssp layout.

Lemma create_task_op jobs j k m d s :
  int64 (horizon jobs) = true → int64 d = true →
  create_task jobs j (k, (m, d)) s
  = Ok (create_op (horizon jobs) s (MkOp j k m d)).
Proof.
  intros HH Hd. unfold create_task, create_op, NewIntVar, NewIntervalVar.
  rewrite HH, Hd. simpl.
  rewrite length_app, Nat.add_1_r, <- app_assoc. reflexivity.
Qed.

(** A horizon that is not a 64-bit integer stops the creation of the
    first variable. *)
Lemma create_task_type_error jobs j it s :
  int64 (horizon jobs) = false → create_task jobs j it s = Raise TypeError.
Proof.
  intros HH. destruct it as [k [m d]]. unfold create_task, NewIntVar.
  by rewrite HH, andb_false_r.
Qed.

Lemma create_job_ops jobs j (job : Job) k s :
  int64 (horizon jobs) = true →
  Forall (λ task : Task, int64 task.2 = true) job →
  for_each (enumerate k job) (create_task jobs j) s
  = Ok (fold_left (create_op (horizon jobs)) (job_ops j k job) s).
Proof.
  intros HH Hjob. revert k s.
  induction Hjob as [|[m d] job Hd _ IH]; intros k s; [done|].
  cbn [enumerate for_each job_ops fold_left].
  rewrite create_task_op by done. apply IH.
Qed.

Lemma create_jobs_ops jobs j suf s :
  int64 (horizon jobs) = true →
  Forall (Forall (λ task : Task, int64 task.2 = true)) suf →
  for_jobs j suf
    (λ job_id job s, for_each (enumerate 0 job) (create_task jobs job_id) s) s
  = Ok (fold_left (create_op (horizon jobs)) (jobs_ops j suf) s).
Proof.
  intros HH Hsuf. revert j s.
  induction Hsuf as [|job suf Hjob _ IH]; intros j s; simpl; [done|].
  rewrite create_job_ops by done. rewrite fold_left_app. apply IH.
Qed.

Lemma create_variables_ops jobs s :
  fits_int64 jobs →
  create_variables jobs s
  = Ok (fold_left (create_op (horizon jobs)) (ops jobs) s).
Proof.
  intros [HH Hd]. unfold create_variables. rewrite for_each_all_jobs.
  by apply create_jobs_ops.
Qed.

Lemma create_jobs_type_error jobs j suf s :
  int64 (horizon jobs) = false → jobs_ops j suf ≠ [] →
  for_jobs j suf
    (λ job_id job s, for_each (enumerate 0 job) (create_task jobs job_id) s) s
  = Raise TypeError.
Proof.
  intros HH. revert j s.
  induction suf as [|job suf IH]; intros j s Hops; [done|].
  cbn [for_jobs]. destruct job as [|t job].
  - cbn [enumerate for_each]. apply IH. by cbn [jobs_ops job_ops app] in Hops.
  - cbn [enumerate for_each]. by rewrite create_task_type_error.
Qed.

Lemma op_interval_eq (p : nat) op :
  MkInterval (2 * p)%nat (op_duration op) (S (2 * p)) ("interval" +:+ op_suffix op)
  = op_interval p op.
Proof. unfold op_interval, start_of, end_of. f_equal. lia. Qed.

Lemma ops_protos_length H P : length (ops_protos H P) = (2 * length P)%nat.
Proof. induction P as [|op P IH]; simpl; [done | rewrite IH; lia]. Qed.

Lemma create_ops_model H P s p :
  length (variables (model s)) = (2 * p)%nat →
  model (fold_left (create_op H) P s)
  = MkModel (variables (model s) ++ ops_protos H P)
      (constraints (model s) ++ ops_intervals p P)
      (objective (model s)).
Proof.
  revert s p. induction P as [|op P IH]; intros s p Hlen; simpl.
  - rewrite !app_nil_r. by destruct (model s).
  - rewrite (IH _ (S p)); simpl.
    + rewrite <- !app_assoc. simpl. by rewrite Hlen, op_interval_eq.
    + rewrite length_app. simpl. lia.
Qed.

Lemma create_ops_tasks H P s p :
  length (variables (model s)) = (2 * p)%nat →
  all_tasks (fold_left (create_op H) P s) = ops_tasks p P (all_tasks s).
Proof.
  revert s p. induction P as [|op P IH]; intros s p Hlen; simpl; [done|].
  rewrite (IH _ (S p)); simpl.
  - rewrite Hlen, op_interval_eq. unfold op_vars, start_of, end_of.
    by rewrite Nat.add_1_r.
  - rewrite length_app. simpl. lia.
Qed.

Lemma create_ops_machines H P s p machine :
  length (variables (model s)) = (2 * p)%nat →
  machine_to_intervals (fold_left (create_op H) P s) !!! machine
  = (machine_to_intervals s !!! machine) ++ ops_on machine p P.
Proof.
  revert s p. induction P as [|op P IH]; intros s p Hlen; simpl.
  - by rewrite app_nil_r.
  - rewrite (IH _ (S p)); simpl.
    + case_bool_decide as Hm.
      * subst machine. rewrite lookup_total_insert_eq, <- app_assoc. simpl.
        by rewrite Hlen, op_interval_eq.
      * by rewrite lookup_total_insert_ne.
    + rewrite length_app. simpl. lia.
Qed.

End creation.

Section positions.
Import Py cp_model jssp layout.

Lemma job_ops_length j k job : length (job_ops j k job) = length job.
Proof.
  revert k. induction job as [|[m d] job IH]; intros k; simpl; [done|].
  by rewrite IH.
Qed.

Lemma job_ops_lookup j k0 job i op :
  job_ops j k0 job !! i = Some op
  ↔ ∃ m d, job !! i = Some (m, d) ∧ op = MkOp j (k0 + Z.of_nat i) m d.
Proof.
  revert k0 i. induction job as [|[m d] job IH]; intros k0 i; simpl.
  - split; [done | by intros (? & ? & ? & ?)].
  - destruct i as [|i]; simpl.
    + rewrite Z.add_0_r. split.
      * intros [= <-]. eauto.
      * by intros (? & ? & [= <- <-] & ->).
    + rewrite IH. replace (k0 + 1 + Z.of_nat i) with (k0 + Z.of_nat (S i)) by lia.
      done.
Qed.

Lemma offset_0 jobs : offset jobs 0 = 0%nat.
Proof. done. Qed.

Lemma offset_S job jobs j :
  offset (job :: jobs) (S j) = (length job + offset jobs j)%nat.
Proof. unfold offset. simpl. by rewrite length_app. Qed.

Lemma jobs_ops_length j jobs :
  length (jobs_ops j jobs) = offset jobs (length jobs).
Proof.
  revert j. induction jobs as [|job jobs IH]; intros j; simpl; [done|].
  by rewrite length_app, job_ops_length, offset_S, IH.
Qed.

Lemma ops_length jobs : length (ops jobs) = offset jobs (length jobs).
Proof. apply jobs_ops_length. Qed.

Lemma jobs_ops_lookup j0 jobs p op :
  jobs_ops j0 jobs !! p = Some op
  ↔ ∃ j k m d, task_at jobs j k = Some (m, d)
               ∧ p = (offset jobs j + k)%nat
               ∧ op = MkOp (j0 + j) (Z.of_nat k) m d.
Proof.
  revert j0 p. induction jobs as [|job jobs IH]; intros j0 p; simpl.
  - split; [done|]. by intros (j & k & m & d & Ht & _).
  - destruct (decide (p < length job)%nat) as [Hp|Hp].
    + rewrite lookup_app_l by by rewrite job_ops_length.
      rewrite job_ops_lookup. split.
      * intros (m & d & Hj & ->). exists 0%nat, p, m, d.
        rewrite Nat.add_0_r. by rewrite offset_0.
      * intros (j & k & m & d & Ht & -> & ->).
        destruct j as [|j].
        -- rewrite Nat.add_0_r. rewrite offset_0 in *. simpl in *. eauto.
        -- rewrite offset_S in Hp. lia.
    + rewrite lookup_app_r by (rewrite job_ops_length; lia).
      rewrite job_ops_length, IH. split.
      * intros (j & k & m & d & Ht & Hpos & ->).
        exists (S j), k, m, d. rewrite offset_S.
        split; [done|]. split; [lia|]. f_equal. lia.
      * intros (j & k & m & d & Ht & -> & ->).
        destruct j as [|j].
        -- rewrite offset_0 in Hp. simpl in Ht.
           apply lookup_lt_Some in Ht. lia.
        -- exists j, k, m, d. rewrite offset_S.
           split; [done|]. split; [lia|]. f_equal. lia.
Qed.

Lemma ops_lookup jobs p op :
  ops jobs !! p = Some op
  ↔ ∃ j k m d, task_at jobs j k = Some (m, d)
               ∧ p = (offset jobs j + k)%nat
               ∧ op = MkOp j (Z.of_nat k) m d.
Proof. apply (jobs_ops_lookup 0). Qed.

Lemma ops_lookup_task jobs j k m d :
  task_at jobs j k = Some (m, d) →
  ops jobs !! (offset jobs j + k)%nat = Some (MkOp j (Z.of_nat k) m d).
Proof. intros Ht. apply ops_lookup. by exists j, k, m, d. Qed.

Lemma ops_key_inj jobs p q op op' :
  ops jobs !! p = Some op → ops jobs !! q = Some op' →
  op_key op = op_key op' → p = q.
Proof.
  intros (j & k & m & d & _ & -> & ->)%ops_lookup
         (j' & k' & m' & d' & _ & -> & ->)%ops_lookup [= -> Hk].
  f_equal. lia.
Qed.

Lemma ops_keys_NoDup jobs : NoDup (op_key <$> ops jobs).
Proof.
  apply NoDup_alt. intros p q key.
  rewrite !list_lookup_fmap.
  destruct (ops jobs !! p) as [op|] eqn:Hp; [|done].
  destruct (ops jobs !! q) as [op'|] eqn:Hq; [|done].
  simpl. intros [= <-] Hkey. apply (ops_key_inj jobs p q op op'); congruence.
Qed.

Lemma ops_tasks_notin p P acc key :
  key ∉ op_key <$> P → ops_tasks p P acc !! key = acc !! key.
Proof.
  revert p acc. induction P as [|op P IH]; intros p acc Hkey; simpl; [done|].
  rewrite fmap_cons, not_elem_of_cons in Hkey. destruct Hkey as [Hne Hkey].
  rewrite IH by done. by rewrite lookup_insert_ne.
Qed.

Lemma ops_tasks_lookup p P acc i op :
  NoDup (op_key <$> P) → P !! i = Some op →
  ops_tasks p P acc !! op_key op = Some (op_vars (p + i) op).
Proof.
  revert p acc i. induction P as [|op0 P IH]; intros p acc i Hnd Hi; [done|].
  rewrite fmap_cons, NoDup_cons in Hnd. destruct Hnd as [Hnotin Hnd].
  destruct i as [|i]; simpl in *.
  - injection Hi as ->. rewrite ops_tasks_notin by done.
    by rewrite lookup_insert_eq, Nat.add_0_r.
  - rewrite (IH (S p) _ i) by done. do 2 f_equal. lia.
Qed.

Lemma ops_tasks_inv p P key t :
  NoDup (op_key <$> P) → ops_tasks p P ∅ !! key = Some t →
  ∃ i op, P !! i = Some op ∧ key = op_key op ∧ t = op_vars (p + i) op.
Proof.
  intros Hnd Ht. destruct (decide (key ∈ op_key <$> P)) as [Hin|Hout].
  - apply list_elem_of_fmap in Hin as (op & -> & Hop).
    apply list_elem_of_lookup in Hop as (i & Hi).
    rewrite (ops_tasks_lookup p P ∅ i op) in Ht by done.
    injection Ht as <-. eauto.
  - by rewrite ops_tasks_notin in Ht.
Qed.

End positions.

Section constraints_phase.
Import Py cp_model jssp layout.

Lemma tasks_lookup jobs j k m d :
  task_at jobs j k = Some (m, d) →
  tasks_of jobs !! (j, Z.of_nat k)
  = Some (op_vars (offset jobs j + k) (MkOp j (Z.of_nat k) m d)).
Proof.
  intros Ht%ops_lookup_task.
  apply (ops_tasks_lookup 0 (ops jobs) ∅ _ _ (ops_keys_NoDup jobs) Ht).
Qed.

Lemma tasks_lookup_inv jobs j k t :
  tasks_of jobs !! (j, k) = Some t →
  ∃ k' m d, k = Z.of_nat k' ∧ task_at jobs j k' = Some (m, d)
            ∧ t = op_vars (offset jobs j + k') (MkOp j k m d).
Proof.
  intros (i & op & Hi & Hkey & ->)%ops_tasks_inv; [|apply ops_keys_NoDup].
  apply ops_lookup in Hi as (j' & k' & m & d & Ht & -> & ->).
  injection Hkey as -> ->. exists k', m, d. done.
Qed.

Lemma tasks_lookup_neg jobs j k : k < 0 → tasks_of jobs !! (j, k) = None.
Proof.
  intros Hk. destruct (tasks_of jobs !! (j, k)) as [t|] eqn:Ht; [|done].
  apply tasks_lookup_inv in Ht as (k' & ? & ? & -> & _). lia.
Qed.

Lemma offset_snoc pre job suf :
  offset (pre ++ job :: suf) (S (length pre))
  = (offset (pre ++ job :: suf) (length pre) + length job)%nat.
Proof.
  unfold offset. rewrite take_app_length.
  rewrite (cons_middle job pre suf), app_assoc.
  rewrite take_app_length' by (rewrite length_app; simpl; lia).
  rewrite concat_app, length_app. simpl. by rewrite app_nil_r.
Qed.

Lemma no_overlap_fold L s :
  let s' := fold_left (λ s machine, add_no_overlap_on machine s) L s in
  model s'
  = MkModel (variables (model s))
      (constraints (model s)
         ++ ((λ machine, CtNoOverlap (machine_to_intervals s !!! machine)) <$> L))
      (objective (model s))
  ∧ all_tasks s' = all_tasks s
  ∧ ∀ machine, machine_to_intervals s' !!! machine
               = machine_to_intervals s !!! machine.
Proof.
  revert s. induction L as [|a L IH]; intros s; simpl.
  - rewrite app_nil_r. by destruct (model s).
  - destruct (IH (add_no_overlap_on a s)) as (Hm & Ht & Hi).
    assert (Hsame : ∀ machine,
               machine_to_intervals (add_no_overlap_on a s) !!! machine
               = machine_to_intervals s !!! machine).
    { intros machine. simpl. destruct (decide (a = machine)) as [->|Hne].
      - by rewrite lookup_total_insert_eq.
      - by rewrite lookup_total_insert_ne. }
    split; [|split].
    + rewrite Hm. simpl. rewrite <- app_assoc. simpl. do 3 f_equal.
      apply list_fmap_ext. intros _ machine _. by rewrite Hsame.
    + by rewrite Ht.
    + intros machine. by rewrite Hi, Hsame.
Qed.

Lemma add_precedence_ok j k s (t t' : TaskVars) :
  all_tasks s !! (j, k) = Some t → all_tasks s !! (j, k + 1) = Some t' →
  add_precedence j k s
  = Ok (MkState (Add_ge t'.1.1 t.1.2 (model s))
          (all_tasks s) (machine_to_intervals s)).
Proof.
  intros Ht Ht'. unfold add_precedence, get_task.
  rewrite Ht. simpl. by rewrite Ht'.
Qed.

Lemma precedence_loop j o n a s :
  (∀ k, (0 < n)%nat → (a ≤ k ≤ a + n)%nat →
        ∃ iv, all_tasks s !! (j, Z.of_nat k)
              = Some (start_of (o + k), end_of (o + k), iv)) →
  for_each (Z.of_nat <$> seq a n) (add_precedence j) s
  = Ok (MkState
          (MkModel (variables (model s))
             (constraints (model s)
                ++ ((λ k, CtGe (start_of (o + k + 1)) (end_of (o + k)))
                      <$> seq a n))
             (objective (model s)))
          (all_tasks s) (machine_to_intervals s)).
Proof.
  revert a s. induction n as [|n IH]; intros a s Hk; simpl.
  - rewrite app_nil_r. by destruct s as [[] ? ?].
  - destruct (Hk a ltac:(lia) ltac:(lia)) as [iv Hiv].
    destruct (Hk (S a) ltac:(lia) ltac:(lia)) as [iv' Hiv'].
    replace (Z.of_nat (S a)) with (Z.of_nat a + 1) in Hiv' by lia.
    rewrite (add_precedence_ok _ _ _ _ _ Hiv Hiv').
    rewrite IH; simpl.
    + rewrite <- app_assoc. simpl. unfold Add_ge.
      replace (S a) with (a + 1)%nat at 1 by lia. by rewrite Nat.add_assoc.
    + intros k Hpos Hrange. apply Hk; lia.
Qed.

Lemma precedences_from jobs pre suf s :
  jobs = pre ++ suf → all_tasks s = tasks_of jobs →
  for_jobs (length pre) suf
    (λ job_id job s, for_each (range (len job - 1)) (add_precedence job_id) s) s
  = Ok (MkState
          (MkModel (variables (model s))
             (constraints (model s)
                ++ prec_from (offset jobs (length pre)) suf)
             (objective (model s)))
          (all_tasks s) (machine_to_intervals s)).
Proof.
  revert pre s. induction suf as [|job suf IH]; intros pre s Hjobs Htasks; simpl.
  - rewrite app_nil_r. by destruct s as [[] ? ?].
  - unfold range, len.
    replace (Z.to_nat (Z.of_nat (length job) - 1)) with (length job - 1)%nat by lia.
    rewrite (precedence_loop _ (offset jobs (length pre))).
    + specialize (IH (pre ++ [job])). rewrite length_app, Nat.add_1_r in IH.
      rewrite IH; simpl.
      * subst jobs. rewrite offset_snoc, <- app_assoc. done.
      * by rewrite <- app_assoc.
      * done.
    + intros k Hpos Hk. rewrite Htasks.
      assert (is_Some (job !! k)) as [[m d] Hjk].
      { apply lookup_lt_is_Some. lia. }
      erewrite tasks_lookup; [eauto|].
      unfold task_at. subst jobs. rewrite list_lookup_middle by done. done.
Qed.

Lemma lasts_from_ok jobs pre suf acc :
  jobs = pre ++ suf → Forall (λ job : Job, job ≠ []) suf →
  for_jobs (length pre) suf
    (λ job_id job last_task_end_times,
       t ← get_task (tasks_of jobs) job_id (len job - 1);
       Ok (last_task_end_times ++ [t.1.2])) acc
  = Ok (acc ++ lasts_from (offset jobs (length pre)) suf).
Proof.
  revert pre acc. induction suf as [|job suf IH]; intros pre acc Hjobs Hne; simpl.
  - by rewrite app_nil_r.
  - apply Forall_cons in Hne as [Hjob Hne].
    assert (length job ≠ 0)%nat as Hlen by by destruct job.
    assert (is_Some (job !! (length job - 1)%nat)) as [[m d] Hjk].
    { apply lookup_lt_is_Some. lia. }
    unfold get_task, len.
    replace (Z.of_nat (length job) - 1) with (Z.of_nat (length job - 1)) by lia.
    erewrite tasks_lookup; cycle 1.
    { unfold task_at. subst jobs. rewrite list_lookup_middle by done. exact Hjk. }
    simpl. specialize (IH (pre ++ [job])).
    rewrite length_app, Nat.add_1_r in IH. rewrite IH; [| |done].
    + subst jobs. rewrite offset_snoc, <- app_assoc. simpl.
      set (o := offset _ _).
      by replace (o + (length job - 1))%nat with (o + length job - 1)%nat by lia.
    + by rewrite <- app_assoc.
Qed.

Lemma lasts_from_fail jobs pre suf acc :
  jobs = pre ++ suf → Exists (λ job : Job, job = []) suf →
  ∃ job_id,
    jobs !! job_id = Some [] ∧
    for_jobs (length pre) suf
      (λ job_id job last_task_end_times,
         t ← get_task (tasks_of jobs) job_id (len job - 1);
         Ok (last_task_end_times ++ [t.1.2])) acc
    = Raise (KeyError job_id (-1)).
Proof.
  revert pre acc. induction suf as [|job suf IH]; intros pre acc Hjobs Hex.
  - by apply Exists_nil in Hex.
  - simpl. destruct job as [|task job].
    + exists (length pre). split.
      * subst jobs. by rewrite list_lookup_middle.
      * unfold get_task. simpl. by rewrite tasks_lookup_neg.
    + apply Exists_cons in Hex as [?|Hex]; [done|].
      set (jb := task :: job) in *.
      assert (is_Some (jb !! (length jb - 1)%nat)) as [[m d] Hjk].
      { apply lookup_lt_is_Some. simpl. lia. }
      unfold get_task, len.
      replace (Z.of_nat (length jb) - 1) with (Z.of_nat (length jb - 1))
        by (simpl; lia).
      erewrite tasks_lookup; cycle 1.
      { unfold task_at. subst jobs. rewrite list_lookup_middle by done. exact Hjk. }
      simpl. specialize (IH (pre ++ [jb])).
      rewrite length_app, Nat.add_1_r in IH. apply IH; [|done].
      by rewrite <- app_assoc.
Qed.

End constraints_phase.

Section build.
Import Py cp_model jssp layout.

Lemma collect_last_for_jobs jobs T :
  collect_last_task_end_times jobs T
  = for_jobs 0 jobs
      (λ job_id job last_task_end_times,
         t ← get_task T job_id (len job - 1);
         Ok (last_task_end_times ++ [t.1.2])) [].
Proof.
  unfold collect_last_task_end_times.
  apply (for_each_all_jobs jobs
           (λ job_id job last_task_end_times,
              t ← get_task T job_id (len job - 1);
              Ok (last_task_end_times ++ [t.1.2]))).
Qed.

Lemma ops_nil_horizon jobs : ops jobs = [] → horizon jobs = 0.
Proof.
  unfold ops, horizon. generalize 0%nat.
  induction jobs as [|job jobs IH]; intros j Hops; [done|].
  cbn [jobs_ops] in Hops. apply app_eq_nil in Hops as [Hjob Hops].
  destruct job as [|[m d] job]; [|done].
  rewrite bind_cons. cbn [fmap list_fmap app]. by apply (IH (S j)).
Qed.

(** A horizon that is not a 64-bit integer: the first variable cannot be
    created. *)
Lemma create_variables_type_error jobs s :
  int64 (horizon jobs) = false → create_variables jobs s = Raise TypeError.
Proof.
  intros HH. unfold create_variables. rewrite for_each_all_jobs.
  apply create_jobs_type_error; [done|]. intros Hops.
  apply ops_nil_horizon in Hops. by rewrite Hops in HH.
Qed.

(** A duration that is not a 64-bit integer: its interval cannot be
    created. *)
Lemma create_job_size_error jobs j (job : Job) k s :
  int64 (horizon jobs) = true →
  Exists (λ task : Task, int64 task.2 = false) job →
  for_each (enumerate k job) (create_task jobs j) s = Raise SizeError.
Proof.
  intros HH Hex. revert k s.
  induction job as [|[m d] job IH]; intros k s; [by apply Exists_nil in Hex|].
  cbn [enumerate for_each]. destruct (int64 d) eqn:Hd.
  - rewrite create_task_op by done. apply IH.
    apply Exists_cons in Hex as [Hex|Hex]; [|done]. simpl in Hex. congruence.
  - unfold create_task, NewIntVar, NewIntervalVar. by rewrite HH, Hd.
Qed.

Lemma create_jobs_size_error jobs j suf s :
  int64 (horizon jobs) = true →
  Exists (Exists (λ task : Task, int64 task.2 = false)) suf →
  for_jobs j suf
    (λ job_id job s, for_each (enumerate 0 job) (create_task jobs job_id) s) s
  = Raise SizeError.
Proof.
  intros HH Hex. revert j s.
  induction suf as [|job suf IH]; intros j s; [by apply Exists_nil in Hex|].
  cbn [for_jobs].
  destruct (decide (Forall (λ task : Task, int64 task.2 = true) job))
    as [Hjob|Hjob].
  - rewrite create_job_ops by done. apply IH.
    apply Exists_cons in Hex as [Hex|Hex]; [|done].
    apply Exists_exists in Hex as (t & Ht & Hd).
    eapply Forall_forall in Hjob; [|exact Ht]. congruence.
  - rewrite create_job_size_error; [done|done|].
    apply not_Forall_Exists in Hjob; [|apply _].
    eapply Exists_impl; [exact Hjob|]. intros t Ht. by apply not_true_is_false.
Qed.

Lemma create_variables_unfit jobs s :
  ¬ fits_int64 jobs → ∃ e, create_variables jobs s = Raise e.
Proof.
  intros Hfit. destruct (int64 (horizon jobs)) eqn:HH.
  - exists SizeError. unfold create_variables. rewrite for_each_all_jobs.
    apply create_jobs_size_error; [done|].
    destruct (decide (Forall (Forall (λ task : Task, int64 task.2 = true)) jobs))
      as [Hd|Hd]; [by destruct Hfit|].
    apply not_Forall_Exists in Hd; [|apply _].
    eapply Exists_impl; [exact Hd|]. intros job Hjob.
    apply not_Forall_Exists in Hjob; [|apply _].
    eapply Exists_impl; [exact Hjob|]. intros t Ht. by apply not_true_is_false.
  - exists TypeError. by apply create_variables_type_error.
Qed.

(** The state when step 5 begins. *)
Lemma build_prefix jobs :
  fits_int64 jobs →
  ∃ s, (s ← create_variables jobs init;
        s ← add_no_overlap jobs s;
        add_precedences jobs s) = Ok s
       ∧ all_tasks s = tasks_of jobs
       ∧ model s
         = MkModel (ops_protos (horizon jobs) (ops jobs))
             (ops_intervals 0 (ops jobs)
                ++ ((λ machine, CtNoOverlap (ops_on machine 0 (ops jobs)))
                      <$> all_machines jobs)
                ++ prec_from 0 jobs)
             None.
Proof.
  intros Hfit. rewrite create_variables_ops by done. cbn [mbind result_bind].
  set (sA := fold_left _ _ init).
  assert (HmA := create_ops_model (horizon jobs) (ops jobs) init 0 eq_refl).
  assert (HtA := create_ops_tasks (horizon jobs) (ops jobs) init 0 eq_refl).
  assert (HiA := λ machine,
            create_ops_machines (horizon jobs) (ops jobs) init 0 machine eq_refl).
  fold sA in HmA, HtA, HiA. simpl in HmA, HtA, HiA.
  unfold add_no_overlap. rewrite for_each_pure.
  destruct (no_overlap_fold (all_machines jobs) sA) as (HmB & HtB & _).
  set (sB := fold_left _ _ sA) in *. cbn [mbind result_bind].
  unfold add_precedences. rewrite for_each_all_jobs.
  assert (Hp := precedences_from jobs [] jobs sB eq_refl).
  cbn [length] in Hp. rewrite Hp by by rewrite HtB.
  eexists. split; [done|]. simpl. split; [by rewrite HtB|].
  rewrite HmB, HmA. simpl. rewrite <- app_assoc. do 3 f_equal.
  apply list_fmap_ext. intros _ machine _. by rewrite HiA.
Qed.

Lemma build_model_ok jobs :
  Forall (λ job : Job, job ≠ []) jobs → fits_int64 jobs →
  build_model jobs
  = Ok (MkBuilt (model_of jobs) (tasks_of jobs) (makespan_of jobs)).
Proof.
  intros Hne Hfit. unfold build_model.
  destruct (build_prefix jobs Hfit) as (s & Hs & Ht & Hm).
  destruct (create_variables jobs init) as [sA|]; [|done].
  cbn [mbind result_bind] in *.
  destruct (add_no_overlap jobs sA) as [sB|]; [|done].
  cbn [mbind result_bind] in *. rewrite Hs. unfold NewIntVar.
  rewrite (proj1 Hfit). cbn [int64 andb mbind result_bind].
  rewrite collect_last_for_jobs, Ht.
  assert (Hl := lasts_from_ok jobs [] jobs [] eq_refl Hne).
  cbn [length] in Hl. rewrite Hl. cbn [mbind result_bind]. rewrite Hm. unfold model_of, makespan_of.
  unfold AddMaxEquality, Minimize, add_constraint. simpl.
  by rewrite ops_protos_length, <- !app_assoc.
Qed.

Lemma build_model_fail jobs :
  fits_int64 jobs →
  Exists (λ job : Job, job = []) jobs →
  ∃ job_id, jobs !! job_id = Some []
            ∧ build_model jobs = Raise (KeyError job_id (-1)).
Proof.
  intros Hfit Hex. unfold build_model.
  destruct (build_prefix jobs Hfit) as (s & Hs & Ht & Hm).
  destruct (create_variables jobs init) as [sA|]; [|done].
  cbn [mbind result_bind] in *.
  destruct (add_no_overlap jobs sA) as [sB|]; [|done].
  cbn [mbind result_bind] in *. rewrite Hs. unfold NewIntVar.
  rewrite (proj1 Hfit). cbn [int64 andb mbind result_bind].
  rewrite collect_last_for_jobs, Ht.
  destruct (lasts_from_fail jobs [] jobs [] eq_refl Hex) as (j & Hj & Hl).
  cbn [length] in Hl. rewrite Hl. by exists j.
Qed.

(** The program stops in step 3 when the horizon is not a 64-bit
    integer. *)
Lemma build_model_type_error jobs :
  int64 (horizon jobs) = false → build_model jobs = Raise TypeError.
Proof.
  intros HH. unfold build_model.
  by rewrite (create_variables_type_error jobs init HH).
Qed.

Lemma build_model_unfit jobs :
  ¬ fits_int64 jobs → ∃ e, build_model jobs = Raise e.
Proof.
  intros Hfit. destruct (create_variables_unfit jobs init Hfit) as [e He].
  exists e. unfold build_model. by rewrite He.
Qed.

Lemma fits_int64_dec jobs : fits_int64 jobs ∨ ¬ fits_int64 jobs.
Proof.
  unfold fits_int64.
  destruct (int64 (horizon jobs)); [|right; by intros [? _]].
  destruct (decide (Forall (Forall (λ task : Task, int64 task.2 = true)) jobs));
    [by left | right; by intros [_ ?]].
Qed.

End build.

Section meaning.
Import Py cp_model jssp layout.
Implicit Types (v : Assignment) (P : list Op) (base i : nat).

Lemma in_domains_ops v H P base :
  in_domains v (2 * base)%nat (ops_protos H P ++ [MkIntVar 0 H "makespan"]) = true
  ↔ (∀ i op, P !! i = Some op →
             0 ≤ v (start_of (base + i)) ≤ H ∧ 0 ≤ v (end_of (base + i)) ≤ H)
    ∧ 0 ≤ v (2 * (base + length P))%nat ≤ H.
Proof.
  revert base. induction P as [|op P IH]; intros base.
  - cbn [ops_protos app in_domains var_lb var_ub length].
    rewrite Nat.add_0_r, !andb_true_iff, !Z.leb_le.
    split; [intros [[??] _] | intros [_ [??]]]; [|done].
    split; [|done]. intros i op Hi. by destruct i.
  - cbn [ops_protos app in_domains var_lb var_ub].
    replace (S (S (2 * base))) with (2 * S base)%nat by lia.
    rewrite !andb_true_iff, !Z.leb_le, IH. clear IH.
    replace (S base + length P)%nat with (base + length (op :: P))%nat
      by (simpl; lia).
    split.
    + intros ([H1 H2] & [H3 H4] & Hrest & Hmk). split; [|done].
      intros [|i] op' Hi.
      * rewrite Nat.add_0_r. unfold start_of, end_of.
        by rewrite Nat.add_1_r.
      * replace (base + S i)%nat with (S base + i)%nat by lia. eapply Hrest, Hi.
    + intros [Hall Hmk].
      destruct (Hall 0%nat op eq_refl) as [H1 H2].
      rewrite Nat.add_0_r in H1, H2. unfold start_of, end_of in H1, H2.
      rewrite Nat.add_1_r in H2.
      split; [lia|]. split; [lia|]. split; [|done].
      intros i op' Hi. replace (S base + i)%nat with (base + S i)%nat by lia.
      by apply (Hall (S i) op').
Qed.

Lemma holds_intervals v P base :
  forallb (holds v) (ops_intervals base P) = true
  ↔ ∀ i op, P !! i = Some op →
            v (start_of (base + i)) + op_duration op = v (end_of (base + i)).
Proof.
  revert base. induction P as [|op P IH]; intros base; simpl.
  - split; [by intros _ [|?] ? ? | done].
  - rewrite andb_true_iff, Z.eqb_eq, IH. clear IH. split.
    + intros [H0 Hrest] [|i] op' Hi.
      * injection Hi as <-. by rewrite Nat.add_0_r.
      * replace (base + S i)%nat with (S base + i)%nat by lia. by apply Hrest.
    + intros Hall. split.
      * specialize (Hall 0%nat op eq_refl). by rewrite Nat.add_0_r in Hall.
      * intros i op' Hi. replace (S base + i)%nat with (base + S i)%nat by lia.
        by apply (Hall (S i)).
Qed.

Lemma disjoint_spec v a b :
  disjoint v a b = true
  ↔ v (iv_end a) ≤ v (iv_start b) ∨ v (iv_end b) ≤ v (iv_start a).
Proof. unfold disjoint, before. by rewrite orb_true_iff, !Z.leb_le. Qed.

Lemma forallb_ops_on (f : IntervalVar → bool) machine P base :
  forallb f (ops_on machine base P) = true
  ↔ ∀ i op, P !! i = Some op → op_machine op = machine →
            f (op_interval (base + i) op) = true.
Proof.
  revert base. induction P as [|op P IH]; intros base; simpl.
  - split; [by intros _ [|?] ? ? | done].
  - assert (Hshift : (∀ i op', P !! i = Some op' → op_machine op' = machine →
                               f (op_interval (S base + i) op') = true)
                     ↔ (∀ i op', P !! i = Some op' → op_machine op' = machine →
                                 f (op_interval (base + S i) op') = true)).
    { split; intros Hall i op' Hi Hm; specialize (Hall i op' Hi Hm);
        by replace (base + S i)%nat with (S base + i)%nat in * by lia. }
    case_bool_decide as Hm; simpl.
    + rewrite andb_true_iff, IH, Hshift. split.
      * intros [H0 Hrest] [|i] op' Hi Hm'; simpl in Hi.
        -- injection Hi as <-. by rewrite Nat.add_0_r.
        -- by apply Hrest.
      * intros Hall. split.
        -- specialize (Hall 0%nat op eq_refl Hm). by rewrite Nat.add_0_r in Hall.
        -- intros i op' Hi Hm'. by apply (Hall (S i)).
    + rewrite IH, Hshift. split.
      * intros Hrest [|i] op' Hi Hm'; simpl in Hi.
        -- by injection Hi as <-.
        -- by apply Hrest.
      * intros Hall i op' Hi Hm'. by apply (Hall (S i)).
Qed.

Lemma pairwise_ops_on v machine P base :
  pairwise (disjoint v) (ops_on machine base P) = true
  ↔ ∀ i i' op op',
      (i < i')%nat → P !! i = Some op → P !! i' = Some op' →
      op_machine op = machine → op_machine op' = machine →
      v (end_of (base + i)) ≤ v (start_of (base + i'))
      ∨ v (end_of (base + i')) ≤ v (start_of (base + i)).
Proof.
  revert base. induction P as [|op P IH]; intros base; simpl.
  - split; [by intros _ [|?] ? ? ? ? ? | done].
  - assert (Hshift :
      (∀ i i' op1 op2, (i < i')%nat → P !! i = Some op1 → P !! i' = Some op2 →
         op_machine op1 = machine → op_machine op2 = machine →
         v (end_of (S base + i)) ≤ v (start_of (S base + i'))
         ∨ v (end_of (S base + i')) ≤ v (start_of (S base + i)))
      ↔ (∀ i i' op1 op2, (i < i')%nat → P !! i = Some op1 → P !! i' = Some op2 →
         op_machine op1 = machine → op_machine op2 = machine →
         v (end_of (base + S i)) ≤ v (start_of (base + S i'))
         ∨ v (end_of (base + S i')) ≤ v (start_of (base + S i)))).
    { split; intros Hall i i' op1 op2 Hlt Hi Hi' Hm Hm';
        specialize (Hall i i' op1 op2 Hlt Hi Hi' Hm Hm');
        by replace (base + S i)%nat with (S base + i)%nat in * by lia;
           replace (base + S i')%nat with (S base + i')%nat in * by lia. }
    assert (Hhead :
      forallb (disjoint v (op_interval base op)) (ops_on machine (S base) P) = true
      ↔ ∀ i' op2, P !! i' = Some op2 → op_machine op2 = machine →
          v (end_of base) ≤ v (start_of (base + S i'))
          ∨ v (end_of (base + S i')) ≤ v (start_of base)).
    { rewrite forallb_ops_on.
      split; intros Hall i' op2 Hi' Hm'; specialize (Hall i' op2 Hi' Hm');
        rewrite disjoint_spec in *; simpl in *;
        by replace (base + S i')%nat with (S base + i')%nat in * by lia. }
    case_bool_decide as Hm; simpl.
    + rewrite andb_true_iff, IH, Hshift, Hhead. split.
      * intros [H0 Hrest] i i' op1 op2 Hlt Hi Hi' Hm1 Hm2.
        destruct i' as [|i']; [lia|]. destruct i as [|i]; simpl in *.
        -- rewrite Nat.add_0_r. by apply (H0 i' op2).
        -- apply (Hrest i i' op1 op2); auto with lia.
      * intros Hall. split.
        -- intros i' op2 Hi' Hm2.
           specialize (Hall 0%nat (S i') op op2 ltac:(lia) eq_refl Hi' Hm Hm2).
           by rewrite Nat.add_0_r in Hall.
        -- intros i i' op1 op2 Hlt Hi Hi' Hm1 Hm2.
           apply (Hall (S i) (S i') op1 op2); auto with lia.
    + rewrite IH, Hshift. split.
      * intros Hrest i i' op1 op2 Hlt Hi Hi' Hm1 Hm2.
        destruct i' as [|i']; [lia|]. destruct i as [|i]; simpl in *.
        -- by injection Hi as <-.
        -- apply (Hrest i i' op1 op2); auto with lia.
      * intros Hall i i' op1 op2 Hlt Hi Hi' Hm1 Hm2.
        apply (Hall (S i) (S i') op1 op2); auto with lia.
Qed.

End meaning.

Section meaning_jobs.
Import Py cp_model jssp layout.
Implicit Types (v : Assignment) (jobs suf : list Job).

Lemma forallb_elem_of {A} (f : A → bool) (l : list A) :
  forallb f l = true ↔ ∀ x, x ∈ l → f x = true.
Proof.
  rewrite forallb_forall. by setoid_rewrite list_elem_of_In.
Qed.

Lemma existsb_elem_of {A} (f : A → bool) (l : list A) :
  existsb f l = true ↔ ∃ x, x ∈ l ∧ f x = true.
Proof.
  rewrite existsb_exists. by setoid_rewrite list_elem_of_In.
Qed.

Lemma holds_prec_job v o n :
  forallb (holds v) (prec_job o n) = true
  ↔ ∀ k, (S k < n)%nat → v (end_of (o + k)) ≤ v (start_of (o + k + 1)).
Proof.
  unfold prec_job. rewrite forallb_elem_of. split.
  - intros Hall k Hk.
    specialize (Hall (CtGe (start_of (o + k + 1)) (end_of (o + k)))).
    apply Z.leb_le, Hall, list_elem_of_fmap. exists k. split; [done|].
    apply elem_of_seq. lia.
  - intros Hall c (k & -> & Hk%elem_of_seq)%list_elem_of_fmap.
    apply Z.leb_le, Hall. lia.
Qed.

Lemma holds_prec_from v o suf :
  forallb (holds v) (prec_from o suf) = true
  ↔ ∀ j job k, suf !! j = Some job → (S k < length job)%nat →
      v (end_of (o + offset suf j + k)) ≤ v (start_of (o + offset suf j + k + 1)).
Proof.
  revert o. induction suf as [|job0 suf IH]; intros o; cbn [prec_from].
  - split; [by intros _ [|?] ? ? ? | done].
  - rewrite forallb_app, andb_true_iff, holds_prec_job, IH. clear IH. split.
    + intros [H0 Hrest] [|j] job k Hj Hk; simpl in Hj.
      * injection Hj as <-. rewrite offset_0, Nat.add_0_r. by apply H0.
      * rewrite offset_S, !Nat.add_assoc. by apply (Hrest j job).
    + intros Hall. split.
      * intros k Hk. specialize (Hall 0%nat job0 k eq_refl Hk).
        by rewrite offset_0, Nat.add_0_r in Hall.
      * intros j job k Hj Hk. specialize (Hall (S j) job k Hj Hk).
        by rewrite offset_S, !Nat.add_assoc in Hall.
Qed.

Lemma elem_of_lasts_from o suf x :
  x ∈ lasts_from o suf
  ↔ ∃ j job, suf !! j = Some job ∧ x = end_of (o + offset suf j + length job - 1).
Proof.
  revert o. induction suf as [|job0 suf IH]; intros o; cbn [lasts_from].
  - split; [by intros ?%elem_of_nil | by intros ([|?] & ? & ? & ?)].
  - rewrite elem_of_cons, IH. clear IH. split.
    + intros [->|(j & job & Hj & ->)].
      * exists 0%nat, job0. by rewrite offset_0, Nat.add_0_r.
      * exists (S j), job. by rewrite offset_S, !Nat.add_assoc.
    + intros ([|j] & job & Hj & ->); simpl in Hj.
      * injection Hj as <-. left. by rewrite offset_0, Nat.add_0_r.
      * right. exists j, job. by rewrite offset_S, !Nat.add_assoc.
Qed.

Lemma holds_max_equality v t xs :
  holds v (CtMaxEquality t xs) = true
  ↔ (∀ x, x ∈ xs → v x ≤ v t) ∧ ∃ x, x ∈ xs ∧ v x = v t.
Proof.
  simpl. rewrite andb_true_iff, forallb_elem_of, existsb_elem_of.
  setoid_rewrite Z.leb_le. by setoid_rewrite Z.eqb_eq.
Qed.

Lemma holds_no_overlaps v P L :
  forallb (holds v) ((λ machine, CtNoOverlap (ops_on machine 0 P)) <$> L) = true
  ↔ ∀ machine, machine ∈ L → pairwise (disjoint v) (ops_on machine 0 P) = true.
Proof.
  rewrite forallb_elem_of. split.
  - intros Hall machine Hm.
    apply (Hall (CtNoOverlap (ops_on machine 0 P))), list_elem_of_fmap. eauto.
  - intros Hall c (machine & -> & Hm)%list_elem_of_fmap. by apply Hall.
Qed.

(** The model built for [jobs] means exactly [scheduled jobs]. *)
Lemma feasible_scheduled jobs v :
  feasible (model_of jobs) v = true ↔ scheduled jobs v.
Proof.
  unfold feasible, model_of.
  cbn [variables constraints].
  rewrite andb_true_iff, !forallb_app, !andb_true_iff.
  rewrite (in_domains_ops v (horizon jobs) (ops jobs) 0).
  rewrite holds_intervals, holds_no_overlaps, holds_prec_from.
  cbn [forallb]. rewrite andb_true_r, holds_max_equality.
  setoid_rewrite pairwise_ops_on. setoid_rewrite elem_of_lasts_from.
  cbn [Nat.add]. fold (makespan_of jobs).
  split.
  - intros ([Hb Hmk] & Hd & Hm & Hp & Hub & x & (j & job & Hj & ->) & Heq).
    split; try done.
    + intros p q op op' Hlt Hp' Hq' Heqm Hin.
      apply (Hm (op_machine op) Hin p q op op'); auto.
    + intros j' job' Hj'. apply Hub. eauto.
    + eauto.
  - intros [Hb Hd Hm Hp Hmk Hub (j & job & Hj & Heq)].
    refine (conj (conj Hb Hmk) (conj Hd (conj _ (conj Hp (conj _ _))))).
    + intros machine Hin p q op op' Hlt Hp' Hq' <- Heqm.
      apply (Hm p q op op'); auto.
    + intros x (j' & job' & Hj' & ->). eauto.
    + exists (end_of (offset jobs j + length job - 1)). eauto.
Qed.

End meaning_jobs.

Section display_facts.
Import Py cp_model jssp layout.
Implicit Types (v : Assignment) (P : list Op) (A : gmap Z (list Assigned)).

Lemma assign_job (T : gmap (nat * Z) TaskVars) v j o job k0 A :
  (∀ i m d, job !! i = Some (m, d) →
     T !! (j, k0 + Z.of_nat i)
     = Some (op_vars (o + i) (MkOp j (k0 + Z.of_nat i) m d))) →
  for_each (enumerate k0 job) (assign_task T v j) A
  = Ok (fold_left (assign_op v) (job_ops j k0 job) (A, o)).1.
Proof.
  revert k0 o A. induction job as [|[m d] job IH]; intros k0 o A HT; [done|].
  cbn [enumerate for_each job_ops fold_left].
  assert (H0 := HT 0%nat m d eq_refl).
  rewrite Z.add_0_r, Nat.add_0_r in H0.
  unfold assign_task at 1, get_task. rewrite H0. cbn [mbind result_bind].
  apply (IH (k0 + 1) (S o)). intros i m' d' Hi.
  specialize (HT (S i) m' d' Hi).
  by replace (k0 + 1 + Z.of_nat i) with (k0 + Z.of_nat (S i)) by lia;
     replace (S o + i)%nat with (o + S i)%nat by lia.
Qed.

Lemma assign_ops_pos v P (st : gmap Z (list Assigned) * nat) :
  (fold_left (assign_op v) P st).2 = (st.2 + length P)%nat.
Proof.
  revert st. induction P as [|op P IH]; intros st; cbn [fold_left length].
  - lia.
  - rewrite IH. simpl. lia.
Qed.

Lemma assign_jobs v jobs pre suf A :
  jobs = pre ++ suf →
  for_jobs (length pre) suf
    (λ job_id job A,
       for_each (enumerate 0 job) (assign_task (tasks_of jobs) v job_id) A) A
  = Ok (fold_left (assign_op v) (jobs_ops (length pre) suf)
          (A, offset jobs (length pre))).1.
Proof.
  revert pre A. induction suf as [|job suf IH]; intros pre A Hjobs; [done|].
  cbn [for_jobs jobs_ops]. rewrite fold_left_app.
  rewrite (assign_job _ v _ (offset jobs (length pre))).
  - specialize (IH (pre ++ [job])). rewrite length_app, Nat.add_1_r in IH.
    rewrite IH by by rewrite <- app_assoc.
    destruct (fold_left (assign_op v) (job_ops _ 0 job) _) as [A' p'] eqn:Hfold.
    assert (Hp := assign_ops_pos v (job_ops (length pre) 0 job)
                    (A, offset jobs (length pre))).
    rewrite Hfold, job_ops_length in Hp. simpl in Hp. subst p' jobs.
    by rewrite offset_snoc.
  - intros i m d Hi. rewrite Z.add_0_l. apply tasks_lookup.
    unfold task_at. subst jobs. by rewrite list_lookup_middle.
Qed.

Lemma collect_assigned_ops jobs v :
  collect_assigned jobs (tasks_of jobs) v
  = Ok (fold_left (assign_op v) (ops jobs) (∅, 0%nat)).1.
Proof.
  unfold collect_assigned. rewrite for_each_all_jobs.
  apply (assign_jobs v jobs [] jobs ∅ eq_refl).
Qed.

Lemma assign_ops_lookup v P (st : gmap Z (list Assigned) * nat) machine :
  (fold_left (assign_op v) P st).1 !!! machine
  = (st.1 !!! machine) ++ records_on v machine st.2 P.
Proof.
  revert st. induction P as [|op P IH]; intros st; cbn [fold_left records_on].
  - by rewrite app_nil_r.
  - rewrite IH. cbn [assign_op fst snd]. case_bool_decide as Hm.
    + subst machine. by rewrite lookup_total_insert_eq, <- app_assoc.
    + by rewrite lookup_total_insert_ne.
Qed.

Lemma elem_of_records_on v machine p P r :
  r ∈ records_on v machine p P
  ↔ ∃ i op, P !! i = Some op ∧ op_machine op = machine
            ∧ r = op_record v (p + i) op.
Proof.
  revert p. induction P as [|op P IH]; intros p; simpl.
  - split; [by intros ?%elem_of_nil | by intros ([|?] & ? & ? & ?)].
  - assert (Htail : r ∈ records_on v machine (S p) P
                    ↔ ∃ i op', P !! i = Some op' ∧ op_machine op' = machine
                               ∧ r = op_record v (p + S i) op').
    { rewrite IH. split; intros (i & op' & ? & ? & ->); exists i, op';
        by replace (p + S i)%nat with (S p + i)%nat by lia. }
    case_bool_decide as Hm.
    + rewrite elem_of_cons, Htail. split.
      * intros [->|(i & op' & ? & ? & ?)].
        -- exists 0%nat, op. by rewrite Nat.add_0_r.
        -- by exists (S i), op'.
      * intros ([|i] & op' & Hi & Hm' & ->); simpl in Hi.
        -- injection Hi as <-. left. by rewrite Nat.add_0_r.
        -- right. eauto.
    + rewrite Htail. split.
      * intros (i & op' & ? & ? & ?). by exists (S i), op'.
      * intros ([|i] & op' & Hi & Hm' & ->); simpl in Hi.
        -- by injection Hi as <-.
        -- eauto.
Qed.

Lemma insert_by_start_perm x l : insert_by_start x l ≡ₚ x :: l.
Proof.
  induction l as [|y l IH]; simpl; [done|].
  destruct (a_start x <? a_start y); [done|].
  by rewrite IH, Permutation_swap.
Qed.

Lemma sort_by_start_perm l : sort_by_start l ≡ₚ l.
Proof.
  unfold sort_by_start.
  assert (∀ acc, fold_left (λ sorted x, insert_by_start x sorted) l acc
                 ≡ₚ acc ++ l) as Hgen.
  { induction l as [|x l IH]; intros acc; simpl.
    - by rewrite app_nil_r.
    - rewrite IH, insert_by_start_perm. apply Permutation_middle. }
  apply (Hgen []).
Qed.

Lemma sort_machines_perm jobs A machine :
  sort_machines jobs A !!! machine ≡ₚ A !!! machine.
Proof.
  unfold sort_machines. generalize (all_machines jobs). intros L.
  revert A. induction L as [|a L IH]; intros A; simpl; [done|].
  rewrite IH. destruct (decide (a = machine)) as [->|Hne].
  - by rewrite lookup_total_insert_eq, sort_by_start_perm.
  - by rewrite lookup_total_insert_ne.
Qed.

(** The entries shown for a machine are the tasks that run on it. *)
Lemma elem_of_assigned jobs v machine r :
  r ∈ shown jobs v !!! machine
  ↔ ∃ p op, ops jobs !! p = Some op ∧ op_machine op = machine
            ∧ r = op_record v p op.
Proof.
  unfold shown. rewrite sort_machines_perm, assign_ops_lookup. cbn [fst snd].
  rewrite lookup_total_empty. apply elem_of_records_on.
Qed.

End display_facts.

Section run_facts.
Import Py cp_model jssp layout.

Lemma empty_job_dec (jobs : list Job) :
  Forall (λ job : Job, job ≠ []) jobs ∨ Exists (λ job : Job, job = []) jobs.
Proof.
  induction jobs as [|job jobs [IH|IH]].
  - left. constructor.
  - destruct job as [|t job].
    + right. by left.
    + left. by constructor.
  - right. by right.
Qed.

Lemma display_solution jobs status v :
  status = OPTIMAL ∨ status = FEASIBLE →
  display jobs (MkBuilt (model_of jobs) (tasks_of jobs) (makespan_of jobs))
    status v
  = Ok (SolutionFound status (Py.float (v (makespan_of jobs))) (shown jobs v)).
Proof.
  intros Hst. unfold display. rewrite bool_decide_eq_true_2 by done.
  cbn [built_tasks built_model]. by rewrite collect_assigned_ops.
Qed.

Lemma display_no_solution jobs b status v :
  status ≠ OPTIMAL → status ≠ FEASIBLE →
  display jobs b status v = Ok NoSolution
  ∨ display jobs b status v = Ok (Stopped status).
Proof.
  intros H1 H2. unfold display.
  rewrite bool_decide_eq_false_2 by (intros [?|?]; done).
  case_bool_decide; eauto.
Qed.

(** A model is built exactly for the problems that have no empty job and
    whose numbers are 64-bit integers. *)
Lemma build_model_inv jobs b :
  build_model jobs = Ok b →
  Forall (λ job : Job, job ≠ []) jobs ∧ fits_int64 jobs
  ∧ b = MkBuilt (model_of jobs) (tasks_of jobs) (makespan_of jobs).
Proof.
  intros Hb. destruct (fits_int64_dec jobs) as [Hfit|Hfit].
  - destruct (empty_job_dec jobs) as [Hne|Hex].
    + split; [done|]. split; [done|].
      rewrite (build_model_ok jobs Hne Hfit) in Hb. by injection Hb.
    + destruct (build_model_fail jobs Hfit Hex) as (j & _ & Hf).
      by rewrite Hf in Hb.
  - destruct (build_model_unfit jobs Hfit) as [e He]. by rewrite He in Hb.
Qed.

(** What a run that shows a solution has gone through. *)
Lemma run_solution jobs limited status makespan assigned :
  run jobs limited (Ok (SolutionFound status makespan assigned)) →
  ∃ v, Forall (λ job : Job, job ≠ []) jobs
       ∧ Solve limited (model_of jobs) status v
       ∧ (status = OPTIMAL ∨ status = FEASIBLE)
       ∧ scheduled jobs v
       ∧ makespan = Py.float (v (makespan_of jobs))
       ∧ assigned = shown jobs v.
Proof.
  unfold run. destruct (build_model jobs) as [b|e] eqn:Hb; [|done].
  apply build_model_inv in Hb as (Hne & Hfit & ->). cbn [built_model].
  intros (st & v & Hsolve & Hdisp).
  destruct (decide (st = OPTIMAL ∨ st = FEASIBLE)) as [Hst|Hst].
  - rewrite display_solution in Hdisp by done.
    injection Hdisp as -> -> ->. exists v.
    repeat (split; [done|]). split; [|done].
    apply feasible_scheduled.
    destruct Hsolve; try done; destruct Hst; done.
  - destruct (display_no_solution jobs
                (MkBuilt (model_of jobs) (tasks_of jobs) (makespan_of jobs))
                st v) as [Hd|Hd]; [tauto | tauto | |];
      rewrite Hd in Hdisp; done.
Qed.

Lemma run_fits jobs limited report :
  run jobs limited (Ok report) → fits_int64 jobs.
Proof.
  unfold run. destruct (build_model jobs) as [b|e] eqn:Hb; [|done].
  by apply build_model_inv in Hb as (_ & Hfit & _).
Qed.

End run_facts.

Section maximum_facts.
Import recheck.

Lemma maximum_bounds (l : list Z) (M : Z) :
  maximum l = Some M → M ∈ l ∧ ∀ x, x ∈ l → x ≤ M.
Proof.
  revert M. induction l as [|a l IH]; intros M HM; [done|].
  simpl in HM. injection HM as <-.
  destruct (maximum l) as [N|] eqn:Hl.
  - destruct (IH N eq_refl) as [HN Hub]. split.
    + destruct (Z.max_spec a N) as [[_ ->]|[_ ->]]; [by right | by left].
    + intros x [->|Hx]%elem_of_cons; [lia|].
      specialize (Hub x Hx). lia.
  - destruct l as [|b l]; [|done]. split; [by left|].
    by intros x ->%list_elem_of_singleton.
Qed.

Lemma maximum_spec (l : list Z) (M : Z) :
  M ∈ l → (∀ x, x ∈ l → x ≤ M) → maximum l = Some M.
Proof.
  intros Hin Hub. destruct (maximum l) as [N|] eqn:HN.
  - apply maximum_bounds in HN as [HN Hub']. f_equal.
    apply Z.le_antisymm; auto.
  - destruct l; [by apply elem_of_nil in Hin | done].
Qed.

End maximum_facts.

(** ** The number of machines *)

Section machines.
Import Py cp_model jssp layout spec.

Lemma scan_job_spec job mx :
  mx ≤ scan_job mx job
  ∧ (∀ task, task ∈ job → task.1 ≤ scan_job mx job)
  ∧ (scan_job mx job = mx ∨ ∃ task, task ∈ job ∧ scan_job mx job = task.1).
Proof.
  revert mx. induction job as [|t job IH]; intros mx; simpl.
  - split; [lia|]. split; [|by left]. by intros ? ?%elem_of_nil.
  - fold (scan_job (if bool_decide (t.1 > mx) then t.1 else mx) job).
    destruct (IH (if bool_decide (t.1 > mx) then t.1 else mx)) as (Hle & Hub & Hin).
    case_bool_decide; (split; [lia|]); (split; [intros task [->|?]%elem_of_cons; [lia | by auto] |]).
    + destruct Hin as [->|(task & ? & ->)]; right.
      * exists t. split; [by left | done].
      * exists task. split; [by right | done].
    + destruct Hin as [->|(task & ? & ->)]; [by left | right].
      exists task. split; [by right | done].
Qed.

Lemma scan_jobs_spec jobs mx :
  let R := fold_left scan_job jobs mx in
  mx ≤ R
  ∧ (∀ job task, job ∈ jobs → task ∈ job → task.1 ≤ R)
  ∧ (R = mx ∨ ∃ job task, job ∈ jobs ∧ task ∈ job ∧ R = task.1).
Proof.
  revert mx. induction jobs as [|job jobs IH]; intros mx; simpl.
  - split; [lia|]. split; [|by left]. by intros ? ? ?%elem_of_nil.
  - destruct (IH (scan_job mx job)) as (Hle & Hub & Hin).
    destruct (scan_job_spec job mx) as (Hle' & Hub' & Hin').
    split; [lia|]. split.
    + intros job' task [->|?]%elem_of_cons Ht.
      * specialize (Hub' task Ht). lia.
      * by apply (Hub job').
    + destruct Hin as [->|(job' & task & ? & ? & ->)].
      * destruct Hin' as [->|(task & ? & ->)]; [by left | right].
        exists job, task. split; [by left | done].
      * right. exists job', task. split; [by right | done].
Qed.

Lemma max_machine_id_spec jobs :
  0 ≤ max_machine_id jobs
  ∧ (∀ job task, job ∈ jobs → task ∈ job → task.1 ≤ max_machine_id jobs)
  ∧ (max_machine_id jobs = 0
     ∨ ∃ job task, job ∈ jobs ∧ task ∈ job ∧ max_machine_id jobs = task.1).
Proof. apply (scan_jobs_spec jobs 0). Qed.



End machines.

Section returned_schedule.
Import Py cp_model jssp layout recheck.

Lemma shown_entry jobs v machine r :
  r ∈ shown jobs v !!! machine →
  ∃ j k d, task_at jobs j k = Some (machine, d)
           ∧ r = MkAssigned j (Z.of_nat k)
                   (v (start_of (offset jobs j + k)))
                   (v (end_of (offset jobs j + k))) d.
Proof.
  intros (p & op & Hp & Hm & ->)%elem_of_assigned.
  apply ops_lookup in Hp as (j & k & m & d & Ht & -> & ->).
  simpl in Hm. subst m. by exists j, k, d.
Qed.

Lemma task_at_intro jobs j k (job : Job) t :
  jobs !! j = Some job → job !! k = Some t → task_at jobs j k = Some t.
Proof. intros Hj Hk. unfold task_at. by rewrite Hj. Qed.

Lemma task_at_inv jobs j k (job : Job) t :
  jobs !! j = Some job → task_at jobs j k = Some t → job !! k = Some t.
Proof. intros Hj. unfold task_at. by rewrite Hj. Qed.

Lemma task_at_lt jobs j k t :
  task_at jobs j k = Some t →
  ∃ job : Job, jobs !! j = Some job ∧ (k < length job)%nat.
Proof.
  unfold task_at. destruct (jobs !! j) as [job|]; [|done]. simpl.
  intros Hk%lookup_lt_Some. eauto.
Qed.

Lemma scheduled_duration jobs v j k m d :
  scheduled jobs v → task_at jobs j k = Some (m, d) →
  v (start_of (offset jobs j + k)) + d = v (end_of (offset jobs j + k)).
Proof.
  intros Hs Ht%ops_lookup_task. apply (sch_duration _ _ Hs _ _ Ht).
Qed.

Lemma scheduled_machine jobs v j k j' k' m d d' :
  scheduled jobs v → m ∈ all_machines jobs →
  task_at jobs j k = Some (m, d) → task_at jobs j' k' = Some (m, d') →
  (j, k) ≠ (j', k') →
  v (end_of (offset jobs j + k)) ≤ v (start_of (offset jobs j' + k'))
  ∨ v (end_of (offset jobs j' + k')) ≤ v (start_of (offset jobs j + k)).
Proof.
  intros Hs Hm Ht%ops_lookup_task Ht'%ops_lookup_task Hne.
  destruct (lt_eq_lt_dec (offset jobs j + k) (offset jobs j' + k'))
    as [[Hlt|Heq]|Hlt].
  - apply (sch_machine _ _ Hs _ _ _ _ Hlt Ht Ht'); done.
  - rewrite Heq in Ht. rewrite Ht in Ht'. injection Ht' as -> Hk.
    destruct Hne. f_equal. lia.
  - apply or_comm. apply (sch_machine _ _ Hs _ _ _ _ Hlt Ht' Ht); done.
Qed.

Lemma elem_of_range (n x : Z) : x ∈ range n ↔ 0 ≤ x < n.
Proof.
  unfold range. rewrite list_elem_of_fmap. split.
  - intros (i & -> & Hi%elem_of_seq). lia.
  - intros Hx. exists (Z.to_nat x). split; [lia|]. apply elem_of_seq. lia.
Qed.

(** A machine id that is not negative and that some task refers to is one
    of [all_machines]. *)
Lemma referenced_in_all_machines jobs j k m d :
  task_at jobs j k = Some (m, d) → 0 ≤ m → m ∈ all_machines jobs.
Proof.
  intros Ht Hm. apply elem_of_range. split; [done|]. unfold num_machines.
  unfold task_at in Ht. destruct (jobs !! j) as [job|] eqn:Hj; [|done].
  simpl in Ht. apply list_elem_of_lookup_2 in Hj, Ht.
  destruct (max_machine_id_spec jobs) as (_ & Hub & _).
  specialize (Hub job (m, d) Hj Ht). simpl in Hub. lia.
Qed.

End returned_schedule.

(** ** The instance of the program *)

Section instance.
Import Py cp_model jssp layout spec.

Lemma jobs_data_nonempty : Forall (λ job : Job, job ≠ []) jobs_data.
Proof. repeat constructor; done. Qed.

Lemma jobs_data_feasible :
  feasible (model_of jobs_data) schedule_11 = true.
Proof. vm_compute. reflexivity. Qed.

(** No schedule of the instance ends before time 11: machine 1 is busy
    for 10 units, and whichever of its tasks comes last, the rest of the
    work cannot be fitted in 10. *)
Lemma jobs_data_lower_bound v :
  scheduled jobs_data v → 11 ≤ v (makespan_of jobs_data).
Proof.
  intros [Hb Hd Hm Hp _ Hub _].
  assert (Hmach : ∀ p q op op',
            (p < q)%nat → ops jobs_data !! p = Some op →
            ops jobs_data !! q = Some op' → op_machine op = op_machine op' →
            bool_decide (op_machine op ∈ all_machines jobs_data) = true →
            v (end_of p) ≤ v (start_of q) ∨ v (end_of q) ≤ v (start_of p)).
  { intros p q op op' ? ? ? ? Hin%bool_decide_eq_true. eauto. }
  clear Hm.
  pose proof (Hb 0%nat _ eq_refl) as [B0 _].
  pose proof (Hb 3%nat _ eq_refl) as [B3 _].
  pose proof (Hb 6%nat _ eq_refl) as [B6 _].
  pose proof (Hd 0%nat _ eq_refl) as D0. pose proof (Hd 1%nat _ eq_refl) as D1.
  pose proof (Hd 2%nat _ eq_refl) as D2. pose proof (Hd 3%nat _ eq_refl) as D3.
  pose proof (Hd 4%nat _ eq_refl) as D4. pose proof (Hd 5%nat _ eq_refl) as D5.
  pose proof (Hd 6%nat _ eq_refl) as D6. pose proof (Hd 7%nat _ eq_refl) as D7.
  pose proof (Hp 0%nat _ 0%nat eq_refl ltac:(simpl; lia)) as P00.
  pose proof (Hp 0%nat _ 1%nat eq_refl ltac:(simpl; lia)) as P01.
  pose proof (Hp 1%nat _ 0%nat eq_refl ltac:(simpl; lia)) as P10.
  pose proof (Hp 1%nat _ 1%nat eq_refl ltac:(simpl; lia)) as P11.
  pose proof (Hp 2%nat _ 0%nat eq_refl ltac:(simpl; lia)) as P20.
  pose proof (Hub 0%nat _ eq_refl) as U0.
  pose proof (Hub 1%nat _ eq_refl) as U1.
  pose proof (Hub 2%nat _ eq_refl) as U2.
  pose proof (Hmach 0%nat 3%nat _ _ ltac:(lia) eq_refl eq_refl eq_refl eq_refl) as M03.
  pose proof (Hmach 1%nat 5%nat _ _ ltac:(lia) eq_refl eq_refl eq_refl eq_refl) as M15.
  pose proof (Hmach 1%nat 6%nat _ _ ltac:(lia) eq_refl eq_refl eq_refl eq_refl) as M16.
  pose proof (Hmach 5%nat 6%nat _ _ ltac:(lia) eq_refl eq_refl eq_refl eq_refl) as M56.
  pose proof (Hmach 2%nat 4%nat _ _ ltac:(lia) eq_refl eq_refl eq_refl eq_refl) as M24.
  pose proof (Hmach 2%nat 7%nat _ _ ltac:(lia) eq_refl eq_refl eq_refl eq_refl) as M27.
  pose proof (Hmach 4%nat 7%nat _ _ ltac:(lia) eq_refl eq_refl eq_refl eq_refl) as M47.
  clear Hb Hd Hp Hub Hmach.
  unfold start_of, end_of, makespan_of in *. simpl in *.
  lia.
Qed.

(** The same bound for schedules as such, whatever their horizon. *)
Lemma jobs_data_schedule_lower_bound start M :
  is_schedule jobs_data start → has_makespan jobs_data start M → 11 ≤ M.
Proof.
  intros (Hpos & Hprec & Hmach) [Hub _].
  assert (Hm : ∀ j k j' k' t t',
            bool_decide ((j, k) ≠ (j', k')) = true →
            task_at jobs_data j k = Some t → task_at jobs_data j' k' = Some t' →
            t.1 = t'.1 →
            start j k + t.2 ≤ start j' k' ∨ start j' k' + t'.2 ≤ start j k).
  { intros j k j' k' t t' Hne%bool_decide_eq_true. by apply Hmach. }
  clear Hmach.
  pose proof (Hpos 0 0 _ eq_refl)%nat as B00.
  pose proof (Hpos 1 0 _ eq_refl)%nat as B10.
  pose proof (Hpos 2 0 _ eq_refl)%nat as B20.
  pose proof (Hprec 0 0 _ _ eq_refl eq_refl)%nat as P00.
  pose proof (Hprec 0 1 _ _ eq_refl eq_refl)%nat as P01.
  pose proof (Hprec 1 0 _ _ eq_refl eq_refl)%nat as P10.
  pose proof (Hprec 1 1 _ _ eq_refl eq_refl)%nat as P11.
  pose proof (Hprec 2 0 _ _ eq_refl eq_refl)%nat as P20.
  pose proof (Hub 0 2 _ eq_refl)%nat as U0.
  pose proof (Hub 1 2 _ eq_refl)%nat as U1.
  pose proof (Hub 2 1 _ eq_refl)%nat as U2.
  pose proof (Hm 0 0 1 0 _ _ eq_refl eq_refl eq_refl eq_refl)%nat as M0.
  pose proof (Hm 0 1 1 2 _ _ eq_refl eq_refl eq_refl eq_refl)%nat as M1a.
  pose proof (Hm 0 1 2 0 _ _ eq_refl eq_refl eq_refl eq_refl)%nat as M1b.
  pose proof (Hm 1 2 2 0 _ _ eq_refl eq_refl eq_refl eq_refl)%nat as M1c.
  pose proof (Hm 0 2 1 1 _ _ eq_refl eq_refl eq_refl eq_refl)%nat as M2a.
  pose proof (Hm 0 2 2 1 _ _ eq_refl eq_refl eq_refl eq_refl)%nat as M2b.
  pose proof (Hm 1 1 2 1 _ _ eq_refl eq_refl eq_refl eq_refl)%nat as M2c.
  clear Hpos Hprec Hub Hm. simpl in *. lia.
Qed.

Lemma jobs_data_valid : valid_problem jobs_data.
Proof.
  split; [done|]. repeat (constructor; [split; [done|]|]);
    repeat constructor; simpl; lia.
Qed.

Lemma jobs_data_fits : fits_int64 jobs_data.
Proof. split; [reflexivity|]. repeat constructor. Qed.

(** A run of the program: the solver proves [schedule_11] optimal. *)
Lemma jobs_data_run :
  run jobs_data false
    (Ok (SolutionFound OPTIMAL 11 (shown jobs_data schedule_11))).
Proof.
  unfold run.
  rewrite (build_model_ok _ jobs_data_nonempty jobs_data_fits).
  cbn [built_model].
  exists OPTIMAL, schedule_11. split.
  - apply Solve_optimal; [apply jobs_data_feasible|].
    intros w Hw%feasible_scheduled.
    unfold objective_of, model_of. cbn [objective].
    by apply jobs_data_lower_bound.
  - rewrite display_solution by by left. reflexivity.
Qed.

End instance.

(** ** A schedule always exists: one task after the other *)

Section serial_schedule.
Import Py cp_model jssp layout spec.
Implicit Types (P : list Op) (jobs : list Job).

Lemma fold_left_add (l : list Z) (a : Z) :
  fold_left Z.add l a = a + foldr Z.add 0 l.
Proof.
  revert a. induction l as [|x l IH]; intros a; simpl; [lia|].
  rewrite IH. lia.
Qed.

Lemma job_ops_durations j k (job : Job) :
  op_duration <$> job_ops j k job = (λ task : Task, task.2) <$> job.
Proof.
  revert k. induction job as [|[m d] job IH]; intros k; simpl; [done|].
  f_equal. apply IH.
Qed.

Lemma jobs_ops_durations j jobs :
  op_duration <$> jobs_ops j jobs
  = jobs ≫= (λ job, (λ task : Task, task.2) <$> job).
Proof.
  revert j. induction jobs as [|job jobs IH]; intros j; simpl; [done|].
  by rewrite fmap_app, job_ops_durations, IH.
Qed.

Lemma horizon_ops jobs : horizon jobs = elapsed (ops jobs) (length (ops jobs)).
Proof.
  unfold horizon, elapsed. rewrite fold_left_add, firstn_all.
  unfold ops. rewrite jobs_ops_durations. lia.
Qed.

Lemma foldr_add_app (l k : list Z) :
  foldr Z.add 0 (l ++ k) = foldr Z.add 0 l + foldr Z.add 0 k.
Proof. induction l as [|x l IH]; simpl; lia. Qed.

Lemma horizon_total jobs : horizon jobs = total_duration jobs.
Proof.
  unfold horizon, total_duration. rewrite fold_left_add, Z.add_0_l.
  induction jobs as [|job jobs IH]; [done|].
  rewrite bind_cons, fmap_cons, foldr_add_app, IH. done.
Qed.

Lemma elapsed_0 P : elapsed P 0 = 0.
Proof. done. Qed.

Lemma elapsed_S P n op :
  P !! n = Some op → elapsed P (S n) = elapsed P n + op_duration op.
Proof.
  intros Hn. unfold elapsed.
  rewrite (take_S_r _ _ _ Hn), fmap_app, foldr_add_app. simpl. lia.
Qed.

Lemma elapsed_all P n :
  (length P ≤ n)%nat → elapsed P n = elapsed P (length P).
Proof. intros Hn. unfold elapsed. by rewrite !take_ge by lia. Qed.

Lemma elapsed_step P n :
  (∀ p op, P !! p = Some op → 0 ≤ op_duration op) →
  elapsed P n ≤ elapsed P (S n).
Proof.
  intros Hdur. destruct (P !! n) as [op|] eqn:Hn.
  - rewrite (elapsed_S _ _ _ Hn). specialize (Hdur n op Hn). lia.
  - apply lookup_ge_None in Hn.
    rewrite (elapsed_all P n), (elapsed_all P (S n)) by lia. lia.
Qed.

Lemma elapsed_mono P n n' :
  (∀ p op, P !! p = Some op → 0 ≤ op_duration op) →
  (n ≤ n')%nat → elapsed P n ≤ elapsed P n'.
Proof.
  intros Hdur Hle. induction Hle as [|n' Hle IH]; [lia|].
  pose proof (elapsed_step P n' Hdur). lia.
Qed.

Lemma elapsed_bounds P n :
  (∀ p op, P !! p = Some op → 0 ≤ op_duration op) →
  0 ≤ elapsed P n ≤ elapsed P (length P).
Proof.
  intros Hdur. split.
  - rewrite <- (elapsed_0 P). apply elapsed_mono; [done | lia].
  - destruct (decide (n ≤ length P)%nat).
    + by apply elapsed_mono.
    + rewrite (elapsed_all P n) by lia. lia.
Qed.

Lemma serial_start jobs p : serial jobs (start_of p) = elapsed (ops jobs) p.
Proof.
  unfold serial, start_of. f_equal.
  symmetry. apply (Nat.div_unique _ 2 p 1); lia.
Qed.

Lemma serial_end jobs p : serial jobs (end_of p) = elapsed (ops jobs) (S p).
Proof.
  unfold serial, end_of. f_equal.
  symmetry. apply (Nat.div_unique _ 2 (S p) 0); lia.
Qed.

Lemma serial_makespan jobs : serial jobs (makespan_of jobs) = horizon jobs.
Proof.
  rewrite horizon_ops. unfold makespan_of. fold (start_of (length (ops jobs))).
  apply serial_start.
Qed.

Lemma ops_durations_nonneg jobs :
  Forall (Forall (λ task : Task, 0 ≤ task.2)) jobs →
  ∀ p op, ops jobs !! p = Some op → 0 ≤ op_duration op.
Proof.
  intros Hdur p op (j & k & m & d & Ht & _ & ->)%ops_lookup. simpl.
  unfold task_at in Ht. destruct (jobs !! j) as [job|] eqn:Hj; [|done].
  simpl in Ht. apply list_elem_of_lookup_2 in Hj, Ht.
  eapply Forall_forall in Hdur; [|exact Hj].
  eapply Forall_forall in Hdur; [|exact Ht]. done.
Qed.

Lemma offset_last jobs (job : Job) :
  last jobs = Some job →
  (offset jobs (length jobs - 1) + length job)%nat = length (ops jobs).
Proof.
  intros Hlast. rewrite ops_length.
  apply last_Some in Hlast as [pre ->].
  rewrite length_app. simpl.
  replace (length pre + 1 - 1)%nat with (length pre) by lia.
  replace (length pre + 1)%nat with (S (length pre)) by lia.
  by rewrite <- offset_snoc.
Qed.

(** The serial schedule is a schedule, whatever the machines. *)
Lemma serial_scheduled jobs :
  jobs ≠ [] →
  Forall (λ job : Job, job ≠ []) jobs →
  Forall (Forall (λ task : Task, 0 ≤ task.2)) jobs →
  scheduled jobs (serial jobs).
Proof.
  intros Hjobs Hne Hdur.
  assert (Hpos := ops_durations_nonneg jobs Hdur).
  assert (Hb : ∀ n, 0 ≤ elapsed (ops jobs) n ≤ horizon jobs).
  { intros n. rewrite horizon_ops. by apply elapsed_bounds. }
  split.
  - intros p op _. rewrite serial_start, serial_end. split; apply Hb.
  - intros p op Hp. rewrite serial_start, serial_end. symmetry.
    by apply elapsed_S.
  - intros p q op op' Hlt _ _ _ _. left. rewrite serial_start, serial_end.
    apply elapsed_mono; [done | lia].
  - intros j job k _ _. rewrite serial_start, serial_end.
    apply elapsed_mono; [done | lia].
  - rewrite serial_makespan. split; [|lia].
    rewrite horizon_ops. by apply elapsed_bounds.
  - intros j job _. rewrite serial_makespan, serial_end. apply Hb.
  - destruct (last jobs) as [job|] eqn:Hlast; [|by apply last_None in Hlast].
    exists (length jobs - 1)%nat, job. split.
    + rewrite last_lookup in Hlast.
      by replace (length jobs - 1)%nat with (pred (length jobs)) by lia.
    + rewrite serial_makespan, serial_end, horizon_ops. f_equal.
      assert (job ≠ []) as Hjob.
      { eapply Forall_forall in Hne; [done|].
        rewrite last_lookup in Hlast. by eapply list_elem_of_lookup_2. }
      pose proof (offset_last jobs job Hlast).
      destruct job; [done | simpl in *; lia].
Qed.

End serial_schedule.

(** ** What the solver is given is valid, and it has a solution *)

Section solvable.
Import Py cp_model jssp layout spec.
Implicit Types (P : list Op) (jobs : list Job).




Lemma horizon_nonneg jobs :
  Forall (Forall (λ task : Task, 0 ≤ task.2)) jobs → 0 ≤ horizon jobs.
Proof.
  intros Hdur. rewrite horizon_ops.
  apply elapsed_bounds, ops_durations_nonneg, Hdur.
Qed.


(** A duration is at most the horizon when no duration is negative. *)
Lemma duration_le_horizon jobs p op :
  Forall (Forall (λ task : Task, 0 ≤ task.2)) jobs →
  ops jobs !! p = Some op → 0 ≤ op_duration op ≤ horizon jobs.
Proof.
  intros Hdur Hp. pose proof (ops_durations_nonneg jobs Hdur) as Hpos.
  split; [by eapply Hpos|].
  rewrite horizon_ops.
  pose proof (elapsed_S _ _ _ Hp) as HS.
  pose proof (elapsed_bounds (ops jobs) p Hpos) as [H0 _].
  pose proof (elapsed_bounds (ops jobs) (S p) Hpos) as [_ H1]. lia.
Qed.

Lemma task_in_ops jobs (job : Job) (task : Task) :
  job ∈ jobs → task ∈ job →
  ∃ p op, ops jobs !! p = Some op ∧ op_duration op = task.2.
Proof.
  intros [j Hj]%list_elem_of_lookup [k Hk]%list_elem_of_lookup.
  destruct task as [m d].
  exists (offset jobs j + k)%nat, (MkOp j (Z.of_nat k) m d).
  split; [|done]. apply ops_lookup_task. by eapply task_at_intro.
Qed.

(** Durations that are not negative and a horizon of at most 2^60: all
    the numbers given to the library are 64-bit integers. *)
Lemma bounded_fits jobs :
  Forall (Forall (λ task : Task, 0 ≤ task.2)) jobs →
  horizon jobs ≤ 2 ^ 60 → fits_int64 jobs.
Proof.
  intros Hdur HH. pose proof (horizon_nonneg jobs Hdur) as H0. split.
  - unfold int64. apply andb_true_iff. split; [apply Z.leb_le|apply Z.ltb_lt]; lia.
  - apply Forall_forall. intros job Hjob. apply Forall_forall. intros task Htask.
    destruct (task_in_ops jobs job task Hjob Htask) as (p & op & Hp & <-).
    pose proof (duration_le_horizon jobs p op Hdur Hp).
    unfold int64. apply andb_true_iff. split; [apply Z.leb_le|apply Z.ltb_lt]; lia.
Qed.







(** A run without search limit that shows a schedule shows an optimal
    one. *)
Lemma run_unlimited_solution jobs status makespan assigned :
  run jobs false (Ok (SolutionFound status makespan assigned)) →
  ∃ v, status = OPTIMAL
       ∧ makespan = Py.float (v (makespan_of jobs))
       ∧ assigned = shown jobs v
       ∧ scheduled jobs v
       ∧ ∀ w, scheduled jobs w → v (makespan_of jobs) ≤ w (makespan_of jobs).
Proof.
  intros (v & _ & Hsolve & Hst & Hs & -> & ->)%run_solution.
  exists v. inversion Hsolve as [v0 Hv Hmin|v0 ?| | |]; subst;
    try (by destruct Hst); [].
  repeat (split; [done|]).
  intros w Hw%feasible_scheduled. apply (Hmin w Hw).
Qed.

Lemma ops_protos_lookup H P i op :
  P !! i = Some op →
  ops_protos H P !! start_of i = Some (MkIntVar 0 H ("start" +:+ op_suffix op))
  ∧ ops_protos H P !! end_of i = Some (MkIntVar 0 H ("end" +:+ op_suffix op)).
Proof.
  revert i. induction P as [|op0 P IH]; intros i Hi; [done|].
  destruct i as [|i]; simpl in Hi.
  - injection Hi as ->. done.
  - destruct (IH i Hi) as [Hs He]. unfold start_of, end_of in *.
    replace (2 * S i)%nat with (S (S (2 * i))) by lia.
    replace (S (S (2 * i)) + 1)%nat with (S (S (2 * i + 1))) by lia.
    done.
Qed.

Lemma create_variables_state jobs :
  fits_int64 jobs →
  create_variables jobs init
  = Ok (fold_left (create_op (horizon jobs)) (ops jobs) init)
  ∧ model (fold_left (create_op (horizon jobs)) (ops jobs) init)
    = MkModel (ops_protos (horizon jobs) (ops jobs))
        (ops_intervals 0 (ops jobs)) None
  ∧ all_tasks (fold_left (create_op (horizon jobs)) (ops jobs) init)
    = tasks_of jobs.
Proof.
  intros Hfit. split; [by apply create_variables_ops|]. split.
  - apply (create_ops_model (horizon jobs) (ops jobs) init 0 eq_refl).
  - apply (create_ops_tasks (horizon jobs) (ops jobs) init 0 eq_refl).
Qed.

End solvable.

Section stretch_facts.
Import Py cp_model jssp layout spec stretch.
Implicit Types (P : list Op) (jobs : list Job) (v : Assignment).

Lemma job_ops_le j k (job job' : Job) :
  Forall2 task_le job job' → Forall2 op_le (job_ops j k job) (job_ops j k job').
Proof.
  intros Hle. revert k.
  induction Hle as [|[m d] [m' d'] job job' [Hm Hd] _ IH]; intros k; simpl.
  - constructor.
  - constructor; [|apply IH]. simpl in *. by subst.
Qed.

Lemma jobs_ops_le j jobs jobs' :
  stretched jobs jobs' → Forall2 op_le (jobs_ops j jobs) (jobs_ops j jobs').
Proof.
  intros Hle. revert j. induction Hle as [|job job' jobs jobs' Hjob _ IH];
    intros j; simpl; [constructor|].
  apply Forall2_app; [by apply job_ops_le | apply IH].
Qed.

Lemma stretched_ops jobs jobs' :
  stretched jobs jobs' → Forall2 op_le (ops jobs) (ops jobs').
Proof. apply jobs_ops_le. Qed.

Lemma stretched_concat_length (l l' : list Job) :
  stretched l l' → length (concat l) = length (concat l').
Proof.
  induction 1 as [|job job' l l' Hjob _ IH]; simpl; [done|].
  by rewrite !length_app, IH, (Forall2_length _ _ _ Hjob).
Qed.

Lemma stretched_offset jobs jobs' j :
  stretched jobs jobs' → offset jobs j = offset jobs' j.
Proof. intros Hle. by apply stretched_concat_length, Forall2_take. Qed.

Lemma stretched_makespan_of jobs jobs' :
  stretched jobs jobs' → makespan_of jobs = makespan_of jobs'.
Proof.
  intros Hle%stretched_ops%Forall2_length. unfold makespan_of. by rewrite Hle.
Qed.

Lemma stretched_lookup jobs jobs' j (job : Job) :
  stretched jobs jobs' → jobs !! j = Some job →
  ∃ job' : Job, jobs' !! j = Some job' ∧ length job' = length job.
Proof.
  intros Hle Hj. destruct (Forall2_lookup_l _ _ _ _ _ Hle Hj) as (job' & Hj' & Hjob).
  exists job'. split; [done|]. symmetry. by eapply Forall2_length.
Qed.

Lemma stretched_scan_job (job job' : Job) mx :
  Forall2 task_le job job' → scan_job mx job = scan_job mx job'.
Proof.
  intros Hle. revert mx.
  induction Hle as [|t t' job job' [Hm _] _ IH]; intros mx; simpl; [done|].
  rewrite Hm. apply IH.
Qed.

Lemma stretched_all_machines jobs jobs' :
  stretched jobs jobs' → all_machines jobs = all_machines jobs'.
Proof.
  intros Hle. unfold all_machines, num_machines. do 2 f_equal.
  change (fold_left scan_job jobs 0 = fold_left scan_job jobs' 0).
  generalize 0. induction Hle as [|job job' jobs jobs' Hjob _ IH]; intros mx;
    simpl; [done|].
  by rewrite (stretched_scan_job job job' mx Hjob), IH.
Qed.

Lemma op_le_total P P' :
  Forall2 op_le P P' →
  foldr Z.add 0 (op_duration <$> P) ≤ foldr Z.add 0 (op_duration <$> P').
Proof.
  induction 1 as [|op op' P P' (_ & _ & _ & Hd) _ IH]; [done|].
  rewrite !fmap_cons. cbn [foldr]. lia.
Qed.

Lemma stretched_horizon jobs jobs' :
  stretched jobs jobs' → horizon jobs ≤ horizon jobs'.
Proof.
  intros Hle%stretched_ops. rewrite !horizon_ops. unfold elapsed.
  rewrite !firstn_all. by apply op_le_total.
Qed.

(** In a schedule no task ends after the makespan. *)
Lemma job_chain jobs v j (job : Job) k i :
  scheduled jobs v →
  (∀ p op, ops jobs !! p = Some op → 0 ≤ op_duration op) →
  jobs !! j = Some job → (k + i < length job)%nat →
  v (end_of (offset jobs j + k)) ≤ v (end_of (offset jobs j + k + i)).
Proof.
  intros Hs Hdur Hj. induction i as [|i IH]; intros Hlt.
  - rewrite Nat.add_0_r. lia.
  - specialize (IH ltac:(lia)).
    pose proof (sch_precedence _ _ Hs j job (k + i)%nat Hj ltac:(lia)) as Hp.
    assert (is_Some (job !! (k + S i)%nat)) as [[m d] Ht].
    { apply lookup_lt_is_Some. lia. }
    pose proof (ops_lookup_task jobs j (k + S i) m d
                  (task_at_intro jobs j _ job _ Hj Ht)) as Hop.
    pose proof (sch_duration _ _ Hs _ _ Hop) as Hd.
    specialize (Hdur _ _ Hop). simpl in Hdur.
    replace (offset jobs j + (k + i) + 1)%nat
      with (offset jobs j + (k + S i))%nat in Hp by lia.
    replace (offset jobs j + (k + i))%nat
      with (offset jobs j + k + i)%nat in Hp by lia.
    replace (offset jobs j + k + S i)%nat
      with (offset jobs j + (k + S i))%nat by lia.
    simpl in Hd. lia.
Qed.

Lemma ends_before_makespan jobs v p op :
  scheduled jobs v →
  (∀ p op, ops jobs !! p = Some op → 0 ≤ op_duration op) →
  ops jobs !! p = Some op → v (end_of p) ≤ v (makespan_of jobs).
Proof.
  intros Hs Hdur (j & k & m & d & Ht & -> & _)%ops_lookup.
  destruct (task_at_lt _ _ _ _ Ht) as (job & Hj & Hlt).
  pose proof (job_chain jobs v j job k (length job - 1 - k) Hs Hdur Hj
                ltac:(lia)) as Hchain.
  pose proof (sch_makespan_ub _ _ Hs j job Hj) as Hub.
  replace (offset jobs j + k + (length job - 1 - k))%nat
    with (offset jobs j + length job - 1)%nat in Hchain by lia.
  lia.
Qed.

Lemma odd_end_of p : Nat.odd (end_of p) = true.
Proof. apply Nat.odd_spec. exists p. unfold end_of. lia. Qed.

Lemma odd_start_of p : Nat.odd (start_of p) = false.
Proof.
  rewrite <- Nat.negb_even. apply negb_false_iff, Nat.even_spec.
  exists p. unfold start_of. lia.
Qed.

Lemma shrunk_value_start jobs v p :
  shrunk_value jobs v (start_of p) = v (start_of p).
Proof. unfold shrunk_value. by rewrite odd_start_of. Qed.

Lemma shrunk_value_end jobs v p op :
  ops jobs !! p = Some op →
  shrunk_value jobs v (end_of p) = v (start_of p) + op_duration op.
Proof.
  intros Hp. unfold shrunk_value. rewrite odd_end_of.
  unfold duration_at, end_of, start_of.
  replace (2 * p + 1 - 1)%nat with (2 * p)%nat by lia.
  replace ((2 * p + 1) / 2)%nat with p
    by (apply (Nat.div_unique _ 2 p 1); lia).
  by rewrite Hp.
Qed.

Lemma shrunk_start jobs v p op :
  ops jobs !! p = Some op → shrunk jobs v (start_of p) = v (start_of p).
Proof.
  intros Hp%lookup_lt_Some. unfold shrunk.
  rewrite decide_False by (unfold start_of, makespan_of; lia).
  apply shrunk_value_start.
Qed.

Lemma shrunk_end jobs v p op :
  ops jobs !! p = Some op →
  shrunk jobs v (end_of p) = v (start_of p) + op_duration op.
Proof.
  intros Hp. unfold shrunk.
  rewrite decide_False by (unfold end_of, makespan_of; lia).
  by apply shrunk_value_end.
Qed.

End stretch_facts.

Section shrink.
Import Py cp_model jssp layout spec stretch.
Implicit Types (P : list Op) (jobs : list Job) (v : Assignment).

Lemma maximum_is_Some (l : list Z) : l ≠ [] → is_Some (recheck.maximum l).
Proof. destruct l; [done | simpl; eauto]. Qed.

Lemma last_op_lookup jobs j (job : Job) :
  jobs !! j = Some job → job ≠ [] →
  ∃ op, ops jobs !! (offset jobs j + length job - 1)%nat = Some op.
Proof.
  intros Hj Hjob.
  assert (is_Some (job !! (length job - 1)%nat)) as [[m d] Hk].
  { apply lookup_lt_is_Some. destruct job; [done | simpl; lia]. }
  eexists.
  replace (offset jobs j + length job - 1)%nat
    with (offset jobs j + (length job - 1))%nat
    by (destruct job; [done | simpl; lia]).
  apply ops_lookup_task, (task_at_intro jobs j _ job _ Hj Hk).
Qed.

(** The recomputed makespan of the cut-down schedule. *)
Lemma shrunk_makespan jobs v :
  jobs ≠ [] →
  (∀ j (job : Job), jobs !! j = Some job →
     shrunk_value jobs v (end_of (offset jobs j + length job - 1))
     ≤ shrunk jobs v (makespan_of jobs))
  ∧ ∃ j (job : Job), jobs !! j = Some job
      ∧ shrunk_value jobs v (end_of (offset jobs j + length job - 1))
        = shrunk jobs v (makespan_of jobs).
Proof.
  intros Hjobs. unfold shrunk. rewrite !decide_True by done.
  destruct (maximum_is_Some (shrunk_value jobs v <$> lasts_from 0 jobs))
    as [M HM].
  { destruct jobs; [done|]. simpl. done. }
  rewrite HM. simpl. apply maximum_bounds in HM as [Hin Hub]. split.
  - intros j job Hj. apply Hub, list_elem_of_fmap. eexists. split; [done|].
    apply elem_of_lasts_from. exists j, job. by rewrite Nat.add_0_l.
  - apply list_elem_of_fmap in Hin as (x & -> & Hx).
    apply elem_of_lasts_from in Hx as (j & job & Hj & ->).
    exists j, job. by rewrite Nat.add_0_l.
Qed.

(** One task of [jobs] in a schedule of the longer tasks. *)
Lemma shrunk_op jobs jobs' v p op :
  stretched jobs jobs' →
  Forall (Forall (λ task : Task, 0 ≤ task.2)) jobs →
  scheduled jobs' v →
  ops jobs !! p = Some op →
  shrunk jobs v (start_of p) = v (start_of p)
  ∧ shrunk jobs v (end_of p) = v (start_of p) + op_duration op
  ∧ shrunk_value jobs v (end_of p) = v (start_of p) + op_duration op
  ∧ 0 ≤ v (start_of p)
  ∧ 0 ≤ op_duration op
  ∧ v (start_of p) + op_duration op ≤ v (end_of p)
  ∧ v (end_of p) ≤ v (makespan_of jobs').
Proof.
  intros Hle Hdur Hs Hp.
  assert (Hpos := ops_durations_nonneg jobs Hdur).
  assert (Hops := stretched_ops jobs jobs' Hle).
  destruct (Forall2_lookup_l _ _ _ _ _ Hops Hp) as (op' & Hp' & _ & _ & _ & Hd).
  assert (Hpos' : ∀ q oq, ops jobs' !! q = Some oq → 0 ≤ op_duration oq).
  { intros q oq Hq.
    destruct (Forall2_lookup_r _ _ _ _ _ Hops Hq) as (oq0 & Hq0 & _ & _ & _ & ?).
    specialize (Hpos q oq0 Hq0). lia. }
  pose proof (sch_bounds _ _ Hs _ _ Hp') as [[B0 _] _].
  pose proof (sch_duration _ _ Hs _ _ Hp') as D.
  pose proof (ends_before_makespan jobs' v p op' Hs Hpos' Hp') as E.
  specialize (Hpos p op Hp).
  rewrite (shrunk_start jobs v p op Hp), (shrunk_end jobs v p op Hp),
    (shrunk_value_end jobs v p op Hp).
  repeat split; lia.
Qed.

(** A schedule of the longer tasks that ends by the horizon of [jobs]
    gives a schedule of [jobs] that ends no later. *)
Lemma shrunk_scheduled jobs jobs' v :
  stretched jobs jobs' →
  Forall (λ job : Job, job ≠ []) jobs →
  Forall (Forall (λ task : Task, 0 ≤ task.2)) jobs →
  scheduled jobs' v →
  v (makespan_of jobs') ≤ horizon jobs →
  scheduled jobs (shrunk jobs v)
  ∧ shrunk jobs v (makespan_of jobs) ≤ v (makespan_of jobs').
Proof.
  intros Hle Hne Hdur Hs Hmk.
  assert (Hop := λ p op, shrunk_op jobs jobs' v p op Hle Hdur Hs).
  assert (jobs ≠ []) as Hjobs.
  { destruct (sch_makespan_attained _ _ Hs) as (j & job' & Hj' & _).
    intros ->. apply Forall2_nil_inv_l in Hle. by subst. }
  destruct (shrunk_makespan jobs v Hjobs) as [Hub (j0 & job0 & Hj0 & Hatt)].
  assert (Hlast : ∀ j (job : Job), jobs !! j = Some job →
            ∃ op, ops jobs !! (offset jobs j + length job - 1)%nat = Some op).
  { intros j job Hj. apply last_op_lookup; [done|].
    eapply Forall_forall in Hne; [done|]. by eapply list_elem_of_lookup_2. }
  assert (Hmk_le : shrunk jobs v (makespan_of jobs) ≤ v (makespan_of jobs')).
  { destruct (Hlast j0 job0 Hj0) as [op Hp].
    destruct (Hop _ _ Hp) as (_ & _ & E & _ & _ & ? & ?). lia. }
  split; [|done]. split.
  - intros p op Hp. destruct (Hop p op Hp) as (-> & -> & _ & ? & ? & ? & ?). lia.
  - intros p op Hp. by destruct (Hop p op Hp) as (-> & -> & _).
  - intros p q op oq Hlt Hp Hq Hm Hin.
    destruct (Hop p op Hp) as (-> & -> & _ & _ & _ & ? & _).
    destruct (Hop q oq Hq) as (-> & -> & _ & _ & _ & ? & _).
    assert (Hops := stretched_ops jobs jobs' Hle).
    destruct (Forall2_lookup_l _ _ _ _ _ Hops Hp) as (op' & Hp' & _ & _ & Hm1 & _).
    destruct (Forall2_lookup_l _ _ _ _ _ Hops Hq) as (oq' & Hq' & _ & _ & Hm2 & _).
    rewrite (stretched_all_machines jobs jobs' Hle) in Hin.
    destruct (sch_machine _ _ Hs p q op' oq' Hlt Hp' Hq') as [?|?];
      [congruence | congruence | lia | lia].
  - intros j job k Hj Hk.
    destruct (stretched_lookup jobs jobs' j job Hle Hj) as (job' & Hj' & Hlen).
    pose proof (sch_precedence _ _ Hs j job' k Hj' ltac:(lia)) as Hp.
    rewrite <- (stretched_offset jobs jobs' j Hle) in Hp.
    assert (is_Some (job !! k)) as [[m d] Ht].
    { apply lookup_lt_is_Some. lia. }
    assert (is_Some (job !! (k + 1)%nat)) as [[m1 d1] Ht1].
    { apply lookup_lt_is_Some. lia. }
    pose proof (ops_lookup_task jobs j k m d
                  (task_at_intro jobs j _ job _ Hj Ht)) as Hpk.
    pose proof (ops_lookup_task jobs j (k + 1) m1 d1
                  (task_at_intro jobs j _ job _ Hj Ht1)) as Hpk1.
    rewrite Nat.add_assoc in Hpk1.
    destruct (Hop _ _ Hpk) as (_ & -> & _ & _ & _ & ? & _).
    destruct (Hop _ _ Hpk1) as (-> & _). lia.
  - destruct (Hlast j0 job0 Hj0) as [op Hp].
    destruct (Hop _ _ Hp) as (_ & _ & E & ? & ? & ? & ?). lia.
  - intros j job Hj. destruct (Hlast j job Hj) as [op Hp].
    destruct (Hop _ _ Hp) as (_ & -> & <- & _). by apply Hub.
  - exists j0, job0. split; [done|]. destruct (Hlast j0 job0 Hj0) as [op Hp].
    destruct (Hop _ _ Hp) as (_ & -> & <- & _). done.
Qed.

(** Longer tasks never give a smaller optimum. *)
Lemma stretched_optimum jobs jobs' v v' :
  stretched jobs jobs' →
  jobs ≠ [] →
  Forall (λ job : Job, job ≠ []) jobs →
  Forall (Forall (λ task : Task, 0 ≤ task.2)) jobs →
  scheduled jobs v →
  (∀ w, scheduled jobs w → v (makespan_of jobs) ≤ w (makespan_of jobs)) →
  scheduled jobs' v' →
  v (makespan_of jobs) ≤ v' (makespan_of jobs').
Proof.
  intros Hle Hjobs Hne Hdur Hv Hmin Hv'.
  destruct (decide (v' (makespan_of jobs') ≤ horizon jobs)) as [Hsmall|Hbig].
  - destruct (shrunk_scheduled jobs jobs' v' Hle Hne Hdur Hv' Hsmall) as [Hw Hle'].
    specialize (Hmin _ Hw). lia.
  - specialize (Hmin _ (serial_scheduled jobs Hjobs Hne Hdur)).
    rewrite serial_makespan in Hmin. lia.
Qed.

End shrink.

Section optimum.
Import Py cp_model jssp layout spec stretch.

Lemma lengthen_stretched jobs j k delta :
  0 ≤ delta → stretched jobs (lengthen jobs j k delta).
Proof.
  intros Hdelta. unfold stretched, lengthen.
  assert (Hrefl : ∀ job : Job, Forall2 task_le job job).
  { intros job. apply Forall_Forall2_diag, Forall_forall. by intros t _. }
  apply Forall2_alter_r.
  - apply Forall_Forall2_diag, Forall_forall. intros job _. apply Hrefl.
  - intros job job' _ _ Hjob. apply Forall2_alter_r; [done|].
    intros t t' _ _ [Hm Hd]. split; simpl; [done | lia].
Qed.

Lemma optimal_makespan_inv jobs M :
  optimal_makespan jobs M →
  Forall (λ job : Job, job ≠ []) jobs
  ∧ ∃ v, scheduled jobs v ∧ Py.float (v (makespan_of jobs)) = M
         ∧ ∀ w, scheduled jobs w → v (makespan_of jobs) ≤ w (makespan_of jobs).
Proof.
  intros (b & v & (Hne & _ & ->)%build_model_inv & Hsolve & <-).
  split; [done|]. cbn [built_model] in *. exists v.
  inversion Hsolve as [v0 Hv Hmin| | | |]; subst.
  split; [by apply feasible_scheduled|]. split; [done|].
  intros w Hw%feasible_scheduled. apply (Hmin w Hw).
Qed.

Lemma valid_problem_inv jobs :
  valid_problem jobs →
  jobs ≠ [] ∧ Forall (λ job : Job, job ≠ []) jobs
  ∧ Forall (Forall (λ task : Task, 0 ≤ task.2)) jobs.
Proof.
  intros [Hjobs Hall]. split; [done|]. split.
  - eapply Forall_impl; [exact Hall|]. by intros job [? _].
  - eapply Forall_impl; [exact Hall|]. intros job [_ Htasks].
    eapply Forall_impl; [exact Htasks|]. intros t [? _]. simpl in *. lia.
Qed.

(** A problem with one task: no schedule ends before the task is done. *)
Lemma single_task_least (machine duration : Z) w :
  scheduled [[(machine, duration)]] w →
  duration ≤ w (makespan_of [[(machine, duration)]]).
Proof.
  intros [Hb Hdw _ _ _ Hub _].
  pose proof (Hb 0%nat _ eq_refl) as [[B0 _] _].
  pose proof (Hdw 0%nat _ eq_refl) as D0.
  pose proof (Hub 0%nat _ eq_refl) as U0.
  simpl in D0.
  change (w (end_of 0) ≤ w (makespan_of [[(machine, duration)]])) in U0. lia.
Qed.

(** A run on a problem with one task. *)
Lemma single_task_run (machine duration : Z) :
  0 ≤ duration ≤ 2 ^ 60 →
  run [[(machine, duration)]] false
    (Ok (SolutionFound OPTIMAL (Py.float duration)
           (shown [[(machine, duration)]] (serial [[(machine, duration)]])))).
Proof.
  intros Hd. set (jobs := [[(machine, duration)]]).
  assert (Hne : Forall (λ job : Job, job ≠ []) jobs) by (repeat constructor; done).
  assert (Hdur : Forall (Forall (λ task : Task, 0 ≤ task.2)) jobs)
    by (repeat constructor; simpl; lia).
  assert (HH : horizon jobs = duration).
  { change (horizon jobs) with (0 + duration). lia. }
  assert (Hfit : fits_int64 jobs).
  { apply bounded_fits; [done|]. rewrite HH. lia. }
  assert (Hs := serial_scheduled jobs ltac:(done) Hne Hdur).
  unfold run. rewrite (build_model_ok jobs Hne Hfit). cbn [built_model].
  exists OPTIMAL, (serial jobs). split.
  - apply Solve_optimal; [by apply feasible_scheduled|].
    intros w Hw%feasible_scheduled.
    change (serial jobs (makespan_of jobs) ≤ w (makespan_of jobs)).
    rewrite serial_makespan, HH. by apply single_task_least.
  - rewrite display_solution by by left. by rewrite serial_makespan, HH.
Qed.

(** A problem with one task: the optimum is the duration of the task. *)
Lemma single_task_optimum (machine duration : Z) :
  0 ≤ duration ≤ 2 ^ 53 → optimal_makespan [[(machine, duration)]] duration.
Proof.
  intros Hd. set (jobs := [[(machine, duration)]]).
  assert (Hne : Forall (λ job : Job, job ≠ []) jobs) by (repeat constructor; done).
  assert (Hdur : Forall (Forall (λ task : Task, 0 ≤ task.2)) jobs)
    by (repeat constructor; simpl; lia).
  assert (HH : horizon jobs = duration).
  { change (horizon jobs) with (0 + duration). lia. }
  assert (Hfit : fits_int64 jobs).
  { apply bounded_fits; [done|]. rewrite HH. lia. }
  assert (Hs := serial_scheduled jobs ltac:(done) Hne Hdur).
  exists (MkBuilt (model_of jobs) (tasks_of jobs) (makespan_of jobs)), (serial jobs).
  split; [by apply build_model_ok|]. cbn [built_model].
  split; [apply Solve_optimal|].
  - by apply feasible_scheduled.
  - intros w Hw%feasible_scheduled.
    change (serial jobs (makespan_of jobs) ≤ w (makespan_of jobs)).
    rewrite serial_makespan, HH. by apply single_task_least.
  - change (Py.float (serial jobs (makespan_of jobs)) = duration).
    rewrite serial_makespan, HH. apply float_small. lia.
Qed.

End optimum.

Section rhyme_facts.
Import rhyme_helper.

Lemma append_cons a (s t : string) : String a s +:+ t = String a (s +:+ t).
Proof. reflexivity. Qed.

Lemma append_nil_l (s : string) : "" +:+ s = s.
Proof. reflexivity. Qed.

Lemma append_nil_r (s : string) : s +:+ "" = s.
Proof. induction s as [|a s IH]; [done|]. by rewrite append_cons, IH. Qed.

Lemma append_assoc (s t u : string) : (s +:+ t) +:+ u = s +:+ (t +:+ u).
Proof. induction s as [|a s IH]; [done|]. by rewrite !append_cons, IH. Qed.

Lemma fold_left_append {A} (f : A → string) (l : list A) (acc : string) :
  fold_left (λ scheme it, scheme +:+ f it) l acc = acc +:+ join (f <$> l).
Proof.
  revert acc. induction l as [|x l IH]; intros acc; simpl.
  - by rewrite append_nil_r.
  - rewrite IH. apply append_assoc.
Qed.

Lemma enumerate_lines (start : nat) (l : list string) :
  (λ it : Z * string, Py.str it.1 +:+ ": " +:+ it.2 +:+ newline)
    <$> Py.enumerate (Z.of_nat start + 1) l
  = imap (λ i, scheme_line (start + i)) l.
Proof.
  revert start. induction l as [|x l IH]; intros start; [done|].
  cbn [Py.enumerate fmap list_fmap imap]. f_equal.
  - unfold scheme_line. simpl. by rewrite Nat.add_0_r.
  - replace (Z.of_nat start + 1 + 1) with (Z.of_nat (S start) + 1) by lia.
    rewrite (IH (S start)). apply imap_ext. intros i y _. simpl.
    f_equal. lia.
Qed.

Lemma generate_nonempty rhymes word n :
  rhymes word ≠ [] →
  generate_rhyming_scheme rhymes word n
  = join (imap scheme_line (Py.slice_to (rhymes word) n)).
Proof.
  intros Hne. unfold generate_rhyming_scheme.
  destruct (rhymes word) as [|r found]; [done|].
  rewrite fold_left_append, append_nil_l.
  by rewrite (enumerate_lines 0).
Qed.

End rhyme_facts.

(** ** Solutions of the model are schedules *)

Section schedules.
Import Py cp_model jssp layout spec stretch.

Lemma scheduled_is_schedule jobs v :
  valid_problem jobs → scheduled jobs v →
  is_schedule jobs (starts jobs v)
  ∧ has_makespan jobs (starts jobs v) (v (makespan_of jobs)).
Proof.
  intros Hvalid Hs.
  destruct (valid_problem_inv jobs Hvalid) as (Hjobs & Hne & Hdur).
  destruct Hvalid as [_ Hall].
  assert (Hmach : ∀ j k m d, task_at jobs j k = Some (m, d) → 0 ≤ m).
  { intros j k m d Ht. unfold task_at in Ht.
    destruct (jobs !! j) as [job|] eqn:Hj; [|done]. simpl in Ht.
    apply list_elem_of_lookup_2 in Hj, Ht.
    eapply Forall_forall in Hall as [_ Hall]; [|exact Hj].
    eapply Forall_forall in Hall as [_ Hall]; [|exact Ht]. done. }
  unfold starts. split; [split; [|split]|split].
  - intros j k [m d] Ht.
    by destruct (sch_bounds _ _ Hs _ _ (ops_lookup_task jobs j k m d Ht))
      as [[? _] _].
  - intros j k [m d] [m' d'] Ht Ht'. simpl.
    rewrite (scheduled_duration jobs v j k m d Hs Ht).
    destruct (task_at_lt _ _ _ _ Ht') as (job & Hj & Hlt).
    pose proof (sch_precedence _ _ Hs j job k Hj Hlt) as Hp.
    by replace (offset jobs j + S k)%nat with (offset jobs j + k + 1)%nat by lia.
  - intros j k j' k' [m d] [m' d'] Hne' Ht Ht' Hm. simpl in *. subst m'.
    rewrite (scheduled_duration jobs v j k m d Hs Ht).
    rewrite (scheduled_duration jobs v j' k' m d' Hs Ht').
    apply (scheduled_machine jobs v j k j' k' m d d' Hs); try done.
    by eapply referenced_in_all_machines, Hmach.
  - intros j k [m d] Ht. simpl.
    rewrite (scheduled_duration jobs v j k m d Hs Ht).
    apply (ends_before_makespan jobs v _ _ Hs (ops_durations_nonneg jobs Hdur)
             (ops_lookup_task jobs j k m d Ht)).
  - destruct (sch_makespan_attained _ _ Hs) as (j & job & Hj & Hatt).
    assert (job ≠ []) as Hjob.
    { eapply Forall_forall in Hne; [done|]. by eapply list_elem_of_lookup_2. }
    assert (is_Some (job !! (length job - 1)%nat)) as [[m d] Hk].
    { apply lookup_lt_is_Some. destruct job; [done | simpl; lia]. }
    pose proof (task_at_intro jobs j _ job _ Hj Hk) as Ht.
    exists j, (length job - 1)%nat, (m, d). split; [done|]. simpl.
    rewrite (scheduled_duration jobs v j _ m d Hs Ht), <- Hatt.
    do 2 f_equal. destruct job; [done | simpl; lia].
Qed.

End schedules.

(** ** The schedule that a run shows *)


(** C2: in any schedule shown as a solution, a task of a job ends no later
    than the next task of that job starts; and the schedule has an entry
    for every task. *)
Theorem precedence_in_returned_schedule
    (jobs : list jssp.Job) (limited : bool) (status : cp_model.CpSolverStatus)
    (makespan : Z) (assigned : gmap Z (list jssp.Assigned)) :
  jssp.run jobs limited (Py.Ok (jssp.SolutionFound status makespan assigned)) →
  (∀ machine machine' r r',
     r ∈ assigned !!! machine → r' ∈ assigned !!! machine' →
     jssp.a_job r' = jssp.a_job r → jssp.a_task r' = jssp.a_task r + 1 →
     jssp.a_end r ≤ jssp.a_start r')
  ∧ (∀ j k (t t' : jssp.Task),
       layout.task_at jobs j k = Some t →
       layout.task_at jobs j (S k) = Some t' →
       ∃ r r', r ∈ assigned !!! t.1 ∧ r' ∈ assigned !!! t'.1
               ∧ jssp.a_job r = j ∧ jssp.a_task r = Z.of_nat k
               ∧ jssp.a_job r' = j ∧ jssp.a_task r' = Z.of_nat k + 1
               ∧ jssp.a_end r ≤ jssp.a_start r').
Proof.
  intros (v & _ & _ & _ & Hs & _ & ->)%run_solution.
  assert (Hprec : ∀ j k t', layout.task_at jobs j (S k) = Some t' →
            v (layout.end_of (layout.offset jobs j + k))
            ≤ v (layout.start_of (layout.offset jobs j + S k))).
  { intros j k t' (job & Hj & Hlt)%task_at_lt.
    replace (layout.offset jobs j + S k)%nat
      with (layout.offset jobs j + k + 1)%nat by lia.
    apply (layout.sch_precedence _ _ Hs j job k Hj Hlt). }
  split.
  - intros machine machine' r r'.
    intros (j & k & d & Ht & ->)%shown_entry (j' & k' & d' & Ht' & ->)%shown_entry.
    simpl. intros -> Hk. assert (k' = S k) as -> by lia. by eapply Hprec.
  - intros j k [m d] [m' d'] Ht Ht'.
    exists (layout.op_record v (layout.offset jobs j + k)
              (layout.MkOp j (Z.of_nat k) m d)),
           (layout.op_record v (layout.offset jobs j + S k)
              (layout.MkOp j (Z.of_nat (S k)) m' d')).
    split; [|split].
    + apply elem_of_assigned.
      exists (layout.offset jobs j + k)%nat, (layout.MkOp j (Z.of_nat k) m d).
      split; [by apply ops_lookup_task | done].
    + apply elem_of_assigned.
      exists (layout.offset jobs j + S k)%nat,
             (layout.MkOp j (Z.of_nat (S k)) m' d').
      split; [by apply ops_lookup_task | done].
    + simpl. split; [done|]. split; [done|]. split; [done|].
      split; [lia|]. by eapply Hprec.
Qed.

Lemma precedence_in_returned_schedule_witness :
  jssp.a_end (jssp.MkAssigned 1 1 5 6 1) ≤ jssp.a_start (jssp.MkAssigned 1 2 6 10 4).
Proof.
  refine (proj1 (precedence_in_returned_schedule jssp.jobs_data false
                   cp_model.OPTIMAL 11
                   (layout.shown jssp.jobs_data layout.schedule_11)
                   jobs_data_run) 2 1
            (jssp.MkAssigned 1 1 5 6 1) (jssp.MkAssigned 1 2 6 10 4) _ _ _ _).
  - apply (bool_decide_unpack _). vm_compute. exact I.
  - apply (bool_decide_unpack _). vm_compute. exact I.
  - reflexivity.
  - reflexivity.
Defined.

(** C3: in any schedule shown as a solution, two distinct tasks on the same
    machine never run at the same time: their half-open intervals
    [start, end) have no point in common.  Machines are identified by ids
    that are not negative. *)
Theorem no_overlap_in_returned_schedule
    (jobs : list jssp.Job) (limited : bool) (status : cp_model.CpSolverStatus)
    (makespan : Z) (assigned : gmap Z (list jssp.Assigned)) :
  jssp.run jobs limited (Py.Ok (jssp.SolutionFound status makespan assigned)) →
  ∀ machine r r',
    0 ≤ machine →
    r ∈ assigned !!! machine → r' ∈ assigned !!! machine →
    (jssp.a_job r, jssp.a_task r) ≠ (jssp.a_job r', jssp.a_task r') →
    ∀ t, ¬ (jssp.a_start r ≤ t < jssp.a_end r
            ∧ jssp.a_start r' ≤ t < jssp.a_end r').
Proof.
  intros (v & _ & _ & _ & Hs & _ & ->)%run_solution machine r r' Hm.
  intros (j & k & d & Ht & ->)%shown_entry (j' & k' & d' & Ht' & ->)%shown_entry.
  simpl. intros Hne t.
  assert ((j, k) ≠ (j', k')) as Hne' by (intros [= -> ->]; done).
  pose proof (referenced_in_all_machines jobs j k machine d Ht Hm) as Hin.
  destruct (scheduled_machine jobs v j k j' k' machine d d' Hs Hin Ht Ht' Hne');
    lia.
Qed.

Lemma no_overlap_in_returned_schedule_witness :
  ¬ (jssp.a_start (jssp.MkAssigned 2 0 0 4 4) ≤ 3
       < jssp.a_end (jssp.MkAssigned 2 0 0 4 4)
     ∧ jssp.a_start (jssp.MkAssigned 0 1 4 6 2) ≤ 3
       < jssp.a_end (jssp.MkAssigned 0 1 4 6 2)).
Proof.
  refine (no_overlap_in_returned_schedule jssp.jobs_data false cp_model.OPTIMAL 11
            (layout.shown jssp.jobs_data layout.schedule_11)
            jobs_data_run 1
            (jssp.MkAssigned 2 0 0 4 4) (jssp.MkAssigned 0 1 4 6 2) _ _ _ _ 3).
  - lia.
  - apply (bool_decide_unpack _). vm_compute. exact I.
  - apply (bool_decide_unpack _). vm_compute. exact I.
  - simpl. intros [= ?].
Defined.

Section recomputation.
Import Py cp_model jssp layout recheck.

Lemma elem_of_entries (A : gmap Z (list Assigned)) r :
  r ∈ entries A ↔ ∃ machine, r ∈ A !!! machine.
Proof.
  unfold entries. rewrite list_elem_of_bind. split.
  - intros ([machine l] & Hr & Hl%elem_of_map_to_list). exists machine.
    by rewrite lookup_total_alt, Hl.
  - intros (machine & Hr). rewrite lookup_total_alt in Hr.
    destruct (A !! machine) as [l|] eqn:Hl; [|by apply elem_of_nil in Hr].
    exists (machine, l). split; [done|]. by apply elem_of_map_to_list.
Qed.

Lemma elem_of_shown_entries jobs v r :
  r ∈ entries (shown jobs v)
  ↔ ∃ j k m d, task_at jobs j k = Some (m, d)
               ∧ r = MkAssigned j (Z.of_nat k)
                       (v (start_of (offset jobs j + k)))
                       (v (end_of (offset jobs j + k))) d.
Proof.
  rewrite elem_of_entries. split.
  - intros (machine & (j & k & d & Ht & ->)%shown_entry). by exists j, k, machine, d.
  - intros (j & k & m & d & Ht & ->). exists m. apply elem_of_assigned.
    exists (offset jobs j + k)%nat, (MkOp j (Z.of_nat k) m d).
    split; [by apply ops_lookup_task | done].
Qed.

Lemma is_last_shown jobs v j k m d (job : Job) :
  jobs !! j = Some job → job !! k = Some (m, d) →
  is_last (entries (shown jobs v))
    (MkAssigned j (Z.of_nat k) (v (start_of (offset jobs j + k)))
       (v (end_of (offset jobs j + k))) d) = true
  ↔ S k = length job.
Proof.
  intros Hj Hk. unfold is_last. rewrite negb_true_iff.
  assert (k < length job)%nat as Hlt by by eapply lookup_lt_Some.
  split.
  - intros Hnone. destruct (decide (S k = length job)) as [|Hne]; [done|].
    assert (is_Some (job !! S k)) as [[m' d'] Hk'].
    { apply lookup_lt_is_Some. lia. }
    assert (existsb (later_in_job (MkAssigned j (Z.of_nat k)
               (v (start_of (offset jobs j + k)))
               (v (end_of (offset jobs j + k))) d))
              (entries (shown jobs v)) = true) as Hex; [|congruence].
    apply existsb_elem_of.
    exists (MkAssigned j (Z.of_nat (S k)) (v (start_of (offset jobs j + S k)))
              (v (end_of (offset jobs j + S k))) d').
    split.
    + apply elem_of_shown_entries. exists j, (S k), m', d'.
      split; [|done]. by apply (task_at_intro jobs j (S k) job).
    + apply bool_decide_eq_true. simpl. lia.
  - intros Hlast. apply not_true_is_false. intros Hex.
    apply existsb_elem_of in Hex as (r' & Hr' & Hlater).
    apply elem_of_shown_entries in Hr' as (j' & k' & m' & d' & Ht' & ->).
    apply bool_decide_eq_true in Hlater. simpl in Hlater.
    destruct Hlater as [-> Hk'].
    apply task_at_lt in Ht' as (job' & Hj' & Hlt').
    assert (job' = job) as -> by congruence. lia.
Qed.

(** The greatest end among the last tasks of the jobs of a schedule that
    is shown is the value that the solver holds for the makespan. *)
Lemma shown_recomputed jobs v :
  Forall (λ job : Job, job ≠ []) jobs → scheduled jobs v →
  recomputed_makespan (shown jobs v) = Some (v (makespan_of jobs)).
Proof.
  intros Hne Hs.
  unfold recomputed_makespan. apply maximum_spec.
  - destruct (sch_makespan_attained _ _ Hs) as (j & job & Hj & <-).
    assert (job ≠ []) as Hjob.
    { eapply Forall_forall in Hne; [done|]. by eapply list_elem_of_lookup_2. }
    assert (is_Some (job !! (length job - 1)%nat)) as [[m d] Hk].
    { apply lookup_lt_is_Some. destruct job; [done | simpl; lia]. }
    apply list_elem_of_fmap.
    exists (MkAssigned j (Z.of_nat (length job - 1))
              (v (start_of (offset jobs j + (length job - 1))))
              (v (end_of (offset jobs j + (length job - 1)))) d).
    split.
    + simpl. f_equal. f_equal. destruct job; [done | simpl; lia].
    + apply list_elem_of_filter. split.
      * apply Is_true_true, (is_last_shown jobs v j _ m d job Hj Hk).
        destruct job; [done | simpl; lia].
      * apply elem_of_shown_entries. exists j, (length job - 1)%nat, m, d.
        split; [|done]. by apply (task_at_intro jobs j _ job).
  - intros x (r & -> & [Hlast Hr]%list_elem_of_filter)%list_elem_of_fmap.
    apply elem_of_shown_entries in Hr as (j & k & m & d & Ht & ->).
    destruct (task_at_lt _ _ _ _ Ht) as (job & Hj & Hlt).
    assert (Hk := task_at_inv jobs j k job (m, d) Hj Ht).
    apply Is_true_true in Hlast.
    apply (is_last_shown jobs v j k m d job Hj Hk) in Hlast.
    simpl. replace (offset jobs j + k)%nat
      with (offset jobs j + length job - 1)%nat by lia.
    by apply (sch_makespan_ub _ _ Hs).
Qed.

End recomputation.

(** C4: the makespan reported with a schedule is the float of the greatest
    end time of the last tasks of the jobs, recomputed from the entries
    that are shown: equal to it when that end time is at most 2^53, and
    the nearest float otherwise. *)
Theorem reported_makespan_recomputed
    (jobs : list jssp.Job) (limited : bool) (status : cp_model.CpSolverStatus)
    (makespan : Z) (assigned : gmap Z (list jssp.Assigned)) :
  jssp.run jobs limited (Py.Ok (jssp.SolutionFound status makespan assigned)) →
  ∃ M, recheck.recomputed_makespan assigned = Some M
       ∧ makespan = Py.float M
       ∧ (M ≤ 2 ^ 53 → makespan = M).
Proof.
  intros (v & Hne & _ & _ & Hs & -> & ->)%run_solution.
  exists (v (layout.makespan_of jobs)).
  split; [by apply shown_recomputed|]. split; [done|].
  intros HM. apply float_small.
  pose proof (layout.sch_makespan_bounds _ _ Hs). lia.
Qed.

Lemma reported_makespan_recomputed_witness :
  ∃ M, recheck.recomputed_makespan
         (layout.shown jssp.jobs_data layout.schedule_11) = Some M
       ∧ 11 = Py.float M
       ∧ (M ≤ 2 ^ 53 → 11 = M).
Proof.
  exact (reported_makespan_recomputed jssp.jobs_data false cp_model.OPTIMAL 11
           (layout.shown jssp.jobs_data layout.schedule_11) jobs_data_run).
Defined.

(** C4 as stated fails: with one task of duration 2^53 + 1 the
    schedule that is shown ends at 2^53 + 1, and the makespan reported with
    it is 2^53. *)
Lemma reported_makespan_is_rounded :
  ∃ assigned,
    jssp.run [[(0, 2 ^ 53 + 1)]] false
      (Py.Ok (jssp.SolutionFound cp_model.OPTIMAL (2 ^ 53) assigned))
    ∧ recheck.recomputed_makespan assigned = Some (2 ^ 53 + 1)
    ∧ 2 ^ 53 ≠ 2 ^ 53 + 1.
Proof.
  eexists. split; [|split].
  - exact (single_task_run 0 (2 ^ 53 + 1) ltac:(lia)).
  - apply shown_recomputed; [repeat constructor; done|].
    apply serial_scheduled; repeat constructor; simpl; done.
  - lia.
Qed.

(** C1: for the literal [jobs_data] the least makespan of a schedule that
    keeps the order within each job and never runs two tasks of a machine
    at once is 11; it is also the least objective value of the model that
    the program builds, and every run of the program reports it, with
    status OPTIMAL. *)
Theorem optimal_makespan_is_11 :
  ((∃ start, spec.is_schedule jssp.jobs_data start
             ∧ spec.has_makespan jssp.jobs_data start 11)
   ∧ ∀ start M, spec.is_schedule jssp.jobs_data start →
                spec.has_makespan jssp.jobs_data start M → 11 ≤ M)
  ∧ ∃ b, jssp.build_model jssp.jobs_data = Py.Ok b
         ∧ (∃ v, cp_model.feasible (jssp.built_model b) v = true
                 ∧ cp_model.objective_value (jssp.built_model b) v = 11)
         ∧ (∀ v, cp_model.feasible (jssp.built_model b) v = true →
                 11 ≤ cp_model.objective_value (jssp.built_model b) v)
         ∧ (∃ r, jssp.solve_simple_jssp r)
         ∧ (∀ r, jssp.solve_simple_jssp r →
                 ∃ assigned,
                   r = Py.Ok (jssp.SolutionFound cp_model.OPTIMAL 11 assigned)).
Proof.
  split.
  { split.
    - exists (spec.starts jssp.jobs_data layout.schedule_11).
      apply (scheduled_is_schedule jssp.jobs_data layout.schedule_11 jobs_data_valid).
      apply feasible_scheduled, jobs_data_feasible.
    - apply jobs_data_schedule_lower_bound. }
  eexists.
  split; [apply (build_model_ok _ jobs_data_nonempty jobs_data_fits)|].
  cbn [jssp.built_model].
  split; [|split; [|split]].
  - exists layout.schedule_11. split; [apply jobs_data_feasible | reflexivity].
  - intros v Hv%feasible_scheduled.
    apply jobs_data_lower_bound in Hv.
    change 11 with (Py.float 11) at 1. apply float_mono.
    unfold cp_model.objective_of, layout.model_of.
    cbn [cp_model.objective]. lia.
  - eexists. unfold jssp.solve_simple_jssp. apply jobs_data_run.
  - intros r. unfold jssp.solve_simple_jssp, jssp.run.
    rewrite (build_model_ok _ jobs_data_nonempty jobs_data_fits).
    cbn [jssp.built_model].
    intros (status & v & Hsolve & ->).
    destruct Hsolve as [v Hv Hmin| |v Hnone|v Hinvalid|]; try done.
    + rewrite display_solution by by left. eexists. do 2 f_equal.
      assert (v (layout.makespan_of jssp.jobs_data) = 11) as ->; [|done].
      apply Z.le_antisymm.
      * apply (Hmin layout.schedule_11 jobs_data_feasible).
      * apply feasible_scheduled in Hv. by apply jobs_data_lower_bound.
    + assert (Hf := jobs_data_feasible). by rewrite Hnone in Hf.
    + by destruct Hinvalid as [Hinv|Hinv]; vm_compute in Hinv.
Qed.

(** ** Claims about the input and the variables *)

(** C5, as the program behaves: nothing about the input is checked by the
    program itself.  Building the model succeeds exactly when no job is
    empty and the horizon and the durations are 64-bit integers.  With
    such numbers it fails when some job is empty, with the [KeyError] of
    the look-up of that job's last task and before the solver is called;
    with a horizon that is not a 64-bit integer it fails with the
    [TypeError] of the first variable that is created. *)
Theorem build_model_fails_iff_empty_job (jobs : list jssp.Job) :
  ((∃ b, jssp.build_model jobs = Py.Ok b)
   ↔ Forall (λ job : jssp.Job, job ≠ []) jobs ∧ layout.fits_int64 jobs)
  ∧ (layout.fits_int64 jobs →
     Exists (λ job : jssp.Job, job = []) jobs →
     ∃ job_id, jobs !! job_id = Some []
               ∧ jssp.build_model jobs = Py.Raise (Py.KeyError job_id (-1))
               ∧ ∀ limited r, jssp.run jobs limited r →
                              r = Py.Raise (Py.KeyError job_id (-1)))
  ∧ (cp_model.int64 (jssp.horizon jobs) = false →
     jssp.build_model jobs = Py.Raise Py.TypeError
     ∧ ∀ limited r, jssp.run jobs limited r → r = Py.Raise Py.TypeError).
Proof.
  split; [|split].
  - split.
    + intros [b (Hne & Hfit & _)%build_model_inv]. done.
    + intros [Hne Hfit]. eexists. by apply build_model_ok.
  - intros Hfit Hex.
    destruct (build_model_fail jobs Hfit Hex) as (j & Hj & Hfail).
    exists j. split; [done|]. split; [done|].
    intros limited r. unfold jssp.run. by rewrite Hfail.
  - intros HH. pose proof (build_model_type_error jobs HH) as Hfail.
    split; [done|]. intros limited r. unfold jssp.run. by rewrite Hfail.
Qed.

(** C5 as stated fails: a negative machine id, or a duration 0, is not
    rejected; the model is built and, for the first input, solved. *)
Lemma malformed_input_is_accepted :
  (spec.malformed [[(-1, 5)]]
   ∧ (∃ b, jssp.build_model [[(-1, 5)]] = Py.Ok b)
   ∧ ∃ assigned,
       jssp.run [[(-1, 5)]] false
         (Py.Ok (jssp.SolutionFound cp_model.OPTIMAL 5 assigned)))
  ∧ (spec.malformed [[(0, 0)]]
     ∧ ∃ b, jssp.build_model [[(0, 0)]] = Py.Ok b).
Proof.
  split; [split; [|split]|split].
  - left. right. left. simpl. lia.
  - eexists. apply build_model_ok; [repeat constructor; done|].
    split; [reflexivity | repeat constructor].
  - eexists. exact (single_task_run (-1) 5 ltac:(lia)).
  - left. right. left. simpl. lia.
  - eexists. apply build_model_ok; [repeat constructor; done|].
    split; [reflexivity | repeat constructor].
Qed.

(** C9: the running maximum starts at 0, so when no task refers to a
    machine id above 0 (also when there is no job, or no task at all) the
    number of machines is 1. *)
Theorem num_machines_without_positive_id (jobs : list jssp.Job) :
  Forall (Forall (λ task : jssp.Task, task.1 ≤ 0)) jobs →
  jssp.max_machine_id jobs = 0 ∧ jssp.num_machines jobs = 1.
Proof.
  intros Hall. unfold jssp.num_machines.
  destruct (max_machine_id_spec jobs) as (H0 & _ & [->|(job & task & Hj & Ht & Heq)]);
    [done|].
  eapply Forall_forall in Hall; [|exact Hj].
  eapply Forall_forall in Hall; [|exact Ht].
  simpl in Hall. split; lia.
Qed.

Lemma num_machines_without_positive_id_witness :
  (jssp.max_machine_id [] = 0 ∧ jssp.num_machines [] = 1)
  ∧ (jssp.max_machine_id [[(0, 3); (-2, 1)]; []] = 0
     ∧ jssp.num_machines [[(0, 3); (-2, 1)]; []] = 1).
Proof.
  split.
  - apply (num_machines_without_positive_id []). constructor.
  - apply (num_machines_without_positive_id [[(0, 3); (-2, 1)]; []]).
    repeat constructor; simpl; lia.
Defined.




(** C7, as the program behaves: the horizon is the sum of all durations;
    when the horizon and the durations are 64-bit integers, the start and
    the end of every task are created with the domain [0, horizon], and
    otherwise the creation of the variables raises an error; in every
    solution of the model the end of a task is its start plus its
    duration. *)
Theorem horizon_domains_and_durations (jobs : list jssp.Job) :
  jssp.horizon jobs = spec.total_duration jobs
  ∧ (layout.fits_int64 jobs →
     ∃ s, jssp.create_variables jobs jssp.init = Py.Ok s
          ∧ ∀ j k machine duration,
              layout.task_at jobs j k = Some (machine, duration) →
              ∃ start_var end_var interval_var start_name end_name,
                jssp.all_tasks s !! (j, Z.of_nat k)
                = Some (start_var, end_var, interval_var)
                ∧ cp_model.variables (jssp.model s) !! start_var
                  = Some (cp_model.MkIntVar 0 (jssp.horizon jobs) start_name)
                ∧ cp_model.variables (jssp.model s) !! end_var
                  = Some (cp_model.MkIntVar 0 (jssp.horizon jobs) end_name)
                ∧ cp_model.iv_start interval_var = start_var
                ∧ cp_model.iv_size interval_var = duration
                ∧ cp_model.iv_end interval_var = end_var)
  ∧ (¬ layout.fits_int64 jobs →
     ∃ e, jssp.create_variables jobs jssp.init = Py.Raise e)
  ∧ (∀ b v, jssp.build_model jobs = Py.Ok b →
            cp_model.feasible (jssp.built_model b) v = true →
            ∀ j k machine duration,
              layout.task_at jobs j k = Some (machine, duration) →
              ∃ start_var end_var interval_var,
                jssp.built_tasks b !! (j, Z.of_nat k)
                = Some (start_var, end_var, interval_var)
                ∧ v end_var = v start_var + duration)
  ∧ (∀ limited status makespan assigned machine r,
       jssp.run jobs limited
         (Py.Ok (jssp.SolutionFound status makespan assigned)) →
       r ∈ assigned !!! machine →
       jssp.a_end r = jssp.a_start r + jssp.a_duration r).
Proof.
  split; [apply horizon_total|]. split; [|split; [|split]].
  - intros Hfit. destruct (create_variables_state jobs Hfit) as (Hs & Hm & Ht).
    eexists. split; [exact Hs|]. rewrite Hm, Ht. cbn [cp_model.variables].
    intros j k m d Htask.
    destruct (ops_protos_lookup (jssp.horizon jobs) _ _ _
                (ops_lookup_task jobs j k m d Htask)) as [Hsv Hev].
    do 5 eexists. split; [by apply tasks_lookup|].
    split; [exact Hsv|]. split; [exact Hev|]. done.
  - apply create_variables_unfit.
  - intros b v (_ & _ & ->)%build_model_inv Hv j k m d Htask.
    cbn [jssp.built_model jssp.built_tasks] in *.
    apply feasible_scheduled in Hv.
    do 3 eexists. split; [by apply tasks_lookup|].
    symmetry. by apply (scheduled_duration jobs v j k m d).
  - intros limited status makespan assigned machine r.
    intros (v & _ & _ & _ & Hs & _ & ->)%run_solution.
    intros (j & k & d & Ht & ->)%shown_entry. simpl.
    symmetry. by apply (scheduled_duration jobs v j k machine d).
Qed.

Lemma horizon_domains_and_durations_witness :
  spec.total_duration jssp.jobs_data = 21
  ∧ ∃ start_var end_var interval_var,
      layout.tasks_of jssp.jobs_data !! (1%nat, 2)
      = Some (start_var, end_var, interval_var)
      ∧ layout.schedule_11 end_var = layout.schedule_11 start_var + 4.
Proof.
  destruct (horizon_domains_and_durations jssp.jobs_data)
    as (Hsum & _ & _ & Hdur & _).
  split; [by rewrite <- Hsum|].
  exact (Hdur _ layout.schedule_11
           (build_model_ok _ jobs_data_nonempty jobs_data_fits)
           jobs_data_feasible 1%nat 2%nat 1 4 eq_refl).
Defined.

(** C7 as stated fails: with a task of duration 2^63 the horizon
    is not a 64-bit integer, and no variable is given a domain: the
    creation of the first one raises a [TypeError]. *)
Lemma no_domain_beyond_int64 :
  layout.task_at [[(0, 2 ^ 63)]] 0 0 = Some (0, 2 ^ 63)
  ∧ jssp.horizon [[(0, 2 ^ 63)]] = 2 ^ 63
  ∧ jssp.create_variables [[(0, 2 ^ 63)]] jssp.init = Py.Raise Py.TypeError
  ∧ ∀ limited r, jssp.run [[(0, 2 ^ 63)]] limited r → r = Py.Raise Py.TypeError.
Proof.
  split; [reflexivity|]. split; [reflexivity|]. split.
  - by apply create_variables_type_error.
  - intros limited r. unfold jssp.run.
    by rewrite (build_model_type_error [[(0, 2 ^ 63)]] eq_refl).
Qed.

(** C8: making one task of a valid problem longer, all else unchanged,
    never makes the optimal makespan smaller. *)
Theorem optimal_makespan_monotone
    (jobs : list jssp.Job) (j k : nat) (delta M M' : Z) :
  spec.valid_problem jobs →
  is_Some (layout.task_at jobs j k) →
  0 < delta →
  stretch.optimal_makespan jobs M →
  stretch.optimal_makespan (spec.lengthen jobs j k delta) M' →
  M ≤ M'.
Proof.
  intros (Hjobs & Hne & Hdur)%valid_problem_inv _ Hdelta.
  intros (_ & v & Hv & <- & Hmin)%optimal_makespan_inv.
  intros (_ & v' & Hv' & <- & _)%optimal_makespan_inv.
  apply float_mono. split; [apply (layout.sch_makespan_bounds _ _ Hv)|].
  apply (stretched_optimum jobs (spec.lengthen jobs j k delta) v v'); try done.
  apply lengthen_stretched. lia.
Qed.

Lemma optimal_makespan_monotone_witness :
  stretch.optimal_makespan [[(0, 1)]] 1
  ∧ stretch.optimal_makespan (spec.lengthen [[(0, 1)]] 0 0 1) 2
  ∧ 1 ≤ 2.
Proof.
  assert (H1 : stretch.optimal_makespan [[(0, 1)]] 1)
    by (apply single_task_optimum; lia).
  assert (H2 : stretch.optimal_makespan (spec.lengthen [[(0, 1)]] 0 0 1) 2)
    by (apply (single_task_optimum 0 2); lia).
  split; [exact H1|]. split; [exact H2|].
  refine (optimal_makespan_monotone [[(0, 1)]] 0 0 1 1 2 _ _ _ H1 H2).
  - split; [done|]. constructor; [|constructor]. split; [done|].
    constructor; [|constructor]. simpl. lia.
  - by eexists.
  - lia.
Defined.

(** C10: [generate_rhyming_scheme] returns the text "No rhymes found for
    the word '<word>'." exactly when the look-up finds no rhyme; otherwise,
    for [num_rhymes >= 1], it returns min(num_rhymes, number of rhymes
    found) lines, numbered from 1, one rhyme on each, in the order of the
    look-up. *)
Theorem generate_rhyming_scheme_spec
    (rhymes : string → list string) (word : string) (num_rhymes : Z) :
  (rhyme_helper.generate_rhyming_scheme rhymes word num_rhymes
   = "No rhymes found for the word '" +:+ word +:+ "'."
   ↔ rhymes word = [])
  ∧ (rhymes word ≠ [] → 1 ≤ num_rhymes →
     rhyme_helper.generate_rhyming_scheme rhymes word num_rhymes
     = rhyme_helper.join (rhyme_helper.scheme_lines (rhymes word) num_rhymes)
     ∧ length (rhyme_helper.scheme_lines (rhymes word) num_rhymes)
       = Nat.min (Z.to_nat num_rhymes) (length (rhymes word))
     ∧ ∀ (i : nat) (rhyme : string),
         (i < Z.to_nat num_rhymes)%nat → rhymes word !! i = Some rhyme →
         rhyme_helper.scheme_lines (rhymes word) num_rhymes !! i
         = Some (Py.str (Z.of_nat i + 1) +:+ ": " +:+ rhyme
                   +:+ rhyme_helper.newline)).
Proof.
  split.
  - split.
    + intros Hgen. destruct (rhymes word) as [|r found] eqn:Hfound; [done|].
      rewrite generate_nonempty in Hgen by by rewrite Hfound.
      destruct (Py.slice_to (rhymes word) num_rhymes) as [|x kept];
        cbv in Hgen; discriminate Hgen.
    + intros Hfound. unfold rhyme_helper.generate_rhyming_scheme.
      by rewrite Hfound.
  - intros Hne Hn. unfold rhyme_helper.scheme_lines.
    assert (Hkeep : take (Nat.min (Z.to_nat num_rhymes) (length (rhymes word)))
                      (rhymes word)
                    = Py.slice_to (rhymes word) num_rhymes).
    { unfold Py.slice_to. rewrite (proj2 (Z.leb_le 0 num_rhymes)) by lia.
      destruct (decide (Z.to_nat num_rhymes ≤ length (rhymes word))%nat).
      - by rewrite Nat.min_l by lia.
      - rewrite Nat.min_r by lia. by rewrite !take_ge by lia. }
    split; [|split].
    + rewrite Hkeep. by apply generate_nonempty.
    + rewrite length_imap, length_take. lia.
    + intros i rhyme Hi Hr. rewrite list_lookup_imap.
      rewrite lookup_take_lt by (apply lookup_lt_Some in Hr; lia).
      by rewrite Hr.
Qed.

Lemma generate_rhyming_scheme_spec_witness :
  rhyme_helper.generate_rhyming_scheme (λ _, ["cat"; "hat"; "bat"]) "mat" 2
  = rhyme_helper.join
      (rhyme_helper.scheme_lines ["cat"; "hat"; "bat"] 2)
  ∧ length (rhyme_helper.scheme_lines ["cat"; "hat"; "bat"] 2) = 2%nat
  ∧ ∀ (i : nat) (rhyme : string),
      (i < 2)%nat → ["cat"; "hat"; "bat"] !! i = Some rhyme →
      rhyme_helper.scheme_lines ["cat"; "hat"; "bat"] 2 !! i
      = Some (Py.str (Z.of_nat i + 1) +:+ ": " +:+ rhyme
                +:+ rhyme_helper.newline).
Proof.
  refine (proj2 (generate_rhyming_scheme_spec
                   (λ _, ["cat"; "hat"; "bat"]) "mat" 2) _ _).
  - discriminate.
  - lia.
Defined.

(** ** The horizon never hides a better schedule *)

Section true_optimum.
Import Py cp_model jssp layout spec stretch beyond.
Implicit Types (jobs : list Job) (v : Assignment).

Lemma of_starts_start jobs start M p op :
  ops jobs !! p = Some op →
  of_starts jobs start M (start_of p)
  = start (op_job op) (Z.to_nat (op_task op)).
Proof.
  intros Hp. unfold of_starts.
  rewrite decide_False
    by (apply lookup_lt_Some in Hp; unfold start_of, makespan_of; lia).
  unfold start_of at 1.
  replace (2 * p / 2)%nat with p by (apply (Nat.div_unique _ 2 p 0); lia).
  rewrite Hp, odd_start_of. lia.
Qed.

Lemma of_starts_end jobs start M p op :
  ops jobs !! p = Some op →
  of_starts jobs start M (end_of p)
  = start (op_job op) (Z.to_nat (op_task op)) + op_duration op.
Proof.
  intros Hp. unfold of_starts.
  rewrite decide_False by (unfold end_of, makespan_of; lia).
  unfold end_of at 1.
  replace ((2 * p + 1) / 2)%nat with p by (apply (Nat.div_unique _ 2 p 1); lia).
  by rewrite Hp, odd_end_of.
Qed.

Lemma of_starts_makespan jobs start M :
  of_starts jobs start M (makespan_of jobs) = M.
Proof. unfold of_starts. by rewrite decide_True. Qed.

Lemma of_starts_task jobs start M j k m d :
  task_at jobs j k = Some (m, d) →
  of_starts jobs start M (start_of (offset jobs j + k)) = start j k
  ∧ of_starts jobs start M (end_of (offset jobs j + k)) = start j k + d.
Proof.
  intros Hp%ops_lookup_task.
  rewrite (of_starts_start _ _ _ _ _ Hp), (of_starts_end _ _ _ _ _ Hp).
  simpl. by rewrite Nat2Z.id.
Qed.

(** In a schedule a job is done when its last task is. *)
Lemma schedule_job_chain jobs start j (job : Job) k i (t t' : Task) :
  Forall (Forall (λ task : Task, 0 ≤ task.2)) jobs →
  is_schedule jobs start → jobs !! j = Some job →
  job !! k = Some t → job !! (k + i)%nat = Some t' →
  start j k + t.2 ≤ start j (k + i)%nat + t'.2.
Proof.
  intros Hdur (_ & Hprec & _) Hj Hk.
  assert (Hpos : ∀ n (u : Task), job !! n = Some u → 0 ≤ u.2).
  { intros n u Hn. apply list_elem_of_lookup_2 in Hj, Hn.
    eapply Forall_forall in Hdur; [|exact Hj].
    by eapply Forall_forall in Hdur; [|exact Hn]. }
  revert t'. induction i as [|i IH]; intros t' Hk'.
  - rewrite Nat.add_0_r in Hk'. assert (t' = t) as -> by congruence.
    rewrite Nat.add_0_r. lia.
  - replace (k + S i)%nat with (S (k + i)) in * by lia.
    assert (is_Some (job !! (k + i)%nat)) as [u Hu].
    { apply lookup_lt_is_Some. apply lookup_lt_Some in Hk'. lia. }
    specialize (IH u Hu).
    pose proof (Hprec j (k + i)%nat u t' (task_at_intro _ _ _ _ _ Hj Hu)
                  (task_at_intro _ _ _ _ _ Hj Hk')).
    pose proof (Hpos _ _ Hk'). lia.
Qed.

(** A schedule that ends by the horizon is a solution of the model. *)
Lemma of_starts_scheduled jobs start M :
  valid_problem jobs →
  is_schedule jobs start → has_makespan jobs start M → M ≤ horizon jobs →
  scheduled jobs (of_starts jobs start M).
Proof.
  intros Hvalid Hsch [Hub (j0 & k0 & [m0 d0] & Ht0 & Hatt)] HM.
  destruct (valid_problem_inv jobs Hvalid) as (Hjobs & Hne & Hdur).
  pose proof Hsch as (Hpos & Hprec & Hmach).
  assert (Hop : ∀ p op, ops jobs !! p = Some op →
            ∃ j k, task_at jobs j k = Some (op_machine op, op_duration op)
                   ∧ p = (offset jobs j + k)%nat
                   ∧ of_starts jobs start M (start_of p) = start j k
                   ∧ of_starts jobs start M (end_of p)
                     = start j k + op_duration op).
  { intros p op Hp. pose proof Hp as (j & k & m & d & Ht & -> & ->)%ops_lookup.
    exists j, k. simpl. split; [done|]. split; [done|].
    by apply of_starts_task with m. }
  assert (Hd0 : ∀ p op, ops jobs !! p = Some op → 0 ≤ op_duration op)
    by by apply ops_durations_nonneg.
  split.
  - intros p op Hp. destruct (Hop p op Hp) as (j & k & Ht & _ & -> & ->).
    pose proof (Hpos _ _ _ Ht). pose proof (Hub _ _ _ Ht).
    pose proof (Hd0 _ _ Hp). simpl in *. lia.
  - intros p op Hp. by destruct (Hop p op Hp) as (j & k & _ & _ & -> & ->).
  - intros p q op op' Hlt Hp Hq Hm _.
    destruct (Hop p op Hp) as (j & k & Ht & -> & -> & ->).
    destruct (Hop q op' Hq) as (j' & k' & Ht' & -> & -> & ->).
    apply (Hmach j k j' k' (op_machine op, op_duration op)
             (op_machine op', op_duration op')); [|done|done|done].
    intros [= -> ->]. lia.
  - intros j job k Hj Hk.
    assert (is_Some (job !! k)) as [[m d] Ht].
    { apply lookup_lt_is_Some. lia. }
    assert (is_Some (job !! S k)) as [[m' d'] Ht'].
    { apply lookup_lt_is_Some. lia. }
    pose proof (task_at_intro _ _ _ _ _ Hj Ht) as Hk0.
    pose proof (task_at_intro _ _ _ _ _ Hj Ht') as Hk1.
    destruct (of_starts_task jobs start M j k m d Hk0) as [_ ->].
    replace (offset jobs j + k + 1)%nat with (offset jobs j + S k)%nat by lia.
    destruct (of_starts_task jobs start M j (S k) m' d' Hk1) as [-> _].
    apply (Hprec j k _ _ Hk0 Hk1).
  - rewrite of_starts_makespan. split; [|done].
    pose proof (Hpos _ _ _ Ht0). pose proof (Hub _ _ _ Ht0).
    destruct (task_at_lt _ _ _ _ Ht0) as (job0 & Hj0 & _).
    pose proof (task_at_inv _ _ _ _ _ Hj0 Ht0) as Hk0.
    apply list_elem_of_lookup_2 in Hj0, Hk0.
    eapply Forall_forall in Hdur; [|exact Hj0].
    eapply Forall_forall in Hdur; [|exact Hk0]. simpl in *. lia.
  - intros j job Hj. rewrite of_starts_makespan.
    destruct (last_op_lookup jobs j job Hj) as [op Hp].
    { eapply Forall_forall in Hne; [done|]. by eapply list_elem_of_lookup_2. }
    destruct (Hop _ _ Hp) as (j' & k' & Ht & _ & _ & ->).
    apply (Hub _ _ _ Ht).
  - destruct (task_at_lt _ _ _ _ Ht0) as (job0 & Hj0 & Hlt0).
    exists j0, job0. split; [done|]. rewrite of_starts_makespan.
    assert (is_Some (job0 !! (length job0 - 1)%nat)) as [[m d] Hk].
    { apply lookup_lt_is_Some. lia. }
    pose proof (task_at_intro _ _ _ _ _ Hj0 Hk) as Ht.
    replace (offset jobs j0 + length job0 - 1)%nat
      with (offset jobs j0 + (length job0 - 1))%nat by lia.
    destruct (of_starts_task jobs start M j0 _ m d Ht) as [_ ->].
    pose proof (Hub _ _ _ Ht) as Hle. simpl in Hle.
    pose proof (task_at_inv _ _ _ _ _ Hj0 Ht0) as Hk0.
    replace (length job0 - 1)%nat with (k0 + (length job0 - 1 - k0))%nat
      in Hk by lia.
    pose proof (schedule_job_chain jobs start j0 job0 k0 (length job0 - 1 - k0)
                  _ _ Hdur Hsch Hj0 Hk0 Hk) as Hchain.
    replace (k0 + (length job0 - 1 - k0))%nat with (length job0 - 1)%nat
      in Hchain by lia.
    simpl in *. lia.
Qed.

End true_optimum.

(** X1: for a valid problem, the makespan that a run without search limit
    reports is the float of the makespan [M] of a schedule, [M] itself
    when [M] is at most 2^53; and no schedule of the problem, however
    long, ends before [M]: bounding every time by the horizon loses no
    better schedule. *)
Theorem reported_makespan_is_least
    (jobs : list jssp.Job) (status : cp_model.CpSolverStatus) (makespan : Z)
    (assigned : gmap Z (list jssp.Assigned)) :
  spec.valid_problem jobs →
  jssp.run jobs false (Py.Ok (jssp.SolutionFound status makespan assigned)) →
  ∃ M, makespan = Py.float M
       ∧ (M ≤ 2 ^ 53 → makespan = M)
       ∧ (∃ start, spec.is_schedule jobs start
                   ∧ spec.has_makespan jobs start M)
       ∧ ∀ start M', spec.is_schedule jobs start →
                     spec.has_makespan jobs start M' → M ≤ M'.
Proof.
  intros Hvalid Hrun.
  destruct (valid_problem_inv jobs Hvalid) as (Hjobs & Hne & Hdur).
  destruct (run_unlimited_solution jobs _ _ _ Hrun)
    as (v & _ & -> & _ & Hv & Hmin).
  pose proof (layout.sch_makespan_bounds _ _ Hv) as Hb.
  exists (v (layout.makespan_of jobs)). split; [done|]. split; [|split].
  - intros HM. apply float_small. lia.
  - exists (spec.starts jobs v). by apply scheduled_is_schedule.
  - intros start M Hsch HM.
    destruct (decide (M ≤ jssp.horizon jobs)) as [Hsmall|Hbig].
    + specialize (Hmin _ (of_starts_scheduled jobs start M Hvalid Hsch HM Hsmall)).
      by rewrite of_starts_makespan in Hmin.
    + lia.
Qed.

Lemma reported_makespan_is_least_witness :
  ∃ M, 11 = Py.float M
       ∧ (M ≤ 2 ^ 53 → 11 = M)
       ∧ (∃ start, spec.is_schedule jssp.jobs_data start
                   ∧ spec.has_makespan jssp.jobs_data start M)
       ∧ ∀ start M', spec.is_schedule jssp.jobs_data start →
                     spec.has_makespan jssp.jobs_data start M' → M ≤ M'.
Proof.
  exact (reported_makespan_is_least jssp.jobs_data cp_model.OPTIMAL 11
           (layout.shown jssp.jobs_data layout.schedule_11)
           jobs_data_valid jobs_data_run).
Defined.

(** ** Bounds on the times of a schedule that is shown *)

Section bounds.
Import Py cp_model jssp layout spec stretch beyond.
Implicit Types (jobs : list Job) (v : Assignment).

(** The first [k + 1] tasks of a job cannot be done before the time they
    take. *)
Lemma job_prefix jobs v j (job : Job) k :
  scheduled jobs v → jobs !! j = Some job → (k < length job)%nat →
  job_length (take (S k) job) ≤ v (end_of (offset jobs j + k)).
Proof.
  intros Hs Hj. unfold job_length. induction k as [|k IH]; intros Hk.
  - destruct job as [|[m d] job]; [simpl in Hk; lia|].
    pose proof (ops_lookup_task jobs j 0 m d
                  (task_at_intro jobs j 0 _ _ Hj eq_refl)) as Hop.
    pose proof (sch_bounds _ _ Hs _ _ Hop) as [[? _] _].
    pose proof (sch_duration _ _ Hs _ _ Hop) as Hd. simpl in *. lia.
  - specialize (IH ltac:(lia)).
    assert (is_Some (job !! S k)) as [[m d] Ht].
    { by apply lookup_lt_is_Some. }
    rewrite (take_S_r _ _ _ Ht), fmap_app, foldr_add_app. simpl.
    pose proof (ops_lookup_task jobs j (S k) m d
                  (task_at_intro jobs j _ _ _ Hj Ht)) as Hop.
    pose proof (sch_duration _ _ Hs _ _ Hop) as Hd. simpl in Hd.
    pose proof (sch_precedence _ _ Hs j job k Hj Hk) as Hp.
    replace (offset jobs j + k + 1)%nat with (offset jobs j + S k)%nat
      in Hp by lia.
    lia.
Qed.

End bounds.

(** X2: in a schedule that is shown for a problem without negative
    duration, every task starts at time 0 or later, ends no earlier than it
    starts and no later than the end [M] of the schedule, the greatest end
    time of a last task; the makespan that is reported is the float of
    [M], and [M] is at most the horizon. *)
Theorem shown_times_within_makespan
    (jobs : list jssp.Job) (limited : bool) (status : cp_model.CpSolverStatus)
    (makespan : Z) (assigned : gmap Z (list jssp.Assigned)) :
  Forall (Forall (λ task : jssp.Task, 0 ≤ task.2)) jobs →
  jssp.run jobs limited (Py.Ok (jssp.SolutionFound status makespan assigned)) →
  ∃ M, recheck.recomputed_makespan assigned = Some M
       ∧ makespan = Py.float M
       ∧ M ≤ jssp.horizon jobs
       ∧ ∀ machine r, r ∈ assigned !!! machine →
           0 ≤ jssp.a_start r ∧ jssp.a_start r ≤ jssp.a_end r
           ∧ jssp.a_end r ≤ M.
Proof.
  intros Hdur (v & Hne & _ & _ & Hs & -> & ->)%run_solution.
  exists (v (layout.makespan_of jobs)).
  split; [by apply shown_recomputed|]. split; [done|].
  split; [apply (layout.sch_makespan_bounds _ _ Hs)|].
  intros machine r (j & k & d & Ht & ->)%shown_entry. simpl.
  pose proof (ops_lookup_task jobs j k machine d Ht) as Hop.
  pose proof (layout.sch_bounds _ _ Hs _ _ Hop) as [[? _] _].
  pose proof (layout.sch_duration _ _ Hs _ _ Hop) as Hd.
  pose proof (ops_durations_nonneg jobs Hdur _ _ Hop) as Hpos.
  pose proof (ends_before_makespan jobs v _ _ Hs
                (ops_durations_nonneg jobs Hdur) Hop).
  simpl in *. lia.
Qed.

Lemma shown_times_within_makespan_witness :
  ∃ M, recheck.recomputed_makespan
         (layout.shown jssp.jobs_data layout.schedule_11) = Some M
       ∧ 11 = Py.float M
       ∧ M ≤ jssp.horizon jssp.jobs_data
       ∧ ∀ machine r,
           r ∈ layout.shown jssp.jobs_data layout.schedule_11 !!! machine →
           0 ≤ jssp.a_start r ∧ jssp.a_start r ≤ jssp.a_end r
           ∧ jssp.a_end r ≤ M.
Proof.
  refine (shown_times_within_makespan jssp.jobs_data false cp_model.OPTIMAL 11
            (layout.shown jssp.jobs_data layout.schedule_11) _ jobs_data_run).
  repeat constructor; simpl; lia.
Defined.

(** X3: the schedule that is shown ends no earlier than the time that the
    tasks of any one job take together: that time is at most the greatest
    end time [M] of a last task, of which the reported makespan is the
    float. *)
Theorem makespan_at_least_job_length
    (jobs : list jssp.Job) (limited : bool) (status : cp_model.CpSolverStatus)
    (makespan : Z) (assigned : gmap Z (list jssp.Assigned)) :
  jssp.run jobs limited (Py.Ok (jssp.SolutionFound status makespan assigned)) →
  ∃ M, recheck.recomputed_makespan assigned = Some M
       ∧ makespan = Py.float M
       ∧ ∀ job, job ∈ jobs → beyond.job_length job ≤ M.
Proof.
  intros (v & Hne & _ & _ & Hs & -> & ->)%run_solution.
  exists (v (layout.makespan_of jobs)).
  split; [by apply shown_recomputed|]. split; [done|].
  intros job Hin.
  assert (job ≠ []) as Hjob by by eapply Forall_forall in Hne.
  apply list_elem_of_lookup in Hin as [j Hj].
  pose proof (job_prefix jobs v j job (length job - 1) Hs Hj
                ltac:(destruct job; [done | simpl; lia])) as Hpre.
  replace (S (length job - 1)) with (length job) in Hpre
    by (destruct job; [done | simpl; lia]).
  rewrite firstn_all in Hpre.
  pose proof (layout.sch_makespan_ub _ _ Hs j job Hj) as Hub.
  replace (layout.offset jobs j + (length job - 1))%nat
    with (layout.offset jobs j + length job - 1)%nat in Hpre
    by (destruct job; [done | simpl; lia]).
  lia.
Qed.

Lemma makespan_at_least_job_length_witness :
  ∃ M, recheck.recomputed_makespan
         (layout.shown jssp.jobs_data layout.schedule_11) = Some M
       ∧ 11 = Py.float M
       ∧ ∀ job, job ∈ jssp.jobs_data → beyond.job_length job ≤ M.
Proof.
  exact (makespan_at_least_job_length jssp.jobs_data false cp_model.OPTIMAL 11
           (layout.shown jssp.jobs_data layout.schedule_11) jobs_data_run).
Defined.

(** X4: two runs without search limit on the same input that show a
    solution show the same status, OPTIMAL, and the same makespan (the
    schedules themselves may differ). *)
Theorem runs_agree_on_makespan
    (jobs : list jssp.Job) (status status' : cp_model.CpSolverStatus)
    (makespan makespan' : Z) (assigned assigned' : gmap Z (list jssp.Assigned)) :
  jssp.run jobs false (Py.Ok (jssp.SolutionFound status makespan assigned)) →
  jssp.run jobs false (Py.Ok (jssp.SolutionFound status' makespan' assigned')) →
  status = cp_model.OPTIMAL ∧ status' = cp_model.OPTIMAL ∧ makespan = makespan'.
Proof.
  intros (v & _ & Hsolve & Hst & Hs & -> & _)%run_solution.
  intros (v' & _ & Hsolve' & Hst' & Hs' & -> & _)%run_solution.
  apply feasible_scheduled in Hs, Hs'.
  destruct Hsolve as [v _ Hmin| | | |];
    [|done|destruct Hst; done|destruct Hst; done|done].
  destruct Hsolve' as [v' _ Hmin'| | | |];
    [|done|destruct Hst'; done|destruct Hst'; done|done].
  split; [done|]. split; [done|].
  specialize (Hmin _ Hs'). specialize (Hmin' _ Hs).
  unfold cp_model.objective_of in *. simpl in *. f_equal. lia.
Qed.

Lemma runs_agree_on_makespan_witness :
  cp_model.OPTIMAL = cp_model.OPTIMAL ∧ cp_model.OPTIMAL = cp_model.OPTIMAL
  ∧ 11 = 11.
Proof.
  exact (runs_agree_on_makespan jssp.jobs_data _ _ _ _ _ _
           jobs_data_run jobs_data_run).
Defined.

(** X5: making any number of tasks of a valid problem longer, the machines
    and the shape of the jobs unchanged, never makes the optimal makespan
    smaller. *)
Theorem optimal_makespan_monotone_in_all_durations
    (jobs jobs' : list jssp.Job) (M M' : Z) :
  spec.valid_problem jobs →
  Forall2 (Forall2 (λ t t' : jssp.Task, t.1 = t'.1 ∧ t.2 ≤ t'.2)) jobs jobs' →
  stretch.optimal_makespan jobs M →
  stretch.optimal_makespan jobs' M' →
  M ≤ M'.
Proof.
  intros (Hjobs & Hne & Hdur)%valid_problem_inv Hle.
  intros (_ & v & Hv & <- & Hmin)%optimal_makespan_inv.
  intros (_ & v' & Hv' & <- & _)%optimal_makespan_inv.
  apply float_mono. split; [apply (layout.sch_makespan_bounds _ _ Hv)|].
  by apply (stretched_optimum jobs jobs' v v').
Qed.

Lemma optimal_makespan_monotone_in_all_durations_witness :
  stretch.optimal_makespan [[(0, 1)]] 1
  ∧ stretch.optimal_makespan [[(0, 3)]] 3
  ∧ 1 ≤ 3.
Proof.
  assert (H1 : stretch.optimal_makespan [[(0, 1)]] 1)
    by (apply single_task_optimum; lia).
  assert (H2 : stretch.optimal_makespan [[(0, 3)]] 3)
    by (apply (single_task_optimum 0 3); lia).
  split; [exact H1|]. split; [exact H2|].
  refine (optimal_makespan_monotone_in_all_durations
            [[(0, 1)]] [[(0, 3)]] 1 3 _ _ H1 H2).
  - split; [done|]. constructor; [|constructor]. split; [done|].
    constructor; [|constructor]. simpl. lia.
  - constructor; [|constructor]. constructor; [|constructor]. simpl. lia.
Defined.

(** ** A machine cannot do its work in less than the time the work takes *)

Section load.
Import Py cp_model jssp layout spec stretch beyond.
Implicit Types (jobs : list Job) (v : Assignment) (P : list Op).

Lemma apart_filter (Q : Z * Z → Prop) `{∀ x, Decision (Q x)} l :
  apart l → apart (filter Q l).
Proof.
  induction l as [|x l IH]; [done|]. intros [Hx Hl].
  rewrite filter_cons. case_decide; [|by apply IH].
  split; [|by apply IH]. apply Forall_forall.
  intros y [_ Hy]%list_elem_of_filter. by eapply Forall_forall in Hx.
Qed.

Lemma sum_filter_split (Q : Z * Z → Prop) `{∀ x, Decision (Q x)} l :
  foldr Z.add 0 (span <$> l)
  = foldr Z.add 0 (span <$> filter Q l)
    + foldr Z.add 0 (span <$> filter (λ x, ¬ Q x) l).
Proof.
  induction l as [|x l IH]; [done|].
  rewrite !filter_cons, fmap_cons. cbn [foldr]. rewrite IH.
  destruct (decide (Q x)) as [HQ|HQ].
  - rewrite decide_False by tauto. rewrite fmap_cons. cbn [foldr]. lia.
  - rewrite decide_True by done. rewrite fmap_cons. cbn [foldr]. lia.
Qed.

(** Intervals that lie between [A] and [B] and do not overlap take at most
    [B - A] together. *)
Lemma packing n : ∀ l A B,
  (length l ≤ n)%nat → A ≤ B →
  Forall (λ x, A ≤ x.1 ∧ x.1 ≤ x.2 ∧ x.2 ≤ B) l → apart l →
  foldr Z.add 0 (span <$> l) ≤ B - A.
Proof.
  induction n as [|n IH]; intros l A B Hlen HAB Hin Hap.
  - destruct l; [simpl; lia | simpl in Hlen; lia].
  - destruct l as [|x l]; [simpl; lia|].
    apply Forall_cons in Hin as [(HxA & Hx & HxB) Hin]. destruct Hap as [Hx' Hap].
    rewrite fmap_cons. cbn [foldr].
    rewrite (sum_filter_split (λ y, y.2 ≤ x.1) l).
    assert (Hbefore : foldr Z.add 0 (span <$> filter (λ y, y.2 ≤ x.1) l)
                      ≤ x.1 - A).
    { apply IH; [|done| |by apply apart_filter].
      - pose proof (length_filter (λ y, y.2 ≤ x.1) l). simpl in Hlen. lia.
      - apply Forall_forall. intros y [Hy Hyl]%list_elem_of_filter.
        eapply Forall_forall in Hin; [|exact Hyl]. lia. }
    assert (Hafter : foldr Z.add 0 (span <$> filter (λ y, ¬ y.2 ≤ x.1) l)
                     ≤ B - x.2).
    { apply IH; [|lia| |by apply apart_filter].
      - pose proof (length_filter (λ y, ¬ y.2 ≤ x.1) l). simpl in Hlen. lia.
      - apply Forall_forall. intros y [Hy Hyl]%list_elem_of_filter.
        eapply Forall_forall in Hin; [|exact Hyl].
        eapply Forall_forall in Hx'; [|exact Hyl]. simpl in *. lia. }
    unfold span at 1. lia.
Qed.

Lemma pairwise_apart v ivs :
  pairwise (disjoint v) ivs = true → apart (times v ivs).
Proof.
  induction ivs as [|iv ivs IH]; [done|]. simpl.
  intros [Hiv Hrest]%andb_true_iff. split; [|by apply IH].
  apply Forall_forall. intros y (iv' & -> & Hin)%list_elem_of_fmap. simpl.
  apply forallb_elem_of with (x := iv') in Hiv; [|done].
  by apply disjoint_spec in Hiv.
Qed.

Lemma times_ops_on v machine P base (Q : Z * Z → Prop) :
  (∀ i op, P !! i = Some op → op_machine op = machine →
           Q (v (start_of (base + i)), v (end_of (base + i)))) →
  Forall Q (times v (ops_on machine base P)).
Proof.
  revert base. induction P as [|op P IH]; intros base HQ; simpl; [constructor|].
  assert (Forall Q (times v (ops_on machine (S base) P))) as Hrest.
  { apply IH. intros i op' Hi Hm. specialize (HQ (S i) op' Hi Hm).
    by replace (S base + i)%nat with (base + S i)%nat by lia. }
  case_bool_decide as Hm; [|done]. constructor; [|done].
  specialize (HQ 0%nat op eq_refl Hm). by rewrite Nat.add_0_r in HQ.
Qed.

Lemma span_ops_on v machine P base :
  (∀ i op, P !! i = Some op →
           v (start_of (base + i)) + op_duration op = v (end_of (base + i))) →
  foldr Z.add 0 (span <$> times v (ops_on machine base P))
  = foldr Z.add 0
      ((λ task : Task, task.2)
         <$> filter (λ task : Task, task.1 = machine)
               ((λ op, (op_machine op, op_duration op)) <$> P)).
Proof.
  revert base. induction P as [|op P IH]; intros base Hd; [done|].
  assert (Hrest := IH (S base)).
  assert (Hop := Hd 0%nat op eq_refl). rewrite Nat.add_0_r in Hop.
  cbn [ops_on]. rewrite fmap_cons, filter_cons. cbn [fst].
  case_bool_decide as Hm.
  - rewrite decide_True by done. unfold times in *. rewrite !fmap_cons.
    cbn [foldr]. rewrite Hrest.
    + change (iv_start (op_interval base op)) with (start_of base).
      change (iv_end (op_interval base op)) with (end_of base).
      unfold span. cbn [fst snd]. f_equal. lia.
    + intros i op' Hi. specialize (Hd (S i) op' Hi).
      by replace (S base + i)%nat with (base + S i)%nat by lia.
  - rewrite decide_False by done. apply Hrest.
    intros i op' Hi. specialize (Hd (S i) op' Hi).
    by replace (S base + i)%nat with (base + S i)%nat by lia.
Qed.

Lemma job_ops_tasks j k (job : Job) :
  (λ op, (op_machine op, op_duration op)) <$> job_ops j k job = job.
Proof.
  revert k. induction job as [|[m d] job IH]; intros k; simpl; [done|].
  f_equal. apply IH.
Qed.

Lemma ops_tasks_concat jobs :
  (λ op, (op_machine op, op_duration op)) <$> ops jobs = concat jobs.
Proof.
  unfold ops. generalize 0%nat.
  induction jobs as [|job jobs IH]; intros j; simpl; [done|].
  by rewrite fmap_app, job_ops_tasks, IH.
Qed.

(** The tasks of a machine, in a schedule, take at most the makespan. *)
Lemma scheduled_machine_load jobs v machine :
  Forall (Forall (λ task : Task, 0 ≤ task.2)) jobs →
  scheduled jobs v → 0 ≤ machine →
  machine_load jobs machine ≤ v (makespan_of jobs).
Proof.
  intros Hdur Hs Hm.
  assert (machine_load jobs machine
          = foldr Z.add 0 (span <$> times v (ops_on machine 0 (ops jobs))))
    as ->.
  { unfold machine_load, tasks_on. rewrite <- ops_tasks_concat. symmetry.
    apply span_ops_on. intros i op Hi. apply (sch_duration _ _ Hs _ _ Hi). }
  assert (Hpos := ops_durations_nonneg jobs Hdur).
  replace (v (makespan_of jobs)) with (v (makespan_of jobs) - 0) by lia.
  apply (packing (length (times v (ops_on machine 0 (ops jobs))))); [done| | |].
  - apply (sch_makespan_bounds _ _ Hs).
  - apply times_ops_on. intros i op Hi _. simpl.
    pose proof (sch_bounds _ _ Hs _ _ Hi) as [[? _] _].
    pose proof (sch_duration _ _ Hs _ _ Hi).
    pose proof (Hpos _ _ Hi).
    pose proof (ends_before_makespan jobs v _ _ Hs Hpos Hi). lia.
  - apply pairwise_apart, pairwise_ops_on.
    intros i i' op op' Hlt Hi Hi' Hmi Hmi'. simpl.
    apply (sch_machine _ _ Hs i i' op op' Hlt Hi Hi'); [congruence|].
    apply ops_lookup in Hi as (j & k & m & d & Ht & _ & ->). simpl in Hmi.
    subst m. by eapply referenced_in_all_machines.
Qed.

(** When every task runs on the same machine, that machine carries the
    whole horizon. *)
Lemma single_machine_load jobs machine :
  Forall (Forall (λ task : Task, task.1 = machine)) jobs →
  machine_load jobs machine = horizon jobs.
Proof.
  intros Hsame. rewrite horizon_total. unfold machine_load, tasks_on.
  unfold total_duration.
  induction Hsame as [|job jobs Hjob _ IH]; [done|].
  cbn [concat]. rewrite filter_app, fmap_app, foldr_add_app, IH, fmap_cons.
  cbn [foldr]. f_equal. clear IH.
  induction Hjob as [|t job Ht _ IH]; [done|].
  rewrite filter_cons, decide_True by done. rewrite !fmap_cons. cbn [foldr].
  by rewrite IH.
Qed.

Lemma single_machine_nonneg jobs machine :
  valid_problem jobs →
  Forall (Forall (λ task : Task, task.1 = machine)) jobs → 0 ≤ machine.
Proof.
  intros [Hjobs Hall] Hsame. destruct jobs as [|job jobs]; [done|].
  apply Forall_cons in Hall as [[Hjob Htasks] _].
  apply Forall_cons in Hsame as [Hsame _].
  destruct job as [|t job]; [done|].
  apply Forall_cons in Htasks as [[_ ?] _].
  apply Forall_cons in Hsame as [<- _]. done.
Qed.

(** On one machine no schedule beats the one that runs the tasks one after
    the other, so the program shows the float of the horizon. *)
Lemma single_machine_run jobs machine :
  valid_problem jobs → fits_int64 jobs →
  Forall (Forall (λ task : Task, task.1 = machine)) jobs →
  run jobs false
    (Ok (SolutionFound OPTIMAL (Py.float (horizon jobs))
           (shown jobs (serial jobs)))).
Proof.
  intros Hvalid Hfit Hsame.
  destruct (valid_problem_inv jobs Hvalid) as (Hjobs & Hne & Hdur).
  assert (Hs := serial_scheduled jobs Hjobs Hne Hdur).
  unfold run. rewrite (build_model_ok jobs Hne Hfit). cbn [built_model].
  exists OPTIMAL, (serial jobs). split.
  - apply Solve_optimal; [by apply feasible_scheduled|].
    intros w Hw%feasible_scheduled. unfold objective_of, model_of.
    cbn [objective]. rewrite serial_makespan.
    rewrite <- (single_machine_load jobs machine Hsame).
    apply scheduled_machine_load; [done..|].
    by eapply single_machine_nonneg.
  - rewrite display_solution by by left. by rewrite serial_makespan.
Qed.

End load.

(** X6: the schedule that is shown for a problem without negative duration
    ends no earlier than the time that the tasks of any one machine (with
    an id that is not negative) take together: that time is at most the
    greatest end time [M] of a last task, of which the reported makespan
    is the float. *)
Theorem makespan_at_least_machine_load
    (jobs : list jssp.Job) (limited : bool) (status : cp_model.CpSolverStatus)
    (makespan : Z) (assigned : gmap Z (list jssp.Assigned)) :
  Forall (Forall (λ task : jssp.Task, 0 ≤ task.2)) jobs →
  jssp.run jobs limited (Py.Ok (jssp.SolutionFound status makespan assigned)) →
  ∃ M, recheck.recomputed_makespan assigned = Some M
       ∧ makespan = Py.float M
       ∧ ∀ machine, 0 ≤ machine → beyond.machine_load jobs machine ≤ M.
Proof.
  intros Hdur (v & Hne & _ & _ & Hs & -> & ->)%run_solution.
  exists (v (layout.makespan_of jobs)).
  split; [by apply shown_recomputed|]. split; [done|].
  intros machine Hm. by apply scheduled_machine_load.
Qed.

Lemma makespan_at_least_machine_load_witness :
  beyond.machine_load jssp.jobs_data 1 = 10
  ∧ ∃ M, recheck.recomputed_makespan
           (layout.shown jssp.jobs_data layout.schedule_11) = Some M
         ∧ 11 = Py.float M
         ∧ ∀ machine, 0 ≤ machine →
                      beyond.machine_load jssp.jobs_data machine ≤ M.
Proof.
  split; [reflexivity|].
  refine (makespan_at_least_machine_load jssp.jobs_data false cp_model.OPTIMAL
            11 (layout.shown jssp.jobs_data layout.schedule_11) _
            jobs_data_run).
  repeat constructor; simpl; lia.
Defined.

(** X7: when every task of a valid problem runs on the same machine, the
    schedule that a run without search limit shows ends at the horizon,
    the sum of all durations: the bound is then exact, and the makespan
    that is reported is the float of the horizon. *)
Theorem single_machine_makespan_is_horizon
    (jobs : list jssp.Job) (machine : Z) (status : cp_model.CpSolverStatus)
    (makespan : Z) (assigned : gmap Z (list jssp.Assigned)) :
  spec.valid_problem jobs →
  Forall (Forall (λ task : jssp.Task, task.1 = machine)) jobs →
  jssp.run jobs false (Py.Ok (jssp.SolutionFound status makespan assigned)) →
  recheck.recomputed_makespan assigned = Some (jssp.horizon jobs)
  ∧ makespan = Py.float (jssp.horizon jobs).
Proof.
  intros Hvalid Hsame (v & Hne & _ & _ & Hs & -> & ->)%run_solution.
  destruct (valid_problem_inv jobs Hvalid) as (_ & _ & Hdur).
  pose proof (layout.sch_makespan_bounds _ _ Hs) as Hle.
  pose proof (scheduled_machine_load jobs v machine Hdur Hs
                (single_machine_nonneg jobs machine Hvalid Hsame)) as Hload.
  rewrite (single_machine_load jobs machine Hsame) in Hload.
  assert (v (layout.makespan_of jobs) = jssp.horizon jobs) as <- by lia.
  split; [by apply shown_recomputed | done].
Qed.

Lemma single_machine_makespan_is_horizon_witness :
  jssp.horizon [[(0, 3)]; [(0, 4)]] = 7
  ∧ recheck.recomputed_makespan
      (layout.shown [[(0, 3)]; [(0, 4)]] (layout.serial [[(0, 3)]; [(0, 4)]]))
    = Some (jssp.horizon [[(0, 3)]; [(0, 4)]])
  ∧ Py.float (jssp.horizon [[(0, 3)]; [(0, 4)]])
    = Py.float (jssp.horizon [[(0, 3)]; [(0, 4)]]).
Proof.
  assert (Hvalid : spec.valid_problem [[(0, 3)]; [(0, 4)]]).
  { split; [done|]. repeat (constructor; [split; [done|]|]);
      repeat constructor; simpl; lia. }
  assert (Hfit : layout.fits_int64 [[(0, 3)]; [(0, 4)]]).
  { split; [reflexivity | repeat constructor]. }
  assert (Hsame : Forall (Forall (λ task : jssp.Task, task.1 = 0))
                    [[(0, 3)]; [(0, 4)]]) by repeat constructor.
  split; [reflexivity|].
  exact (single_machine_makespan_is_horizon [[(0, 3)]; [(0, 4)]] 0
           cp_model.OPTIMAL (Py.float (jssp.horizon [[(0, 3)]; [(0, 4)]]))
           (layout.shown [[(0, 3)]; [(0, 4)]]
              (layout.serial [[(0, 3)]; [(0, 4)]]))
           Hvalid Hsame
           (single_machine_run [[(0, 3)]; [(0, 4)]] 0 Hvalid Hfit Hsame)).
Defined.

(** ** The lists that are shown, machine by machine *)

Section timeline.
Import Py cp_model jssp layout spec beyond.
Implicit Types (jobs : list Job) (v : Assignment) (P : list Op).

Lemma range_NoDup n : NoDup (range n).
Proof.
  unfold range. apply NoDup_fmap_2; [|apply NoDup_seq].
  intros x y Hxy. lia.
Qed.

(** The loop over the machines sorts the list of each of them once and
    leaves every other list as it was. *)
Lemma sort_fold_lookup (L : list Z) (A : gmap Z (list Assigned)) machine :
  NoDup L →
  fold_left
    (λ (assigned_jobs : gmap Z (list Assigned)) machine_id,
       <[machine_id := sort_by_start (assigned_jobs !!! machine_id)]>
         assigned_jobs)
    L A !!! machine
  = if decide (machine ∈ L) then sort_by_start (A !!! machine)
    else A !!! machine.
Proof.
  revert A. induction L as [|a L IH]; intros A HL; cbn [fold_left].
  - rewrite decide_False; [done|]. apply not_elem_of_nil.
  - apply NoDup_cons in HL as [Ha HL]. rewrite IH by done.
    destruct (decide (a = machine)) as [->|Hne].
    + rewrite decide_False by done. rewrite lookup_total_insert_eq.
      rewrite decide_True; [done|]. left.
    + rewrite lookup_total_insert_ne by done.
      destruct (decide (machine ∈ L)) as [Hin|Hin].
      * rewrite decide_True; [done|]. by right.
      * rewrite decide_False; [done|].
        intros [?|?]%elem_of_cons; [congruence|done].
Qed.

Lemma sort_machines_lookup jobs (A : gmap Z (list Assigned)) machine :
  sort_machines jobs A !!! machine
  = if decide (machine ∈ all_machines jobs) then sort_by_start (A !!! machine)
    else A !!! machine.
Proof. apply sort_fold_lookup, range_NoDup. Qed.

Lemma insert_by_start_sorted x l :
  StronglySorted (λ r r', a_start r ≤ a_start r') l →
  StronglySorted (λ r r', a_start r ≤ a_start r') (insert_by_start x l).
Proof.
  induction 1 as [|y l Hl IH Hy]; cbn [insert_by_start].
  - by repeat constructor.
  - destruct (a_start x <? a_start y) eqn:Hxy.
    + apply Z.ltb_lt in Hxy. constructor; [by constructor|].
      constructor; [lia|]. eapply Forall_impl; [exact Hy|].
      intros z Hz. simpl in Hz. lia.
    + apply Z.ltb_ge in Hxy. constructor; [done|].
      rewrite insert_by_start_perm. by constructor.
Qed.

Lemma sort_by_start_sorted l :
  StronglySorted (λ r r', a_start r ≤ a_start r') (sort_by_start l).
Proof.
  unfold sort_by_start.
  assert (∀ acc, StronglySorted (λ r r', a_start r ≤ a_start r') acc →
                 StronglySorted (λ r r', a_start r ≤ a_start r')
                   (fold_left (λ sorted x, insert_by_start x sorted) l acc))
    as Hgen.
  { induction l as [|x l IH]; intros acc Hacc; [done|].
    cbn [fold_left]. by apply IH, insert_by_start_sorted. }
  apply Hgen. constructor.
Qed.

Lemma sorted_lookup {A} (R : A → A → Prop) (l : list A) i i' x y :
  StronglySorted R l → (i < i')%nat → l !! i = Some x → l !! i' = Some y →
  R x y.
Proof.
  intros Hl. revert i i'. induction Hl as [|z l Hl IH Hz]; intros i i' Hlt;
    [done|].
  destruct i' as [|i']; [lia|]. destruct i as [|i]; simpl.
  - intros [= ->] Hy. eapply Forall_forall in Hz; [exact Hz|].
    by eapply list_elem_of_lookup_2.
  - apply IH. lia.
Qed.

(** A machine that no task runs on shows nothing. *)
Lemma shown_machine jobs v machine r :
  r ∈ shown jobs v !!! machine → 0 ≤ machine → machine ∈ all_machines jobs.
Proof.
  intros (j & k & d & Ht & _)%shown_entry Hm.
  by eapply referenced_in_all_machines.
Qed.

Lemma shown_sorted jobs v machine :
  0 ≤ machine →
  StronglySorted (λ r r', a_start r ≤ a_start r') (shown jobs v !!! machine).
Proof.
  intros Hm. destruct (shown jobs v !!! machine) as [|r l] eqn:Hl;
    [constructor|].
  assert (machine ∈ all_machines jobs) as Hin.
  { apply (shown_machine jobs v machine r); [|done]. rewrite Hl. left. }
  rewrite <- Hl. unfold shown. rewrite sort_machines_lookup.
  rewrite decide_True by done. apply sort_by_start_sorted.
Qed.

(** The records of a machine in creation order: one for each of its
    tasks. *)
Lemma records_on_keys v machine p P :
  NoDup (op_key <$> P) →
  NoDup ((λ r, (a_job r, a_task r)) <$> records_on v machine p P).
Proof.
  revert p. induction P as [|op P IH]; intros p HP; [constructor|].
  rewrite fmap_cons in HP. apply NoDup_cons in HP as [Hop HP].
  cbn [records_on]. case_bool_decide as Hm; [|by apply IH].
  rewrite fmap_cons. apply NoDup_cons. split; [|by apply IH].
  intros (r & Hr & (i & op' & Hi & _ & ->)%elem_of_records_on)%list_elem_of_fmap.
  apply Hop. apply list_elem_of_fmap. exists op'. split; [done|].
  by eapply list_elem_of_lookup_2.
Qed.

Lemma records_on_length v machine p P :
  length (records_on v machine p P)
  = length (filter (λ task : Task, task.1 = machine)
              ((λ op, (op_machine op, op_duration op)) <$> P)).
Proof.
  revert p. induction P as [|op P IH]; intros p; [done|].
  cbn [records_on]. rewrite fmap_cons, filter_cons. cbn [fst].
  case_bool_decide as Hm.
  - rewrite decide_True by done. cbn [length]. by rewrite IH.
  - rewrite decide_False by done. apply IH.
Qed.

Lemma shown_perm jobs v machine :
  shown jobs v !!! machine ≡ₚ records_on v machine 0 (ops jobs).
Proof.
  unfold shown. rewrite sort_machines_perm, assign_ops_lookup. cbn [fst snd].
  by rewrite lookup_total_empty.
Qed.

Lemma shown_keys jobs v machine :
  NoDup ((λ r, (a_job r, a_task r)) <$> shown jobs v !!! machine).
Proof.
  rewrite shown_perm. apply records_on_keys, ops_keys_NoDup.
Qed.

Lemma shown_length jobs v machine :
  length (shown jobs v !!! machine) = length (tasks_on jobs machine).
Proof.
  rewrite shown_perm, records_on_length. unfold tasks_on.
  by rewrite ops_tasks_concat.
Qed.

Lemma shown_positions jobs v machine i i' r r' :
  i ≠ i' →
  (shown jobs v !!! machine) !! i = Some r →
  (shown jobs v !!! machine) !! i' = Some r' →
  (a_job r, a_task r) ≠ (a_job r', a_task r').
Proof.
  intros Hne Hi Hi' Hkey. apply Hne.
  apply (NoDup_lookup _ i i' (a_job r, a_task r) (shown_keys jobs v machine)).
  - by rewrite list_lookup_fmap, Hi.
  - by rewrite list_lookup_fmap, Hi', Hkey.
Qed.

End timeline.

(** X8: the list shown for a machine (an id that is not negative) is in
    the order of the start times, whatever the status and the durations. *)
Theorem shown_machine_sorted_by_start
    (jobs : list jssp.Job) (limited : bool) (status : cp_model.CpSolverStatus)
    (makespan : Z) (assigned : gmap Z (list jssp.Assigned)) :
  jssp.run jobs limited (Py.Ok (jssp.SolutionFound status makespan assigned)) →
  ∀ machine (i i' : nat) r r',
    0 ≤ machine → (i < i')%nat →
    (assigned !!! machine) !! i = Some r →
    (assigned !!! machine) !! i' = Some r' →
    jssp.a_start r ≤ jssp.a_start r'.
Proof.
  intros (v & _ & _ & _ & _ & _ & ->)%run_solution machine i i' r r' Hm Hlt Hi Hi'.
  exact (sorted_lookup _ _ i i' r r' (shown_sorted jobs v machine Hm) Hlt Hi Hi').
Qed.

Lemma shown_machine_sorted_by_start_witness :
  jssp.a_start (jssp.MkAssigned 2 0 0 4 4)
  ≤ jssp.a_start (jssp.MkAssigned 1 2 6 10 4).
Proof.
  refine (shown_machine_sorted_by_start jssp.jobs_data false cp_model.OPTIMAL 11
            (layout.shown jssp.jobs_data layout.schedule_11) jobs_data_run
            1 0%nat 2%nat (jssp.MkAssigned 2 0 0 4 4)
            (jssp.MkAssigned 1 2 6 10 4) _ _ _ _).
  - lia.
  - lia.
  - vm_compute. reflexivity.
  - vm_compute. reflexivity.
Defined.

(** X9: when every duration is positive, the list shown for a machine is
    a timeline: every entry of the list, the last one and a single one
    too, takes time; and, for an id that is not negative, an entry ends
    before any entry that follows it in the list starts. *)
Theorem shown_machine_is_timeline
    (jobs : list jssp.Job) (limited : bool) (status : cp_model.CpSolverStatus)
    (makespan : Z) (assigned : gmap Z (list jssp.Assigned)) :
  Forall (Forall (λ task : jssp.Task, 0 < task.2)) jobs →
  jssp.run jobs limited (Py.Ok (jssp.SolutionFound status makespan assigned)) →
  ∀ machine,
    (∀ r, r ∈ assigned !!! machine → jssp.a_start r < jssp.a_end r)
    ∧ (0 ≤ machine →
       ∀ (i i' : nat) r r',
         (i < i')%nat →
         (assigned !!! machine) !! i = Some r →
         (assigned !!! machine) !! i' = Some r' →
         jssp.a_end r ≤ jssp.a_start r').
Proof.
  intros Hdur (v & _ & _ & _ & Hs & _ & ->)%run_solution machine.
  assert (∀ j k m d, layout.task_at jobs j k = Some (m, d) → 0 < d) as Hpos.
  { clear -Hdur. intros j k m d Ht. unfold layout.task_at in Ht.
    destruct (jobs !! j) as [job|] eqn:Hj; [|done]. simpl in Ht.
    apply list_elem_of_lookup_2 in Hj, Ht.
    eapply Forall_forall in Hdur; [|exact Hj].
    eapply Forall_forall in Hdur; [|exact Ht]. done. }
  split.
  - intros r (j & k & d & Ht & ->)%shown_entry. simpl.
    pose proof (scheduled_duration jobs v j k machine d Hs Ht) as Hd.
    pose proof (Hpos _ _ _ _ Ht). lia.
  - intros Hm i i' r r' Hlt Hi Hi'.
    pose proof (sorted_lookup _ _ i i' r r' (shown_sorted jobs v machine Hm)
                  Hlt Hi Hi') as Hle.
    pose proof (shown_positions jobs v machine i i' r r' ltac:(lia) Hi Hi')
      as Hkey.
    apply list_elem_of_lookup_2 in Hi, Hi'.
    apply shown_entry in Hi as (j & k & d & Ht & ->).
    apply shown_entry in Hi' as (j' & k' & d' & Ht' & ->).
    simpl in *.
    assert ((j, k) ≠ (j', k')) as Hne by (intros [= -> ->]; done).
    pose proof (referenced_in_all_machines jobs j k machine d Ht Hm) as Hin.
    pose proof (scheduled_duration jobs v j k machine d Hs Ht) as Hd.
    pose proof (scheduled_duration jobs v j' k' machine d' Hs Ht') as Hd'.
    pose proof (Hpos _ _ _ _ Ht). pose proof (Hpos _ _ _ _ Ht').
    destruct (scheduled_machine jobs v j k j' k' machine d d' Hs Hin Ht Ht' Hne);
      lia.
Qed.

Lemma shown_machine_is_timeline_witness :
  (∀ r, r ∈ layout.shown jssp.jobs_data layout.schedule_11 !!! 1 →
        jssp.a_start r < jssp.a_end r)
  ∧ (0 ≤ 1 →
     ∀ (i i' : nat) r r',
       (i < i')%nat →
       (layout.shown jssp.jobs_data layout.schedule_11 !!! 1) !! i = Some r →
       (layout.shown jssp.jobs_data layout.schedule_11 !!! 1) !! i' = Some r' →
       jssp.a_end r ≤ jssp.a_start r').
Proof.
  refine (shown_machine_is_timeline jssp.jobs_data false cp_model.OPTIMAL 11
            (layout.shown jssp.jobs_data layout.schedule_11) _ jobs_data_run 1).
  repeat constructor.
Defined.

(** X10: every task is shown exactly once, under its machine: for every
    machine id (negative or not) the entries have distinct (job, task)
    keys, there are as many of them as tasks with that id, and each such
    task has its entry, with its duration. *)
Theorem every_task_shown_once
    (jobs : list jssp.Job) (limited : bool) (status : cp_model.CpSolverStatus)
    (makespan : Z) (assigned : gmap Z (list jssp.Assigned)) :
  jssp.run jobs limited (Py.Ok (jssp.SolutionFound status makespan assigned)) →
  ∀ machine,
    NoDup ((λ r, (jssp.a_job r, jssp.a_task r)) <$> assigned !!! machine)
    ∧ length (assigned !!! machine) = length (beyond.tasks_on jobs machine)
    ∧ ∀ (j k : nat) d,
        layout.task_at jobs j k = Some (machine, d) →
        ∃ r, r ∈ assigned !!! machine
             ∧ jssp.a_job r = j ∧ jssp.a_task r = Z.of_nat k
             ∧ jssp.a_duration r = d.
Proof.
  intros (v & _ & _ & _ & _ & _ & ->)%run_solution machine.
  split; [apply shown_keys|]. split; [apply shown_length|].
  intros j k d Ht%ops_lookup_task. eexists. split.
  - apply elem_of_assigned. eexists _, _. split; [exact Ht|]. by split.
  - done.
Qed.

Lemma every_task_shown_once_witness :
  NoDup ((λ r, (jssp.a_job r, jssp.a_task r))
           <$> layout.shown jssp.jobs_data layout.schedule_11 !!! 2)
  ∧ length (layout.shown jssp.jobs_data layout.schedule_11 !!! 2)
    = length (beyond.tasks_on jssp.jobs_data 2)
  ∧ ∀ (j k : nat) d,
      layout.task_at jssp.jobs_data j k = Some (2, d) →
      ∃ r, r ∈ layout.shown jssp.jobs_data layout.schedule_11 !!! 2
           ∧ jssp.a_job r = j ∧ jssp.a_task r = Z.of_nat k
           ∧ jssp.a_duration r = d.
Proof.
  exact (every_task_shown_once jssp.jobs_data false cp_model.OPTIMAL 11
           (layout.shown jssp.jobs_data layout.schedule_11) jobs_data_run 2).
Defined.

(** ** The shape of the model that is handed to the solver *)

Section shape.
Import Py cp_model jssp layout beyond.
Implicit Types (jobs : list Job) (P : list Op).

Lemma ops_concat_length jobs : length (ops jobs) = length (concat jobs).
Proof. by rewrite <- ops_tasks_concat, length_fmap. Qed.

Lemma ops_intervals_length p P : length (ops_intervals p P) = length P.
Proof.
  revert p. induction P as [|op P IH]; intros p; [done|].
  cbn [ops_intervals length]. by rewrite IH.
Qed.

Lemma prec_from_length o (suf : list Job) :
  Forall (λ job : Job, job ≠ []) suf →
  (length (prec_from o suf) + length suf = length (concat suf))%nat.
Proof.
  intros Hne. revert o. induction Hne as [|job suf Hjob _ IH]; intros o; [done|].
  cbn [prec_from concat]. rewrite !length_app. unfold prec_job.
  rewrite length_fmap, length_seq. specialize (IH (o + length job)%nat).
  destruct job; [done|]. cbn [length] in *. lia.
Qed.

Lemma range_length n : length (range n) = Z.to_nat n.
Proof. unfold range. by rewrite length_fmap, length_seq. Qed.

Lemma model_of_variables_length jobs :
  length (variables (model_of jobs)) = (2 * length (concat jobs) + 1)%nat.
Proof.
  unfold model_of. cbn [variables].
  rewrite length_app, ops_protos_length, ops_concat_length. cbn [length]. lia.
Qed.

Lemma elem_of_ops_intervals c p P :
  c ∈ ops_intervals p P
  ↔ ∃ i op, P !! i = Some op ∧ c = CtInterval (op_interval (p + i) op).
Proof.
  revert p. induction P as [|op P IH]; intros p; cbn [ops_intervals].
  - split; [by intros ?%elem_of_nil | by intros ([|?] & ? & ? & ?)].
  - rewrite elem_of_cons, IH. split.
    + intros [->|(i & op' & Hi & ->)].
      * exists 0%nat, op. by rewrite Nat.add_0_r.
      * exists (S i), op'. split; [done|].
        by replace (p + S i)%nat with (S p + i)%nat by lia.
    + intros ([|i] & op' & Hi & ->); simpl in Hi.
      * injection Hi as ->. left. by rewrite Nat.add_0_r.
      * right. exists i, op'. split; [done|].
        by replace (p + S i)%nat with (S p + i)%nat by lia.
Qed.

Lemma ops_on_elem iv machine p P :
  iv ∈ ops_on machine p P →
  ∃ i op, P !! i = Some op ∧ op_machine op = machine
          ∧ iv = op_interval (p + i) op.
Proof.
  revert p. induction P as [|op P IH]; intros p; cbn [ops_on].
  - by intros ?%elem_of_nil.
  - assert (iv ∈ ops_on machine (S p) P →
            ∃ i op', (op :: P) !! i = Some op' ∧ op_machine op' = machine
                     ∧ iv = op_interval (p + i) op') as Hrest.
    { intros (i & op' & Hi & Hm & ->)%IH. exists (S i), op'.
      split; [done|]. split; [done|].
      by replace (p + S i)%nat with (S p + i)%nat by lia. }
    case_bool_decide as Hm; [|done].
    intros [->|Hin]%elem_of_cons; [|by apply Hrest].
    exists 0%nat, op. by rewrite Nat.add_0_r.
Qed.

Lemma prec_from_elem c o (suf : list Job) :
  c ∈ prec_from o suf →
  ∃ p, c = CtGe (start_of (S p)) (end_of p)
       ∧ (S p < o + length (concat suf))%nat.
Proof.
  revert o. induction suf as [|job suf IH]; intros o; cbn [prec_from].
  - by intros ?%elem_of_nil.
  - cbn [concat]. rewrite length_app. intros [Hc|Hc]%elem_of_app.
    + unfold prec_job in Hc.
      apply list_elem_of_fmap in Hc as (k & -> & Hk%elem_of_seq).
      exists (o + k)%nat. split; [|lia].
      by replace (o + k + 1)%nat with (S (o + k)) by lia.
    + apply IH in Hc as (p & -> & Hp). exists p. split; [done|]. lia.
Qed.

(** Every variable that a constraint of the model mentions has been
    created, and so has the one of the objective. *)
Lemma model_of_well_formed jobs :
  Forall (λ job : Job, job ≠ []) jobs → well_formed (model_of jobs).
Proof.
  intros Hne. split.
  - intros c x Hc Hx. rewrite model_of_variables_length.
    rewrite <- ops_concat_length.
    assert (∀ i op iv, ops jobs !! i = Some op → iv = op_interval (0 + i) op →
                       x ∈ [iv_start iv; iv_end iv] →
                       (x < 2 * length (ops jobs) + 1)%nat) as Hiv.
    { intros i op iv Hi%lookup_lt_Some -> Hin.
      cbn [op_interval iv_start iv_end] in Hin. unfold start_of, end_of in Hin.
      apply elem_of_cons in Hin as [->|Hin]; [lia|].
      apply list_elem_of_singleton in Hin as ->. lia. }
    unfold model_of in Hc. cbn [constraints] in Hc.
    apply elem_of_app in Hc as [Hc|Hc]; [|apply elem_of_app in Hc as [Hc|Hc];
      [|apply elem_of_app in Hc as [Hc|Hc]]].
    + apply elem_of_ops_intervals in Hc as (i & op & Hi & ->).
      by apply (Hiv i op (op_interval (0 + i) op)).
    + apply list_elem_of_fmap in Hc as (machine & -> & _).
      cbn [constraint_vars] in Hx.
      apply list_elem_of_bind in Hx as (iv & Hx & Hin).
      apply ops_on_elem in Hin as (i & op & Hi & _ & ->).
      by apply (Hiv i op (op_interval (0 + i) op)).
    + apply prec_from_elem in Hc as (p & -> & Hp).
      rewrite <- ops_concat_length in Hp. cbn [constraint_vars] in Hx.
      unfold start_of, end_of in Hx.
      apply elem_of_cons in Hx as [->|Hx]; [lia|].
      apply list_elem_of_singleton in Hx as ->. lia.
    + apply list_elem_of_singleton in Hc as ->. cbn [constraint_vars] in Hx.
      apply elem_of_cons in Hx as [->|Hx]; [unfold makespan_of; lia|].
      apply elem_of_lasts_from in Hx as (j & job & Hj & ->).
      assert (job ≠ []) as Hjob.
      { eapply Forall_forall in Hne; [exact Hne|].
        by eapply list_elem_of_lookup_2. }
      destruct (last_op_lookup jobs j job Hj Hjob) as [op Hop%lookup_lt_Some].
      cbn [Nat.add]. unfold end_of. lia.
  - intros o [= <-]. rewrite model_of_variables_length.
    rewrite <- ops_concat_length. unfold makespan_of. lia.
Qed.

Lemma model_of_makespan_var jobs :
  variables (model_of jobs) !! makespan_of jobs
  = Some (MkIntVar 0 (horizon jobs) "makespan").
Proof.
  unfold model_of, makespan_of. cbn [variables].
  rewrite lookup_app_r by (rewrite ops_protos_length; lia).
  rewrite ops_protos_length. by rewrite Nat.sub_diag.
Qed.

Lemma model_of_no_overlap_declared jobs ivs iv :
  CtNoOverlap ivs ∈ constraints (model_of jobs) → iv ∈ ivs →
  CtInterval iv ∈ constraints (model_of jobs).
Proof.
  unfold model_of. cbn [constraints]. intros Hc Hiv.
  apply elem_of_app. left.
  apply elem_of_app in Hc as [Hc|Hc]; [|apply elem_of_app in Hc as [Hc|Hc];
    [|apply elem_of_app in Hc as [Hc|Hc]]].
  - by apply elem_of_ops_intervals in Hc as (? & ? & _ & ?).
  - apply list_elem_of_fmap in Hc as (machine & [= ->] & _).
    apply ops_on_elem in Hiv as (i & op & Hi & _ & ->).
    apply elem_of_ops_intervals. by exists i, op.
  - by apply prec_from_elem in Hc as (? & ? & _).
  - by apply list_elem_of_singleton in Hc.
Qed.

Lemma ops_tasks_size (p : nat) P (acc : gmap (nat * Z) TaskVars) :
  NoDup (op_key <$> P) → (∀ op, op ∈ P → acc !! op_key op = None) →
  size (ops_tasks p P acc) = (size acc + length P)%nat.
Proof.
  revert p acc. induction P as [|op P IH]; intros p acc HP Hacc;
    cbn [ops_tasks length]; [lia|].
  rewrite fmap_cons in HP. apply NoDup_cons in HP as [Hop HP].
  rewrite IH; [|done|].
  - rewrite map_size_insert_None; [lia|]. apply Hacc. left.
  - intros op' Hin. rewrite lookup_insert_ne.
    + apply Hacc. by right.
    + intros Heq. apply Hop. rewrite Heq. apply list_elem_of_fmap. eauto.
Qed.

Lemma tasks_of_size jobs : size (tasks_of jobs) = length (concat jobs).
Proof.
  unfold tasks_of. rewrite ops_tasks_size; [|apply ops_keys_NoDup|done].
  rewrite map_size_empty. by rewrite ops_concat_length.
Qed.

Lemma count_app kind (l k : list Constraint) :
  count kind (l ++ k) = (count kind l + count kind k)%nat.
Proof. induction l as [|c l IH]; simpl; [done|]. rewrite IH. lia. Qed.

Lemma count_all kind (l : list Constraint) :
  (∀ c, c ∈ l → kind c = true) → count kind l = length l.
Proof.
  induction l as [|c l IH]; intros Hall; simpl; [done|].
  rewrite (Hall c) by left. rewrite IH; [done|].
  intros c' Hc'. apply Hall. by right.
Qed.

Lemma count_none kind (l : list Constraint) :
  (∀ c, c ∈ l → kind c = false) → count kind l = 0%nat.
Proof.
  induction l as [|c l IH]; intros Hall; simpl; [done|].
  rewrite (Hall c) by left. rewrite IH; [done|].
  intros c' Hc'. apply Hall. by right.
Qed.

(** A constraint is of exactly one of the four kinds. *)
Lemma count_kinds (l : list Constraint) :
  length l
  = (count is_interval l + count is_no_overlap l + count is_precedence l
     + count is_max_equality l)%nat.
Proof.
  induction l as [|c l IH]; [done|]. cbn [length count]. rewrite IH.
  destruct c; simpl; lia.
Qed.

(** The constraints of the model, kind by kind. *)
Lemma model_of_counts jobs kind :
  count kind (constraints (model_of jobs))
  = (count kind (ops_intervals 0 (ops jobs))
     + count kind ((λ machine, CtNoOverlap (ops_on machine 0 (ops jobs)))
                     <$> all_machines jobs)
     + count kind (prec_from 0 jobs)
     + (if kind (CtMaxEquality (makespan_of jobs) (lasts_from 0 jobs))
        then 1 else 0))%nat.
Proof.
  unfold model_of. cbn [constraints]. rewrite !count_app. cbn [count]. lia.
Qed.

Lemma ops_intervals_kind c p P :
  c ∈ ops_intervals p P →
  is_interval c = true ∧ is_no_overlap c = false ∧ is_precedence c = false
  ∧ is_max_equality c = false.
Proof. by intros (i & op & _ & ->)%elem_of_ops_intervals. Qed.

Lemma no_overlaps_kind c P (L : list Z) :
  c ∈ (λ machine, CtNoOverlap (ops_on machine 0 P)) <$> L →
  is_interval c = false ∧ is_no_overlap c = true ∧ is_precedence c = false
  ∧ is_max_equality c = false.
Proof. by intros (machine & -> & _)%list_elem_of_fmap. Qed.

Lemma prec_from_kind c o (suf : list Job) :
  c ∈ prec_from o suf →
  is_interval c = false ∧ is_no_overlap c = false ∧ is_precedence c = true
  ∧ is_max_equality c = false.
Proof. by intros (p & -> & _)%prec_from_elem. Qed.

End shape.

(** X11: when the model is built, it has two variables for each task and
    one for the makespan; its constraints are one interval constraint for
    each task, one no-overlap constraint for each machine of
    [all_machines], one precedence constraint for each task but the last
    of each job, and one max-equality constraint, and no other. *)
Theorem built_model_size (jobs : list jssp.Job) (b : jssp.Built) :
  jssp.build_model jobs = Py.Ok b →
  let cs := cp_model.constraints (jssp.built_model b) in
  length (cp_model.variables (jssp.built_model b))
  = (2 * length (concat jobs) + 1)%nat
  ∧ beyond.count beyond.is_interval cs = length (concat jobs)
  ∧ beyond.count beyond.is_no_overlap cs = Z.to_nat (jssp.num_machines jobs)
  ∧ (beyond.count beyond.is_precedence cs + length jobs
     = length (concat jobs))%nat
  ∧ beyond.count beyond.is_max_equality cs = 1%nat
  ∧ length cs
    = (beyond.count beyond.is_interval cs
       + beyond.count beyond.is_no_overlap cs
       + beyond.count beyond.is_precedence cs
       + beyond.count beyond.is_max_equality cs)%nat.
Proof.
  intros (Hne & _ & ->)%build_model_inv. cbn [jssp.built_model]. cbv zeta.
  split; [apply model_of_variables_length|].
  rewrite !model_of_counts. cbn [beyond.is_interval beyond.is_no_overlap
    beyond.is_precedence beyond.is_max_equality].
  pose proof (prec_from_length 0 jobs Hne) as Hprec.
  assert (length ((λ machine,
            cp_model.CtNoOverlap
              (layout.ops_on machine 0 (layout.ops jobs)))
            <$> jssp.all_machines jobs)
          = Z.to_nat (jssp.num_machines jobs)) as Hmach.
  { rewrite length_fmap. unfold jssp.all_machines. apply range_length. }
  split; [|split; [|split; [|split]]].
  - rewrite (count_all beyond.is_interval (layout.ops_intervals _ _))
      by (intros c Hc; by apply ops_intervals_kind in Hc as (? & _)).
    rewrite (count_none beyond.is_interval (_ <$> _))
      by (intros c Hc; by apply no_overlaps_kind in Hc as (? & _)).
    rewrite (count_none beyond.is_interval (layout.prec_from _ _))
      by (intros c Hc; by apply prec_from_kind in Hc as (? & _)).
    rewrite ops_intervals_length, ops_concat_length. lia.
  - rewrite (count_none beyond.is_no_overlap (layout.ops_intervals _ _))
      by (intros c Hc; by apply ops_intervals_kind in Hc as (_ & ? & _)).
    rewrite (count_all beyond.is_no_overlap (_ <$> _))
      by (intros c Hc; by apply no_overlaps_kind in Hc as (_ & ? & _)).
    rewrite (count_none beyond.is_no_overlap (layout.prec_from _ _))
      by (intros c Hc; by apply prec_from_kind in Hc as (_ & ? & _)).
    rewrite Hmach. lia.
  - rewrite (count_none beyond.is_precedence (layout.ops_intervals _ _))
      by (intros c Hc; by apply ops_intervals_kind in Hc as (_ & _ & ? & _)).
    rewrite (count_none beyond.is_precedence (_ <$> _))
      by (intros c Hc; by apply no_overlaps_kind in Hc as (_ & _ & ? & _)).
    rewrite (count_all beyond.is_precedence (layout.prec_from _ _))
      by (intros c Hc; by apply prec_from_kind in Hc as (_ & _ & ? & _)).
    lia.
  - rewrite (count_none beyond.is_max_equality (layout.ops_intervals _ _))
      by (intros c Hc; by apply ops_intervals_kind in Hc as (_ & _ & _ & ?)).
    rewrite (count_none beyond.is_max_equality (_ <$> _))
      by (intros c Hc; by apply no_overlaps_kind in Hc as (_ & _ & _ & ?)).
    rewrite (count_none beyond.is_max_equality (layout.prec_from _ _))
      by (intros c Hc; by apply prec_from_kind in Hc as (_ & _ & _ & ?)).
    lia.
  - rewrite <- !model_of_counts. apply count_kinds.
Qed.

Lemma built_model_size_witness :
  let cs := cp_model.constraints (layout.model_of jssp.jobs_data) in
  length (cp_model.variables (layout.model_of jssp.jobs_data)) = 17%nat
  ∧ beyond.count beyond.is_interval cs = 8%nat
  ∧ beyond.count beyond.is_no_overlap cs = 3%nat
  ∧ (beyond.count beyond.is_precedence cs + 3 = 8)%nat
  ∧ beyond.count beyond.is_max_equality cs = 1%nat
  ∧ length cs
    = (beyond.count beyond.is_interval cs
       + beyond.count beyond.is_no_overlap cs
       + beyond.count beyond.is_precedence cs
       + beyond.count beyond.is_max_equality cs)%nat.
Proof.
  exact (built_model_size jssp.jobs_data
           (jssp.MkBuilt (layout.model_of jssp.jobs_data)
              (layout.tasks_of jssp.jobs_data)
              (layout.makespan_of jssp.jobs_data))
           (build_model_ok jssp.jobs_data jobs_data_nonempty jobs_data_fits)).
Defined.

(** X12: the model that is built is well formed: every variable that a
    constraint or the objective mentions has been created, the objective
    is the makespan variable, which has the domain [0, horizon] and the
    name "makespan", and every interval of a no-overlap constraint is tied
    to its start and end by an interval constraint of the model. *)
Theorem built_model_well_formed (jobs : list jssp.Job) (b : jssp.Built) :
  jssp.build_model jobs = Py.Ok b →
  beyond.well_formed (jssp.built_model b)
  ∧ cp_model.objective (jssp.built_model b) = Some (jssp.built_makespan b)
  ∧ cp_model.variables (jssp.built_model b) !! jssp.built_makespan b
    = Some (cp_model.MkIntVar 0 (jssp.horizon jobs) "makespan")
  ∧ ∀ ivs iv,
      cp_model.CtNoOverlap ivs ∈ cp_model.constraints (jssp.built_model b) →
      iv ∈ ivs →
      cp_model.CtInterval iv ∈ cp_model.constraints (jssp.built_model b).
Proof.
  intros (Hne & _ & ->)%build_model_inv. cbn [jssp.built_model jssp.built_makespan].
  split; [by apply model_of_well_formed|]. split; [done|].
  split; [apply model_of_makespan_var|]. apply model_of_no_overlap_declared.
Qed.

Lemma built_model_well_formed_witness :
  beyond.well_formed (layout.model_of jssp.jobs_data)
  ∧ cp_model.objective (layout.model_of jssp.jobs_data)
    = Some (layout.makespan_of jssp.jobs_data)
  ∧ cp_model.variables (layout.model_of jssp.jobs_data)
      !! layout.makespan_of jssp.jobs_data
    = Some (cp_model.MkIntVar 0 (jssp.horizon jssp.jobs_data) "makespan")
  ∧ ∀ ivs iv,
      cp_model.CtNoOverlap ivs
        ∈ cp_model.constraints (layout.model_of jssp.jobs_data) →
      iv ∈ ivs →
      cp_model.CtInterval iv
        ∈ cp_model.constraints (layout.model_of jssp.jobs_data).
Proof.
  exact (built_model_well_formed jssp.jobs_data
           (jssp.MkBuilt (layout.model_of jssp.jobs_data)
              (layout.tasks_of jssp.jobs_data)
              (layout.makespan_of jssp.jobs_data))
           (build_model_ok jssp.jobs_data jobs_data_nonempty jobs_data_fits)).
Defined.

(** X13: the dictionary [all_tasks] that is built has exactly one key for
    each task; the handles stored under a key are a start variable, the
    end variable created right after it, and the interval that ties them
    with the duration of that task; none of them is the makespan variable,
    and two distinct tasks share no variable. *)
Theorem all_tasks_handles (jobs : list jssp.Job) (b : jssp.Built) :
  jssp.build_model jobs = Py.Ok b →
  size (jssp.built_tasks b) = length (concat jobs)
  ∧ (∀ (j : nat) (k : Z),
       is_Some (jssp.built_tasks b !! (j, k))
       ↔ 0 ≤ k ∧ is_Some (layout.task_at jobs j (Z.to_nat k)))
  ∧ (∀ (j : nat) (k : Z) s e iv,
       jssp.built_tasks b !! (j, k) = Some (s, e, iv) →
       cp_model.iv_start iv = s ∧ cp_model.iv_end iv = e ∧ e = S s
       ∧ s ≠ jssp.built_makespan b ∧ e ≠ jssp.built_makespan b
       ∧ ∃ machine,
           layout.task_at jobs j (Z.to_nat k)
           = Some (machine, cp_model.iv_size iv))
  ∧ (∀ key key' s e iv s' e' iv',
       key ≠ key' →
       jssp.built_tasks b !! key = Some (s, e, iv) →
       jssp.built_tasks b !! key' = Some (s', e', iv') →
       s ≠ s' ∧ s ≠ e' ∧ e ≠ s' ∧ e ≠ e').
Proof.
  intros (Hne & _ & ->)%build_model_inv. cbn [jssp.built_tasks jssp.built_makespan].
  split; [apply tasks_of_size|]. split; [|split].
  - intros j k. split.
    + intros [t (k' & m & d & -> & Ht & _)%tasks_lookup_inv].
      split; [lia|]. rewrite Nat2Z.id. by rewrite Ht.
    + intros [Hk [[m d] Ht]]. apply tasks_lookup in Ht.
      rewrite Z2Nat.id in Ht by done. by rewrite Ht.
  - intros j k s e iv (k' & m & d & -> & Ht & Heq)%tasks_lookup_inv.
    unfold layout.op_vars in Heq. injection Heq as -> -> ->.
    rewrite Nat2Z.id.
    apply ops_lookup_task in Ht as Hop. apply lookup_lt_Some in Hop.
    unfold layout.makespan_of, layout.op_interval, layout.start_of,
      layout.end_of. cbn [cp_model.iv_start cp_model.iv_end cp_model.iv_size
                          layout.op_duration].
    repeat (split; [lia || done|]). by exists m.
  - intros [j k] [j' k'] s e iv s' e' iv' Hkey
      (n & m & d & -> & Ht & Heq)%tasks_lookup_inv
      (n' & m' & d' & -> & Ht' & Heq')%tasks_lookup_inv.
    unfold layout.op_vars in Heq, Heq'.
    injection Heq as -> -> _. injection Heq' as -> -> _.
    assert ((layout.offset jobs j + n)%nat ≠ (layout.offset jobs j' + n')%nat)
      as Hpos.
    { intros Heq. apply Hkey.
      pose proof (ops_key_inj jobs _ _ _ _ (ops_lookup_task _ _ _ _ _ Ht)
                    (ops_lookup_task _ _ _ _ _ Ht')) as Hinj.
      apply ops_lookup_task in Ht, Ht'. rewrite Heq in Ht.
      rewrite Ht in Ht'. by injection Ht' as -> ->%(inj Z.of_nat). }
    unfold layout.start_of, layout.end_of. lia.
Qed.

Lemma all_tasks_handles_witness :
  size (layout.tasks_of jssp.jobs_data) = length (concat jssp.jobs_data)
  ∧ (∀ (j : nat) (k : Z),
       is_Some (layout.tasks_of jssp.jobs_data !! (j, k))
       ↔ 0 ≤ k ∧ is_Some (layout.task_at jssp.jobs_data j (Z.to_nat k)))
  ∧ (∀ (j : nat) (k : Z) s e iv,
       layout.tasks_of jssp.jobs_data !! (j, k) = Some (s, e, iv) →
       cp_model.iv_start iv = s ∧ cp_model.iv_end iv = e ∧ e = S s
       ∧ s ≠ layout.makespan_of jssp.jobs_data
       ∧ e ≠ layout.makespan_of jssp.jobs_data
       ∧ ∃ machine,
           layout.task_at jssp.jobs_data j (Z.to_nat k)
           = Some (machine, cp_model.iv_size iv))
  ∧ (∀ key key' s e iv s' e' iv',
       key ≠ key' →
       layout.tasks_of jssp.jobs_data !! key = Some (s, e, iv) →
       layout.tasks_of jssp.jobs_data !! key' = Some (s', e', iv') →
       s ≠ s' ∧ s ≠ e' ∧ e ≠ s' ∧ e ≠ e').
Proof.
  exact (all_tasks_handles jssp.jobs_data
           (jssp.MkBuilt (layout.model_of jssp.jobs_data)
              (layout.tasks_of jssp.jobs_data)
              (layout.makespan_of jssp.jobs_data))
           (build_model_ok jssp.jobs_data jobs_data_nonempty jobs_data_fits)).
Defined.

(** ** [generate_rhyming_scheme] with any number of rhymes asked for *)

Section rhyme_edges.
Import rhyme_helper.

Lemma join_app (l k : list string) : join (l ++ k) = join l +:+ join k.
Proof.
  induction l as [|x l IH]; [done|].
  cbn [app]. unfold join in *. cbn [foldr]. by rewrite IH, append_assoc.
Qed.

Lemma scheme_prefix (l k : list string) :
  ∃ rest,
    join (imap scheme_line (l ++ k)) = join (imap scheme_line l) +:+ rest.
Proof. rewrite imap_app, join_app. eauto. Qed.

(** [xs[:n]] begins [xs[:n']] when [n] and [n'] have the same sign and
    [n <= n']. *)
Lemma slice_to_prefix {A} (xs : list A) (n n' : Z) :
  0 ≤ n ≤ n' ∨ n ≤ n' < 0 →
  ∃ k, Py.slice_to xs n' = Py.slice_to xs n ++ k.
Proof.
  intros Hn. unfold Py.slice_to.
  assert (∀ a b : nat, (a ≤ b)%nat → ∃ k, take b xs = take a xs ++ k)
    as Htake.
  { intros a b Hab. exists (drop a (take b xs)).
    rewrite <- (take_drop a (take b xs)) at 1. f_equal.
    rewrite take_take. f_equal. lia. }
  destruct Hn as [Hn|Hn].
  - rewrite !(proj2 (Z.leb_le 0 _)) by lia. apply Htake. lia.
  - rewrite !(proj2 (Z.leb_gt 0 _)) by lia. apply Htake. lia.
Qed.

End rhyme_edges.

(** X14: when rhymes are found and [num_rhymes] is 0, or so negative that
    the slice is empty, the scheme is the empty string (and not the text
    that says that no rhyme was found); a negative [num_rhymes] counts
    from the end: the scheme lists all the rhymes but the last
    [- num_rhymes]. *)
Theorem generate_rhyming_scheme_nonpositive
    (rhymes : string → list string) (word : string) (num_rhymes : Z) :
  rhymes word ≠ [] → num_rhymes ≤ 0 →
  (num_rhymes = 0 ∨ num_rhymes ≤ - Py.len (rhymes word) →
   rhyme_helper.generate_rhyming_scheme rhymes word num_rhymes = "")
  ∧ (num_rhymes < 0 →
     rhyme_helper.generate_rhyming_scheme rhymes word num_rhymes
     = rhyme_helper.join
         (imap rhyme_helper.scheme_line
            (take (length (rhymes word) - Z.to_nat (- num_rhymes))
               (rhymes word)))).
Proof.
  intros Hne Hn. rewrite generate_nonempty by done. unfold Py.slice_to, Py.len.
  split.
  - intros Hcase. destruct (0 <=? num_rhymes) eqn:Hsign.
    + apply Z.leb_le in Hsign. by replace num_rhymes with 0 by lia.
    + apply Z.leb_gt in Hsign.
      replace (Z.to_nat (Z.of_nat (length (rhymes word)) + num_rhymes))
        with 0%nat; [done|].
      destruct Hcase as [?|Hlen]; [lia|]. unfold Py.len in Hlen. lia.
  - intros Hneg. rewrite (proj2 (Z.leb_gt 0 num_rhymes)) by done.
    by replace (Z.to_nat (Z.of_nat (length (rhymes word)) + num_rhymes))
      with (length (rhymes word) - Z.to_nat (- num_rhymes))%nat by lia.
Qed.

Lemma generate_rhyming_scheme_nonpositive_witness :
  (-1 = 0 ∨ -1 ≤ - Py.len ["cat"; "hat"; "bat"] →
   rhyme_helper.generate_rhyming_scheme (λ _, ["cat"; "hat"; "bat"]) "mat" (-1)
   = "")
  ∧ (-1 < 0 →
     rhyme_helper.generate_rhyming_scheme (λ _, ["cat"; "hat"; "bat"]) "mat" (-1)
     = rhyme_helper.join
         (imap rhyme_helper.scheme_line
            (take (length ["cat"; "hat"; "bat"] - Z.to_nat (- -1))
               ["cat"; "hat"; "bat"]))).
Proof.
  refine (generate_rhyming_scheme_nonpositive
            (λ _, ["cat"; "hat"; "bat"]) "mat" (-1) _ _).
  - discriminate.
  - lia.
Defined.

(** X15: asking for more rhymes only adds lines at the end: for two
    numbers of the same sign, the scheme for the smaller one begins the
    scheme for the greater one. *)
Theorem generate_rhyming_scheme_prefix
    (rhymes : string → list string) (word : string) (n n' : Z) :
  0 ≤ n ≤ n' ∨ n ≤ n' < 0 →
  ∃ rest,
    rhyme_helper.generate_rhyming_scheme rhymes word n'
    = rhyme_helper.generate_rhyming_scheme rhymes word n +:+ rest.
Proof.
  intros Hn. destruct (rhymes word) as [|r found] eqn:Hfound.
  - exists "". unfold rhyme_helper.generate_rhyming_scheme.
    rewrite Hfound. by rewrite append_nil_r.
  - rewrite !generate_nonempty by by rewrite Hfound.
    destruct (slice_to_prefix (rhymes word) n n' Hn) as [k ->].
    apply scheme_prefix.
Qed.

Lemma generate_rhyming_scheme_prefix_witness :
  ∃ rest,
    rhyme_helper.generate_rhyming_scheme (λ _, ["cat"; "hat"; "bat"]) "mat" 2
    = rhyme_helper.generate_rhyming_scheme (λ _, ["cat"; "hat"; "bat"]) "mat" 1
      +:+ rest.
Proof.
  refine (generate_rhyming_scheme_prefix
            (λ _, ["cat"; "hat"; "bat"]) "mat" 1 2 _).
  left. lia.
Defined.

(** ** The main loop of the rhyme program *)

Section main_loop.
Import rhyme_helper rhyme_main.

Variable rhymes : string → list string.
Variable strip_lower : string → string.
Variable split : string → list string.
Variable int : string → option Z.

Local Abbreviation loop_body :=
  (rhyme_main.loop_body rhymes strip_lower split int).
Local Abbreviation loop := (rhyme_main.loop rhymes strip_lower split int).

Lemma set_num_rhymes_next user_input n :
  ∃ n' text, set_num_rhymes split int user_input n = Next n' [text].
Proof.
  unfold set_num_rhymes.
  destruct (split user_input) as [|a [|b [|c [|d l]]]]; eauto.
  destruct (int c) as [m|]; eauto. destruct (m <? 1); eauto.
Qed.

(** A turn ends the loop exactly on [exit] and [quit]. *)
Lemma loop_body_cases n line :
  (strip_lower line ∈ ["exit"; "quit"]
   ∧ loop_body n line = Break [print "Goodbye!"])
  ∨ ((strip_lower line ∉ ["exit"; "quit"])
     ∧ ∃ n' written, written ≠ [] ∧ loop_body n line = Next n' written).
Proof.
  unfold rhyme_main.loop_body. case_bool_decide as Hexit; [by left|].
  right. split; [done|].
  destruct (String.prefix "set num_rhymes" (strip_lower line)).
  - destruct (set_num_rhymes_next (strip_lower line) n) as (n' & text & ->).
    eexists _, _. split; [|reflexivity]. done.
  - eexists _, _. split; [|reflexivity]. done.
Qed.

Lemma loop_ending n lines :
  (loop n lines).2 = Exited
  ↔ Exists (λ line, strip_lower line ∈ ["exit"; "quit"]) lines.
Proof.
  revert n. induction lines as [|line rest IH]; intros n; cbn [rhyme_main.loop].
  - split; [done | by intros ?%Exists_nil].
  - rewrite Exists_cons.
    destruct (loop_body_cases n line) as [[Hexit ->]|(Hexit & n' & w & _ & ->)].
    + split; [by left | done].
    + specialize (IH n'). destruct (loop n' rest) as [later ending].
      cbn [snd] in *. rewrite IH. split; [by right | by intros [?|?]].
Qed.

Lemma loop_last n lines :
  last (loop n lines).1
  = Some (match (loop n lines).2 with
          | Exited => print "Goodbye!"
          | EOFError => prompt
          end).
Proof.
  revert n. induction lines as [|line rest IH]; intros n; cbn [rhyme_main.loop];
    [done|].
  destruct (loop_body_cases n line) as [[Hexit ->]|(Hexit & n' & w & Hw & ->)];
    [done|].
  specialize (IH n'). destruct (loop n' rest) as [later ending].
  cbn [fst snd] in *. rewrite app_comm_cons, last_app, IH. done.
Qed.

Lemma loop_stops n pre line rest :
  strip_lower line ∈ ["exit"; "quit"] →
  loop n (pre ++ line :: rest) = loop n (pre ++ [line]).
Proof.
  intros Hexit. revert n.
  induction pre as [|first pre IH]; intros n; cbn [app rhyme_main.loop].
  - destruct (loop_body_cases n line) as [[_ ->]|[Hno _]]; [done|].
    by destruct Hno.
  - destruct (rhyme_main.loop_body rhymes strip_lower split int n first)
      as [w|n' w]; [done|].
    by rewrite IH.
Qed.

(** A command is neither [exit] nor [quit]. *)
Lemma command_not_exit (user_input : string) :
  String.prefix "set num_rhymes" user_input = true →
  user_input ∉ ["exit"; "quit"].
Proof.
  intros Hp [->|[->|[]%elem_of_nil]%elem_of_cons]%elem_of_cons;
    discriminate Hp.
Qed.

Lemma loop_next n line n' written rest :
  loop_body n line = Next n' written →
  loop n (line :: rest)
  = (prompt :: written ++ (loop n' rest).1, (loop n' rest).2).
Proof.
  intros Hb. cbn [rhyme_main.loop]. rewrite Hb.
  by destruct (loop n' rest).
Qed.

Lemma loop_body_command n line a b c m :
  String.prefix "set num_rhymes" (strip_lower line) = true →
  split (strip_lower line) = [a; b; c] → int c = Some m →
  loop_body n line
  = Next m [if m <? 1
            then print ("Please enter a positive number for num_rhymes."
                        +:+ newline)
            else print ("Number of rhymes set to " +:+ Py.str m +:+ "."
                        +:+ newline)].
Proof.
  intros Hp Hs Hi. unfold rhyme_main.loop_body.
  rewrite bool_decide_eq_false_2 by by apply command_not_exit.
  rewrite Hp. unfold set_num_rhymes. rewrite Hs, Hi. by destruct (m <? 1).
Qed.

Lemma loop_body_word n line :
  strip_lower line ∉ ["exit"; "quit"] →
  String.prefix "set num_rhymes" (strip_lower line) = false →
  loop_body n line
  = Next n [ print (newline +:+ "Rhyming Scheme:");
             print (generate_rhyming_scheme rhymes (strip_lower line) n);
             print "" ].
Proof.
  intros Hexit Hp. unfold rhyme_main.loop_body.
  by rewrite bool_decide_eq_false_2, Hp by done.
Qed.

Lemma loop_words n lines :
  Forall (λ line, (strip_lower line ∉ ["exit"; "quit"])
                  ∧ String.prefix "set num_rhymes" (strip_lower line) = false)
    lines →
  loop n lines
  = ((lines ≫= λ line,
        [ prompt; print (newline +:+ "Rhyming Scheme:");
          print (generate_rhyming_scheme rhymes (strip_lower line) n);
          print "" ]) ++ [prompt],
     EOFError).
Proof.
  induction 1 as [|line rest [Hexit Hp] _ IH]; [done|].
  rewrite (loop_next n line n _ rest (loop_body_word n line Hexit Hp)).
  rewrite IH. cbn [fst snd]. by rewrite bind_cons.
Qed.

End main_loop.

(** X16: the program ends with [break] exactly when some line of the
    input is [exit] or [quit] once stripped and put in lower case; it
    writes "Goodbye!" last then, and otherwise ends with the error of
    [input] at the end of the input, the prompt being the last thing
    written; the lines after the first [exit] or [quit] are never read. *)
Theorem main_stops_at_exit
    (rhymes : string → list string) (strip_lower : string → string)
    (split : string → list string) (int : string → option Z)
    (lines : list string) :
  ((rhyme_main.main rhymes strip_lower split int lines).2 = rhyme_main.Exited
   ↔ Exists (λ line, strip_lower line ∈ ["exit"; "quit"]) lines)
  ∧ last (rhyme_main.main rhymes strip_lower split int lines).1
    = Some (match (rhyme_main.main rhymes strip_lower split int lines).2 with
            | rhyme_main.Exited => rhyme_main.print "Goodbye!"
            | rhyme_main.EOFError => rhyme_main.prompt
            end)
  ∧ ∀ pre line rest,
      lines = pre ++ line :: rest →
      strip_lower line ∈ ["exit"; "quit"] →
      rhyme_main.main rhymes strip_lower split int lines
      = rhyme_main.main rhymes strip_lower split int (pre ++ [line]).
Proof.
  unfold rhyme_main.main. split; [|split].
  - rewrite <- (loop_ending rhymes strip_lower split int 10 lines).
    by destruct (rhyme_main.loop rhymes strip_lower split int 10 lines).
  - pose proof (loop_last rhymes strip_lower split int 10 lines) as Hlast.
    destruct (rhyme_main.loop rhymes strip_lower split int 10 lines)
      as [written ending].
    cbn [fst snd] in *. by rewrite last_app, Hlast.
  - intros pre line rest -> Hexit.
    by rewrite (loop_stops rhymes strip_lower split int 10 pre line rest Hexit).
Qed.

(** X17: a value that the command [set num_rhymes] turns down is kept all
    the same.  When the third word of the command is read as the number
    [n], the next word is answered with the scheme for [n], also for
    [n < 1], when the program has written "Please enter a positive
    number for num_rhymes.". *)
Theorem set_num_rhymes_keeps_any_number
    (rhymes : string → list string) (strip_lower : string → string)
    (split : string → list string) (int : string → option Z)
    (num_rhymes : Z) (command word : string) (a b c : string) (n : Z)
    (rest : list string) :
  String.prefix "set num_rhymes" (strip_lower command) = true →
  split (strip_lower command) = [a; b; c] →
  int c = Some n →
  strip_lower word ∉ ["exit"; "quit"] →
  String.prefix "set num_rhymes" (strip_lower word) = false →
  rhyme_main.loop rhymes strip_lower split int num_rhymes
    (command :: word :: rest)
  = ([ rhyme_main.prompt;
       if n <? 1
       then rhyme_main.print
              ("Please enter a positive number for num_rhymes."
               +:+ rhyme_helper.newline)
       else rhyme_main.print
              ("Number of rhymes set to " +:+ Py.str n +:+ "."
               +:+ rhyme_helper.newline);
       rhyme_main.prompt;
       rhyme_main.print (rhyme_helper.newline +:+ "Rhyming Scheme:");
       rhyme_main.print
         (rhyme_helper.generate_rhyming_scheme rhymes (strip_lower word) n);
       rhyme_main.print "" ]
     ++ (rhyme_main.loop rhymes strip_lower split int n rest).1,
     (rhyme_main.loop rhymes strip_lower split int n rest).2).
Proof.
  intros Hp Hs Hi Hexit Hw.
  rewrite (loop_next rhymes strip_lower split int num_rhymes command n _ _
             (loop_body_command rhymes strip_lower split int num_rhymes command
                a b c n Hp Hs Hi)).
  rewrite (loop_next rhymes strip_lower split int n word n _ _
             (loop_body_word rhymes strip_lower split int n word Hexit Hw)).
  done.
Qed.

Lemma set_num_rhymes_keeps_any_number_witness :
  rhyme_main.loop (λ _, ["cat"; "hat"; "bat"]) (λ s, s)
    (λ _, ["set"; "num_rhymes"; "0"]) (λ _, Some 0) 10
    ["set num_rhymes 0"; "mat"]
  = ([ rhyme_main.prompt;
       rhyme_main.print
         ("Please enter a positive number for num_rhymes."
          +:+ rhyme_helper.newline);
       rhyme_main.prompt;
       rhyme_main.print (rhyme_helper.newline +:+ "Rhyming Scheme:");
       rhyme_main.print "";
       rhyme_main.print "";
       rhyme_main.prompt ],
     rhyme_main.EOFError).
Proof.
  refine (set_num_rhymes_keeps_any_number (λ _, ["cat"; "hat"; "bat"]) (λ s, s)
            (λ _, ["set"; "num_rhymes"; "0"]) (λ _, Some 0) 10
            "set num_rhymes 0" "mat" "set" "num_rhymes" "0" 0 [] _ _ _ _ _).
  - reflexivity.
  - reflexivity.
  - reflexivity.
  - apply (bool_decide_unpack _). vm_compute. exact I.
  - reflexivity.
Defined.

(** X18: as long as no line is a command, [exit] or [quit], every line
    is answered with the scheme for the default of 10 rhymes, after the
    banner; the program then ends with the error of [input], never by
    itself. *)
Theorem main_answers_words_with_default
    (rhymes : string → list string) (strip_lower : string → string)
    (split : string → list string) (int : string → option Z)
    (lines : list string) :
  Forall (λ line, (strip_lower line ∉ ["exit"; "quit"])
                  ∧ String.prefix "set num_rhymes" (strip_lower line) = false)
    lines →
  rhyme_main.main rhymes strip_lower split int lines
  = (rhyme_main.banner
       ++ (lines ≫= λ line,
             [ rhyme_main.prompt;
               rhyme_main.print (rhyme_helper.newline +:+ "Rhyming Scheme:");
               rhyme_main.print
                 (rhyme_helper.generate_rhyming_scheme_default rhymes
                    (strip_lower line));
               rhyme_main.print "" ])
       ++ [rhyme_main.prompt],
     rhyme_main.EOFError).
Proof.
  intros Hwords. unfold rhyme_main.main.
  by rewrite (loop_words rhymes strip_lower split int 10 lines Hwords).
Qed.

Lemma main_answers_words_with_default_witness :
  rhyme_main.main (λ _, ["cat"; "hat"; "bat"]) (λ s, s) (λ s, [s]) (λ _, None)
    ["mat"]
  = (rhyme_main.banner
       ++ [ rhyme_main.prompt;
            rhyme_main.print (rhyme_helper.newline +:+ "Rhyming Scheme:");
            rhyme_main.print
              (rhyme_helper.generate_rhyming_scheme_default
                 (λ _, ["cat"; "hat"; "bat"]) "mat");
            rhyme_main.print "" ]
       ++ [rhyme_main.prompt],
     rhyme_main.EOFError).
Proof.
  refine (main_answers_words_with_default (λ _, ["cat"; "hat"; "bat"]) (λ s, s)
            (λ s, [s]) (λ _, None) ["mat"] _).
  constructor; [|constructor]. split; [|reflexivity].
  apply (bool_decide_unpack _). vm_compute. exact I.
Defined.

(** ** Machines that are not listed: ids that are negative *)

Section unlisted.
Import Py cp_model jssp layout spec beyond.
Implicit Types (jobs : list Job) (v : Assignment).

Lemma job_length_app (l k : Job) :
  job_length (l ++ k) = job_length l + job_length k.
Proof. unfold job_length. by rewrite fmap_app, foldr_add_app. Qed.

Lemma job_length_nonneg (job : Job) :
  Forall (λ task : Task, 0 ≤ task.2) job → 0 ≤ job_length job.
Proof.
  unfold job_length. induction 1 as [|t job Ht _ IH]; [done|].
  rewrite fmap_cons. cbn [foldr]. lia.
Qed.

Lemma job_length_take (job : Job) k :
  Forall (λ task : Task, 0 ≤ task.2) job →
  0 ≤ job_length (take k job) ≤ job_length job.
Proof.
  intros Hdur. rewrite <- (take_drop k job) at 3. rewrite job_length_app.
  pose proof (job_length_nonneg (take k job) (Forall_take _ _ _ Hdur)).
  pose proof (job_length_nonneg (drop k job) (Forall_drop _ _ _ Hdur)). lia.
Qed.

Lemma job_length_horizon jobs (job : Job) :
  Forall (Forall (λ task : Task, 0 ≤ task.2)) jobs → job ∈ jobs →
  job_length job ≤ horizon jobs.
Proof.
  intros Hdur Hin. rewrite horizon_total.
  change (total_duration jobs) with (foldr Z.add 0 (job_length <$> jobs)).
  assert (∀ l : list Job, Forall (Forall (λ task : Task, 0 ≤ task.2)) l →
                          0 ≤ foldr Z.add 0 (job_length <$> l)) as Hpos.
  { induction 1 as [|job1 l Hjob1 _ IH]; [done|].
    rewrite fmap_cons. cbn [foldr].
    pose proof (job_length_nonneg job1 Hjob1). lia. }
  induction Hdur as [|job0 jobs Hjob0 Hdur IH]; [by apply elem_of_nil in Hin|].
  rewrite fmap_cons. cbn [foldr]. specialize (Hpos jobs Hdur).
  pose proof (job_length_nonneg job0 Hjob0).
  apply elem_of_cons in Hin as [->|Hin]; [lia|]. specialize (IH Hin). lia.
Qed.

(** A job is not done before the time that its tasks take. *)
Lemma scheduled_job_length jobs v (job : Job) :
  job ≠ [] → scheduled jobs v → job ∈ jobs →
  job_length job ≤ v (makespan_of jobs).
Proof.
  intros Hjob Hs [j Hj]%list_elem_of_lookup.
  pose proof (job_prefix jobs v j job (length job - 1) Hs Hj
                ltac:(destruct job; [done | simpl; lia])) as Hpre.
  replace (S (length job - 1)) with (length job) in Hpre
    by (destruct job; [done | simpl; lia]).
  rewrite firstn_all in Hpre.
  pose proof (sch_makespan_ub _ _ Hs j job Hj) as Hub.
  replace (offset jobs j + (length job - 1))%nat
    with (offset jobs j + length job - 1)%nat in Hpre
    by (destruct job; [done | simpl; lia]).
  lia.
Qed.

Lemma eager_start_lookup jobs j (job : Job) k :
  jobs !! j = Some job → eager_start jobs j k = job_length (take k job).
Proof.
  intros Hj. unfold eager_start.
  destruct (_ !! j) as [job'|] eqn:Hj'; [|done]. by injection Hj as ->.
Qed.

Lemma job_length_take_S (job : Job) k m d :
  job !! k = Some ((m, d) : Task) →
  job_length (take (S k) job) = job_length (take k job) + d.
Proof.
  intros Hk. unfold job_length.
  rewrite (take_S_r _ _ _ Hk), fmap_app, foldr_add_app. simpl. lia.
Qed.

Lemma job_length_last (job : Job) m d :
  job !! (length job - 1)%nat = Some ((m, d) : Task) →
  job_length (take (length job - 1) job) + d = job_length job.
Proof.
  intros Hk. rewrite <- (job_length_take_S job _ m d Hk).
  apply lookup_lt_Some in Hk.
  replace (S (length job - 1)) with (length job) by lia.
  by rewrite firstn_all.
Qed.

Lemma eager_makespan jobs M : eager jobs M (makespan_of jobs) = M.
Proof. apply of_starts_makespan. Qed.

Lemma eager_task jobs M j (job : Job) k m d :
  jobs !! j = Some job → job !! k = Some (m, d) →
  eager jobs M (start_of (offset jobs j + k)) = job_length (take k job)
  ∧ eager jobs M (end_of (offset jobs j + k)) = job_length (take k job) + d.
Proof.
  intros Hj Hk. pose proof (task_at_intro jobs j k job _ Hj Hk) as Ht.
  destruct (of_starts_task jobs (eager_start jobs) M j k m d Ht) as [Hs He].
  unfold eager. by rewrite Hs, He, (eager_start_lookup jobs j job k Hj).
Qed.

(** When no machine id is listed, the jobs can all run at once. *)
Lemma eager_scheduled jobs M :
  Forall (λ job : Job, job ≠ []) jobs →
  Forall (Forall (λ task : Task, task.1 < 0 ∧ 0 ≤ task.2)) jobs →
  recheck.maximum (job_length <$> jobs) = Some M →
  scheduled jobs (eager jobs M).
Proof.
  intros Hne Hall [HM Hub]%maximum_bounds.
  assert (Hdur : Forall (Forall (λ task : Task, 0 ≤ task.2)) jobs).
  { eapply Forall_impl; [exact Hall|]. intros job Hjob.
    eapply Forall_impl; [exact Hjob|]. by intros t [_ ?]. }
  assert (Hjob : ∀ j (job : Job), jobs !! j = Some job →
            job ≠ [] ∧ Forall (λ task : Task, 0 ≤ task.2) job
            ∧ job_length job ≤ M ∧ job_length job ≤ horizon jobs).
  { intros j job Hj. pose proof (list_elem_of_lookup_2 _ _ _ Hj) as Hin.
    split; [by eapply Forall_forall in Hne|].
    split; [by eapply Forall_forall in Hdur|].
    split; [|by apply job_length_horizon].
    apply Hub, list_elem_of_fmap. by exists job. }
  apply list_elem_of_fmap in HM as (job1 & HM & [j1 Hj1]%list_elem_of_lookup).
  destruct (Hjob j1 job1 Hj1) as (Hne1 & Hdur1 & _ & Hhor1).
  assert (Hop : ∀ p op, ops jobs !! p = Some op →
            ∃ j (job : Job) k, jobs !! j = Some job
              ∧ job !! k = Some (op_machine op, op_duration op)
              ∧ p = (offset jobs j + k)%nat).
  { intros p op (j & k & m & d & Ht & -> & ->)%ops_lookup.
    destruct (task_at_lt _ _ _ _ Ht) as (job & Hj & _).
    exists j, job, k. split; [done|]. split; [|done].
    by apply (task_at_inv jobs j k job). }
  assert (Hlast : ∀ j (job : Job), jobs !! j = Some job →
            eager jobs M (end_of (offset jobs j + length job - 1))
            = job_length job).
  { intros j job Hj. destruct (Hjob j job Hj) as (Hnej & _).
    assert (is_Some (job !! (length job - 1)%nat)) as [[m d] Hk].
    { apply lookup_lt_is_Some. destruct job; [done | simpl; lia]. }
    replace (offset jobs j + length job - 1)%nat
      with (offset jobs j + (length job - 1))%nat
      by (destruct job; [done | simpl; lia]).
    destruct (eager_task jobs M j job _ _ _ Hj Hk) as [_ ->].
    by apply job_length_last with m. }
  split.
  - intros p op Hp. destruct (Hop p op Hp) as (j & job & k & Hj & Hk & ->).
    destruct (eager_task jobs M j job k _ _ Hj Hk) as [-> ->].
    destruct (Hjob j job Hj) as (_ & Hd & _ & Hh).
    pose proof (job_length_take job k Hd).
    pose proof (job_length_take job (S k) Hd) as HS.
    rewrite (job_length_take_S job k _ _ Hk) in HS. lia.
  - intros p op Hp. destruct (Hop p op Hp) as (j & job & k & Hj & Hk & ->).
    by destruct (eager_task jobs M j job k _ _ Hj Hk) as [-> ->].
  - intros p q op op' _ Hp _ _ [Hm _]%elem_of_range.
    destruct (Hop p op Hp) as (j & job & k & Hj & Hk & _).
    apply list_elem_of_lookup_2 in Hj, Hk.
    eapply Forall_forall in Hall; [|exact Hj].
    eapply Forall_forall in Hall; [|exact Hk]. simpl in Hall. lia.
  - intros j job k Hj Hk.
    assert (is_Some (job !! k)) as [[m d] Ht] by (apply lookup_lt_is_Some; lia).
    assert (is_Some (job !! S k)) as [[m' d'] Ht']
      by (apply lookup_lt_is_Some; lia).
    destruct (eager_task jobs M j job k _ _ Hj Ht) as [_ ->].
    replace (offset jobs j + k + 1)%nat with (offset jobs j + S k)%nat by lia.
    destruct (eager_task jobs M j job (S k) _ _ Hj Ht') as [-> _].
    rewrite (job_length_take_S job k _ _ Ht). lia.
  - rewrite eager_makespan.
    pose proof (job_length_nonneg job1 Hdur1). lia.
  - intros j job Hj. rewrite (Hlast j job Hj), eager_makespan.
    by destruct (Hjob j job Hj) as (_ & _ & ? & _).
  - exists j1, job1. split; [done|].
    by rewrite (Hlast j1 job1 Hj1), eager_makespan.
Qed.

(** The run that the solver may take when no machine id is listed. *)
Lemma eager_run jobs M :
  Forall (λ job : Job, job ≠ []) jobs → fits_int64 jobs →
  Forall (Forall (λ task : Task, task.1 < 0 ∧ 0 ≤ task.2)) jobs →
  recheck.maximum (job_length <$> jobs) = Some M →
  run jobs false
    (Ok (SolutionFound OPTIMAL (Py.float M) (shown jobs (eager jobs M)))).
Proof.
  intros Hne Hfit Hall HM.
  pose proof (eager_scheduled jobs M Hne Hall HM) as Hs.
  unfold run. rewrite (build_model_ok jobs Hne Hfit). cbn [built_model].
  exists OPTIMAL, (eager jobs M). split.
  - apply Solve_optimal; [by apply feasible_scheduled|].
    intros w Hw%feasible_scheduled. unfold objective_of, model_of.
    cbn [objective]. rewrite eager_makespan.
    apply maximum_bounds in HM as [HM _].
    apply list_elem_of_fmap in HM as (job & -> & Hin).
    apply scheduled_job_length; [|done..].
    by eapply Forall_forall in Hne.
  - rewrite display_solution by by left. by rewrite eager_makespan.
Qed.

End unlisted.

(** X19: tasks are kept apart only on the machines of [all_machines],
    whose ids are not negative.  When every machine id is negative (and no
    duration is), nothing keeps two tasks apart: the schedule that a run
    without search limit shows ends at the time [M] of the longest job,
    even when all tasks share one machine id, and the makespan that is
    reported is the float of [M]. *)
Theorem negative_machine_ids_never_conflict
    (jobs : list jssp.Job) (status : cp_model.CpSolverStatus)
    (makespan M : Z) (assigned : gmap Z (list jssp.Assigned)) :
  Forall (Forall (λ task : jssp.Task, task.1 < 0 ∧ 0 ≤ task.2)) jobs →
  recheck.maximum (beyond.job_length <$> jobs) = Some M →
  jssp.run jobs false (Py.Ok (jssp.SolutionFound status makespan assigned)) →
  recheck.recomputed_makespan assigned = Some M ∧ makespan = Py.float M.
Proof.
  intros Hall HM (v & Hne & Hsolve & Hst & Hs & -> & ->)%run_solution.
  pose proof (eager_scheduled jobs M Hne Hall HM) as He.
  assert (v (layout.makespan_of jobs) = M) as <-;
    [|split; [by apply shown_recomputed | done]].
  apply Z.le_antisymm.
  - apply feasible_scheduled in He.
    destruct Hsolve as [v _ Hmin| | | |];
      [|done|destruct Hst; done|destruct Hst; done|done].
    specialize (Hmin _ He). unfold cp_model.objective_of in Hmin.
    cbn [cp_model.objective layout.model_of] in Hmin.
    by rewrite eager_makespan in Hmin.
  - apply maximum_bounds in HM as [HM _].
    apply list_elem_of_fmap in HM as (job & -> & Hin).
    apply scheduled_job_length; [|done..].
    by eapply Forall_forall in Hne.
Qed.

Lemma negative_machine_ids_never_conflict_witness :
  recheck.maximum (beyond.job_length <$> [[(-1, 3)]; [(-1, 2)]]) = Some 3
  ∧ recheck.recomputed_makespan
      (layout.shown [[(-1, 3)]; [(-1, 2)]]
         (beyond.eager [[(-1, 3)]; [(-1, 2)]] 3)) = Some 3
  ∧ Py.float 3 = Py.float 3.
Proof.
  assert (Hall : Forall (Forall (λ task : jssp.Task, task.1 < 0 ∧ 0 ≤ task.2))
                   [[(-1, 3)]; [(-1, 2)]]).
  { repeat constructor; simpl; lia. }
  assert (Hne : Forall (λ job : jssp.Job, job ≠ []) [[(-1, 3)]; [(-1, 2)]])
    by (repeat constructor; done).
  assert (Hfit : layout.fits_int64 [[(-1, 3)]; [(-1, 2)]]).
  { split; [reflexivity | repeat constructor]. }
  split; [reflexivity|].
  exact (negative_machine_ids_never_conflict [[(-1, 3)]; [(-1, 2)]]
           cp_model.OPTIMAL (Py.float 3) 3
           (layout.shown [[(-1, 3)]; [(-1, 2)]]
              (beyond.eager [[(-1, 3)]; [(-1, 2)]] 3))
           Hall eq_refl
           (eager_run [[(-1, 3)]; [(-1, 2)]] 3 Hne Hfit Hall eq_refl)).
Defined.

(** ** Where the construction of the model fails *)

Section failure.
Import Py cp_model jssp layout.
Implicit Types (jobs : list Job).

(** The loop of step 5 stops at the first job that has no task. *)
Lemma lasts_from_fail_first jobs pre suf :
  jobs = pre ++ suf → Exists (λ job : Job, job = []) suf →
  ∃ i,
    suf !! i = Some [] ∧ Forall (λ job : Job, job ≠ []) (take i suf) ∧
    ∀ acc,
      for_jobs (length pre) suf
        (λ job_id job last_task_end_times,
           t ← get_task (tasks_of jobs) job_id (len job - 1);
           Ok (last_task_end_times ++ [t.1.2])) acc
      = Raise (KeyError (length pre + i) (-1)).
Proof.
  revert pre. induction suf as [|job suf IH]; intros pre Hjobs Hex.
  - by apply Exists_nil in Hex.
  - destruct job as [|task job].
    + exists 0%nat. split; [done|]. split; [constructor|]. intros acc.
      simpl. unfold get_task. simpl. rewrite tasks_lookup_neg by done.
      by rewrite Nat.add_0_r.
    + apply Exists_cons in Hex as [?|Hex]; [done|].
      set (jb := task :: job) in *.
      destruct (IH (pre ++ [jb])) as (i & Hi & Hfirst & Hfail);
        [by rewrite <- app_assoc|done|].
      rewrite length_app, Nat.add_1_r in Hfail.
      exists (S i). split; [done|]. split; [by constructor|]. intros acc.
      assert (is_Some (jb !! (length jb - 1)%nat)) as [[m d] Hjk].
      { apply lookup_lt_is_Some. simpl. lia. }
      cbn [for_jobs]. unfold get_task, len.
      replace (Z.of_nat (length jb) - 1) with (Z.of_nat (length jb - 1))
        by (simpl; lia).
      erewrite tasks_lookup; cycle 1.
      { unfold task_at. subst jobs. rewrite list_lookup_middle by done.
        exact Hjk. }
      cbn [mbind result_bind]. rewrite Hfail. do 2 f_equal. lia.
Qed.

Lemma first_empty_unique jobs i j :
  jobs !! i = Some [] → Forall (λ job : Job, job ≠ []) (take i jobs) →
  jobs !! j = Some [] → Forall (λ job : Job, job ≠ []) (take j jobs) →
  i = j.
Proof.
  intros Hi Hbi Hj Hbj.
  destruct (lt_eq_lt_dec i j) as [[Hlt|Heq]|Hlt]; [|done|].
  - assert (take j jobs !! i = Some []) as Hin
      by by rewrite lookup_take_lt.
    apply list_elem_of_lookup_2 in Hin. by eapply Forall_forall in Hbj.
  - assert (take i jobs !! j = Some []) as Hin
      by by rewrite lookup_take_lt.
    apply list_elem_of_lookup_2 in Hin. by eapply Forall_forall in Hbi.
Qed.

Lemma build_model_fail_first jobs j :
  fits_int64 jobs →
  jobs !! j = Some [] → Forall (λ job : Job, job ≠ []) (take j jobs) →
  build_model jobs = Raise (KeyError j (-1)).
Proof.
  intros Hfit Hj Hfirst.
  assert (Hex : Exists (λ job : Job, job = []) jobs).
  { apply Exists_exists. exists []. split; [|done].
    by eapply list_elem_of_lookup_2. }
  unfold build_model.
  destruct (build_prefix jobs Hfit) as (s & Hs & Ht & Hm).
  destruct (create_variables jobs init) as [sA|]; [|done].
  cbn [mbind result_bind] in *.
  destruct (add_no_overlap jobs sA) as [sB|]; [|done].
  cbn [mbind result_bind] in *. rewrite Hs. unfold NewIntVar.
  rewrite (proj1 Hfit). cbn [int64 andb mbind result_bind].
  rewrite collect_last_for_jobs, Ht.
  destruct (lasts_from_fail_first jobs [] jobs eq_refl Hex)
    as (i & Hi & Hbefore & Hl).
  cbn [length] in Hl. rewrite Hl. cbn [Nat.add].
  by rewrite (first_empty_unique jobs i j Hi Hbefore Hj Hfirst).
Qed.

End failure.

(** X20: when the horizon and the durations are 64-bit integers, the
    variables, the no-overlap constraints and the precedence constraints
    are created without error, whatever the jobs; if some job has no task,
    the program then ends in step 5, before the solver is called, with the
    [KeyError] of the key [(job_id, -1)] of the first such job.  When the
    horizon is not a 64-bit integer, the program ends in step 3 with the
    [TypeError] of the first variable, also when a job has no task. *)
Theorem first_empty_job_raises (jobs : list jssp.Job) :
  (layout.fits_int64 jobs →
   (∃ s, (s ← jssp.create_variables jobs jssp.init;
          s ← jssp.add_no_overlap jobs s;
          jssp.add_precedences jobs s) = Py.Ok s)
   ∧ ∀ j : nat,
       jobs !! j = Some [] →
       Forall (λ job : jssp.Job, job ≠ []) (take j jobs) →
       jssp.build_model jobs = Py.Raise (Py.KeyError j (-1))
       ∧ ∀ limited r, jssp.run jobs limited r →
                      r = Py.Raise (Py.KeyError j (-1)))
  ∧ (cp_model.int64 (jssp.horizon jobs) = false →
     jssp.create_variables jobs jssp.init = Py.Raise Py.TypeError
     ∧ jssp.build_model jobs = Py.Raise Py.TypeError
     ∧ ∀ limited r, jssp.run jobs limited r → r = Py.Raise Py.TypeError).
Proof.
  split.
  - intros Hfit. split.
    + destruct (build_prefix jobs Hfit) as (s & Hs & _). by exists s.
    + intros j Hj Hfirst.
      pose proof (build_model_fail_first jobs j Hfit Hj Hfirst) as Hfail.
      split; [done|]. intros limited r. unfold jssp.run. by rewrite Hfail.
  - intros HH. split; [by apply create_variables_type_error|].
    pose proof (build_model_type_error jobs HH) as Hfail.
    split; [done|]. intros limited r. unfold jssp.run. by rewrite Hfail.
Qed.

Lemma first_empty_job_raises_witness :
  (jssp.build_model [[(0, 1)]; []; []] = Py.Raise (Py.KeyError 1 (-1))
   ∧ ∀ limited r, jssp.run [[(0, 1)]; []; []] limited r →
                  r = Py.Raise (Py.KeyError 1 (-1)))
  ∧ (jssp.create_variables [[(0, 2 ^ 63)]; []] jssp.init
     = Py.Raise Py.TypeError
     ∧ jssp.build_model [[(0, 2 ^ 63)]; []] = Py.Raise Py.TypeError
     ∧ ∀ limited r, jssp.run [[(0, 2 ^ 63)]; []] limited r →
                    r = Py.Raise Py.TypeError).
Proof.
  split.
  - refine (proj2 (proj1 (first_empty_job_raises [[(0, 1)]; []; []]) _) 1%nat _ _).
    + split; [reflexivity | repeat constructor].
    + reflexivity.
    + repeat constructor. done.
  - refine (proj2 (first_empty_job_raises [[(0, 2 ^ 63)]; []]) _).
    reflexivity.
Defined.
